(** * preq: HTTP/1.1 response extraction, error classification, timed reads

    A shallow embedding of the Go sources of codesoap/preq:
    - package [extractor] (ExtractResponse and its helpers),
    - [timedReader.Read] (timed_reader.go),
    - [toErrno], [isHEAD], [setDefaultTLSAndPortIfNecessary], [getConn]
      and [doRequest] (main.go).

    Strings are byte sequences ([list Byte.byte]), [int64] values are
    integers of [Z] with the wrap-around written out where the code can
    overflow, and the functions of the Go standard library that the
    sources call ([strings], [strconv], [bufio], [io]) are modelled in
    modules of the same names. *)

From Stdlib Require Import String Strings.Byte.
From Stdlib Require Import ZArith Lia Bool List.
Import ListNotations.

Local Open Scope Z_scope.

(** ** Bytes and strings *)

Definition bytes := list byte.

(** A Go string literal (printable ASCII only). *)
Definition B (s : string) : bytes := list_byte_of_string s.

Definition CR : byte := x0d.
Definition LF : byte := x0a.
Definition CRLF : bytes := [CR; LF].

Definition code (b : byte) : Z := Z.of_N (Byte.to_N b).

Fixpoint bytes_eqb (a b : bytes) : bool :=
  match a, b with
  | [], [] => true
  | x :: a', y :: b' => Byte.eqb x y && bytes_eqb a' b'
  | _, _ => false
  end.

(** ** Go error values

    [Errorf format args] stands for [fmt.Errorf(format, args...)] with
    [%s] verbs only, [Errorw format args e] for a format that ends in the
    verb [%w], whose operand is [e]. *)

Inductive numErrKind := ErrSyntax | ErrRange.

Inductive error :=
| EOF                                   (* io.EOF *)
| ErrUnexpectedEOF                      (* io.ErrUnexpectedEOF *)
| ConnError (msg : string)              (* any other error of the wrapped reader *)
| NumError (Func : string) (Num : bytes) (Err : numErrKind) (* *strconv.NumError *)
| Errorf (format : string) (args : list bytes)
| Errorw (format : string) (args : list bytes) (wrapped : error).

Definition is_EOF (e : error) : bool :=
  match e with EOF => true | _ => false end.

(** ** package strings *)

Module strings.

Definition lowerASCII (b : byte) : byte :=
  let c := code b in
  if (65 <=? c) && (c <=? 90)
  then match Byte.of_N (Z.to_N (c + 32)) with Some b' => b' | None => b end
  else b.

(** [strings.ToLower].  ASCII letters are lowered byte by byte.  Of all
    non-ASCII runes only U+0130 (bytes C4 B0) and U+212A (bytes E2 84 AA)
    have an ASCII lower case ('i' and 'k'); every other non-ASCII rune
    lowers to a non-ASCII rune, which the model leaves as the bytes it
    found.  The callers only compare the result with ASCII strings
    ([HasPrefix] with an ASCII prefix, [==] with "head"), and for those
    comparisons the model and [strings.ToLower] agree on every input. *)
Fixpoint ToLower (s : bytes) : bytes :=
  match s with
  | [] => []
  | b :: r =>
      match r with
      | b2 :: r2 =>
          if Byte.eqb b xc4 && Byte.eqb b2 xb0 then x69 :: ToLower r2
          else match r2 with
               | b3 :: r3 =>
                   if Byte.eqb b xe2 && Byte.eqb b2 x84 && Byte.eqb b3 xaa
                   then x6b :: ToLower r3
                   else lowerASCII b :: ToLower r
               | [] => lowerASCII b :: ToLower r
               end
      | [] => lowerASCII b :: ToLower r
      end
  end.

Fixpoint HasPrefix (s prefix : bytes) : bool :=
  match prefix, s with
  | [], _ => true
  | p :: prefix', c :: s' => Byte.eqb c p && HasPrefix s' prefix'
  | _ :: _, [] => false
  end.

(** [strings.Split(s, sep)] for a separator of one byte: the fields
    between the separators, in order; never an empty list. *)
Fixpoint Split (s : bytes) (sep : byte) : list bytes :=
  match s with
  | [] => [[]]
  | c :: s' =>
      if Byte.eqb c sep then [] :: Split s' sep
      else match Split s' sep with
           | f :: fs => (c :: f) :: fs
           | [] => [[c]]
           end
  end.

(** [strings.SplitN(s, sep, 2)] for a separator of one byte: cut at the
    first separator only; a single field when there is none. *)
Fixpoint SplitN2 (s : bytes) (sep : byte) : list bytes :=
  match s with
  | [] => [[]]
  | c :: s' =>
      if Byte.eqb c sep then [[]; s']
      else match SplitN2 s' sep with
           | f :: fs => (c :: f) :: fs
           | [] => [[c]]
           end
  end.

(** Width in bytes of the white space rune ([unicode.IsSpace]) that [s]
    starts with, 0 when it starts with none: the six ASCII spaces, and
    the UTF-8 encodings of U+0085, U+00A0, U+1680, U+2000..U+200A,
    U+2028, U+2029, U+202F, U+205F and U+3000. *)
Definition spaceWidth (s : bytes) : nat :=
  match s with
  | [] => O
  | b :: r =>
      let c := code b in
      if ((9 <=? c) && (c <=? 13)) || (c =? 32) then 1%nat
      else match r with
           | [] => O
           | b2 :: r2 =>
               let c2 := code b2 in
               if (c =? 194) && ((c2 =? 133) || (c2 =? 160)) then 2%nat
               else match r2 with
                    | [] => O
                    | b3 :: _ =>
                        let c3 := code b3 in
                        if (c =? 225) && (c2 =? 154) && (c3 =? 128) then 3%nat
                        else if (c =? 226) && (c2 =? 128) &&
                                (((128 <=? c3) && (c3 <=? 138)) || (c3 =? 168)
                                 || (c3 =? 169) || (c3 =? 175)) then 3%nat
                        else if (c =? 226) && (c2 =? 129) && (c3 =? 159) then 3%nat
                        else if (c =? 227) && (c2 =? 128) && (c3 =? 128) then 3%nat
                        else O
                    end
           end
  end.

(** Drop the white space runes [s] starts with; [skip] counts the bytes
    of the current rune still to drop. *)
Fixpoint trimLeftSpace (skip : nat) (s : bytes) : bytes :=
  match skip, s with
  | S k, _ :: s' => trimLeftSpace k s'
  | S _, [] => []
  | O, [] => []
  | O, _ :: s' =>
      match spaceWidth s with
      | O => s
      | S k => trimLeftSpace k s'
      end
  end.

(** Width in bytes of the white space rune that [s] ends with: the rune
    read backwards from the end is a white space exactly when one of the
    encodings above is a suffix of [s]. *)
Definition spaceWidthLast (s : bytes) : nat :=
  let n := length s in
  if Nat.eqb (spaceWidth (skipn (n - 1) s)) 1 then 1%nat
  else if Nat.eqb (spaceWidth (skipn (n - 2) s)) 2 && Nat.leb 2 n then 2%nat
  else if Nat.eqb (spaceWidth (skipn (n - 3) s)) 3 && Nat.leb 3 n then 3%nat
  else O.

Fixpoint trimRightSpace (fuel : nat) (s : bytes) : bytes :=
  match fuel with
  | O => s
  | S f =>
      match spaceWidthLast s with
      | O => s
      | w => trimRightSpace f (firstn (length s - w) s)
      end
  end.

(** [strings.TrimSpace]. *)
Definition TrimSpace (s : bytes) : bytes :=
  let t := trimLeftSpace 0 s in trimRightSpace (length t) t.

Definition inCutset (cutset : bytes) (b : byte) : bool :=
  existsb (Byte.eqb b) cutset.

(** [strings.TrimRight(s, cutset)] for an ASCII cutset: the longest
    suffix made of bytes of the cutset is removed. *)
Fixpoint TrimRight (s cutset : bytes) : bytes :=
  match s with
  | [] => []
  | c :: s' =>
      match TrimRight s' cutset with
      | [] => if inCutset cutset c then [] else [c]
      | t => c :: t
      end
  end.

(** [strings.Fields]: the maximal runs of non-space runes.  [skip] is
    as in [trimLeftSpace]; [cur] holds the field being read, reversed. *)
Definition flushField (cur : bytes) (fs : list bytes) : list bytes :=
  match cur with [] => fs | _ => rev cur :: fs end.

Fixpoint fieldsFrom (skip : nat) (cur : bytes) (s : bytes) : list bytes :=
  match skip, s with
  | _, [] => flushField cur []
  | S k, _ :: s' => fieldsFrom k cur s'
  | O, c :: s' =>
      match spaceWidth s with
      | O => fieldsFrom O (c :: cur) s'
      | S k => flushField cur (fieldsFrom k [] s')
      end
  end.

Definition Fields (s : bytes) : list bytes := fieldsFrom 0 [] s.

End strings.

(** ** package strconv *)

Module strconv.

(** The value of a digit of [ParseUint]: '0'..'9', and a letter of
    either case as 10.. *)
Definition digitVal (c : byte) : option Z :=
  let n := code c in
  if (48 <=? n) && (n <=? 57) then Some (n - 48)
  else let l := Z.lor n 32 in
       if (97 <=? l) && (l <=? 122) then Some (l - 97 + 10) else None.

Definition maxUint64 : Z := 2 ^ 64 - 1.

(** The digit loop of [ParseUint(s, base, 64)] for a base other than 0. *)
Fixpoint parseDigits (base : Z) (s : bytes) (n : Z) : Z + numErrKind :=
  match s with
  | [] => inl n
  | c :: r =>
      match digitVal c with
      | None => inr ErrSyntax
      | Some d =>
          if d >=? base then inr ErrSyntax
          else if n >=? maxUint64 / base + 1 then inr ErrRange
          else let n1 := n * base + d in
               if n1 >? maxUint64 then inr ErrRange
               else parseDigits base r n1
      end
  end.

Definition ParseUint (s : bytes) (base : Z) : Z + numErrKind :=
  match s with
  | [] => inr ErrSyntax
  | _ => parseDigits base s 0
  end.

(** [strconv.ParseInt(s, base, 64)] for base 10 or 16: an optional sign,
    then digits; the value must fit an int64. *)
Definition ParseInt (s : bytes) (base : Z) : Z + error :=
  let fail k := inr (NumError "ParseInt" s k) in
  match s with
  | [] => fail ErrSyntax
  | c :: r =>
      let neg := Byte.eqb c x2d in
      let digits := if Byte.eqb c x2b || neg then r else s in
      match ParseUint digits base with
      | inr ErrSyntax => fail ErrSyntax
      | inr ErrRange => fail ErrRange
      | inl un =>
          let cutoff := 2 ^ 63 in
          if negb neg && (un >=? cutoff) then fail ErrRange
          else if neg && (un >? cutoff) then fail ErrRange
          else inl (if neg then - un else un)
      end
  end.

(** [strconv.Atoi]: [ParseInt(s, 10, 0)] on a platform with 64-bit
    [int], the error naming [Atoi]. *)
Definition Atoi (s : bytes) : Z + error :=
  match ParseInt s 10 with
  | inl v => inl v
  | inr (NumError _ num k) => inr (NumError "Atoi" num k)
  | inr e => inr e
  end.

End strconv.

(** ** The wrapped reader and package bufio

    The [io.Reader] handed to [ExtractResponse] is described by the
    results of its successive [Read] calls: a sequence of segments, each a
    non-empty run of bytes, and then the error [fin] that every further call
    returns ([io.EOF] when the peer closes, another error otherwise).  A
    read that returns bytes together with an error is the segment followed
    by the error. *)

Definition segment := (byte * bytes)%type.

Definition seg_bytes (s : segment) : bytes := fst s :: snd s.

Record conn := mkConn { segs : list segment; conn_err : error }.

(** One segment holding all of [s], as [strings.NewReader(s)] delivers it
    to a reader with room for it: to the buffered reader of
    [ExtractResponse], whose buffer has 4096 bytes, a string of at most
    4096 bytes.  A longer string reaches the buffered reader in several
    reads; those are other connections ([mkConn]) with the same bytes. *)
Definition segs_of (s : bytes) : list segment :=
  match s with [] => [] | b :: r => [(b, r)] end.

Definition NewStringReader (s : bytes) : conn := mkConn (segs_of s) EOF.

Module bufio.

(** [buf] is the unread part of the buffer ([b.buf[b.r:b.w]]), [rd] the
    results the wrapped reader has still to deliver.  A pending [b.err]
    is not stored: it is set exactly when [rd] has run out during a fill,
    and the next call would get [fin] from the wrapped reader again. *)
Record Reader := mkReader { buf : bytes; rd : list segment; fin : error }.

Definition NewReader (c : conn) : Reader := mkReader [] (segs c) (conn_err c).

(** The bytes the reader has still to deliver, buffered or not. *)
Definition content (r : Reader) : bytes :=
  buf r ++ concat (map seg_bytes (rd r)).

(** Cut [s] after the first [delim]. *)
Fixpoint cutAfter (delim : byte) (s : bytes) : option (bytes * bytes) :=
  match s with
  | [] => None
  | c :: s' =>
      if Byte.eqb c delim then Some ([c], s')
      else match cutAfter delim s' with
           | Some (l, tl) => Some (c :: l, tl)
           | None => None
           end
  end.

(** The fill loop of [ReadBytes]: [acc] holds what was read without
    finding the delimiter. *)
Fixpoint readBytesFill (delim : byte) (acc : bytes) (ss : list segment)
    (e : error) : bytes * option error * Reader :=
  match ss with
  | [] => (acc, Some e, mkReader [] [] e)
  | s :: rest =>
      match cutAfter delim (seg_bytes s) with
      | Some (l, tl) => (acc ++ l, None, mkReader tl rest e)
      | None => readBytesFill delim (acc ++ seg_bytes s) rest e
      end
  end.

(** [Reader.ReadBytes(delim)]: the data up to and including the first
    [delim]; when the wrapped reader fails first, the data read before
    the error, and the error. *)
Definition ReadBytes (delim : byte) (r : Reader) : bytes * option error * Reader :=
  match cutAfter delim (buf r) with
  | Some (l, tl) => (l, None, mkReader tl (rd r) (fin r))
  | None => readBytesFill delim (buf r) (rd r) (fin r)
  end.

(** [Reader.Read(p)] with [len(p) = k], smaller than the buffer: the
    bytes come from the buffer, refilled by at most one read of the
    wrapped reader when it is empty. *)
Definition Read (k : nat) (r : Reader) : bytes * option error * Reader :=
  match k with
  | O => ([], None, r)
  | _ =>
      match buf r with
      | [] =>
          match rd r with
          | [] => ([], Some (fin r), r)
          | s :: rest =>
              (firstn k (seg_bytes s), None,
               mkReader (skipn k (seg_bytes s)) rest (fin r))
          end
      | b => (firstn k b, None, mkReader (skipn k b) (rd r) (fin r))
      end
  end.

(** [Reader.WriteTo(w)], which [io.Copy(w, r)] calls: everything up to
    the error of the wrapped reader is written; [io.EOF] is not reported. *)
Definition WriteTo (r : Reader) : bytes * option error * Reader :=
  (content r, if is_EOF (fin r) then None else Some (fin r),
   mkReader [] [] (fin r)).

End bufio.

Module io.

(** The loop of [io.ReadAtLeast] over [bufio.Reader.Read]: the first
    call takes from the buffer, each later one from the next result of
    the wrapped reader.  [acc] is the filled part of the slice. *)
Fixpoint readFullLoop (need : nat) (acc b : bytes) (ss : list segment)
    (e : error) : bytes * option error * bufio.Reader :=
  if Nat.leb need (length b)
  then (acc ++ firstn need b, None, bufio.mkReader (skipn need b) ss e)
  else match ss with
       | [] =>
           (acc ++ b,
            Some (match acc ++ b with
                  | [] => e
                  | _ => if is_EOF e then ErrUnexpectedEOF else e
                  end),
            bufio.mkReader [] [] e)
       | s :: rest =>
           readFullLoop (need - length b) (acc ++ b) (seg_bytes s) rest e
       end.

(** [io.ReadFull(r, buf)] with [len(buf) = n]: exactly [n] bytes, or the
    bytes read and an error; the error is [io.EOF] only when no byte was
    read. *)
Definition ReadFull (n : nat) (r : bufio.Reader) : bytes * option error * bufio.Reader :=
  readFullLoop n [] (bufio.buf r) (bufio.rd r) (bufio.fin r).

End io.

(** ** Outcomes and the extraction monad

    A computation reads from the buffered reader and writes to [out], a
    [strings.Builder]: a write appends and cannot fail.  It yields the
    bytes it wrote, the reader it leaves, and its outcome: a value, an
    error, or a run-time panic.  [OutOfFuel] marks a loop cut off by its
    iteration bound; [extract_fuel_ok] shows that no bound is ever
    reached. *)

Inductive res (A : Type) :=
| Ok (a : A)
| Err (e : error)
| Panic (msg : string)
| OutOfFuel.

Arguments Ok {A} a.
Arguments Err {A} e.
Arguments Panic {A} msg.
Arguments OutOfFuel {A}.

Definition M (A : Type) := bufio.Reader -> bytes * bufio.Reader * res A.

Definition ret {A} (a : A) : M A := fun r => ([], r, Ok a).

Definition bind {A C} (m : M A) (k : A -> M C) : M C :=
  fun r =>
    match m r with
    | (w1, r1, Ok a) =>
        match k a r1 with (w2, r2, o) => (w1 ++ w2, r2, o) end
    | (w1, r1, Err e) => (w1, r1, Err e)
    | (w1, r1, Panic msg) => (w1, r1, Panic msg)
    | (w1, r1, OutOfFuel) => (w1, r1, OutOfFuel)
    end.

Notation "x <- m ;; k" := (bind m (fun x => k))
  (at level 61, m at next level, right associativity).
Notation "m ;;; k" := (bind m (fun _ => k))
  (at level 61, right associativity).

Definition fail {A} (e : error) : M A := fun r => ([], r, Err e).
Definition panic {A} (msg : string) : M A := fun r => ([], r, Panic msg).
Definition outOfFuel {A} : M A := fun r => ([], r, OutOfFuel).

(** An outcome computed without reading or writing. *)
Definition lift {A} (o : res A) : M A := fun r => ([], r, o).

(** [out.Write(b)]. *)
Definition write (b : bytes) : M unit := fun r => (b, r, Ok tt).

(** A call of the reader that returns [(data, err)]. *)
Definition readWith (f : bufio.Reader -> bytes * option error * bufio.Reader)
  : M (bytes * option error) :=
  fun r => match f r with (d, e, r') => ([], r', Ok (d, e)) end.

(** [if err != nil { return wrap(err) }] around a call. *)
Definition orWrap {A} (m : M A) (wrap : error -> error) : M A :=
  fun r =>
    match m r with
    | (w, r', Err e) => (w, r', Err (wrap e))
    | x => x
    end.

(** A loop bounded by the bytes still to come: each of the loops below
    reads at least one byte per iteration that does not leave the loop. *)
Definition bounded {A} (loop : nat -> M A) : M A :=
  fun r => loop (S (length (bufio.content r))) r.

(** ** package extractor *)

Definition maxBufSize : Z := 1024.

Definition wrap64 (z : Z) : Z := (z + 2 ^ 63) mod 2 ^ 64 - 2 ^ 63.

Definition readAndCopyLine : M bytes :=
  p <- readWith (bufio.ReadBytes LF) ;;
  match p with
  | (_, Some err) => fail (Errorw "could not read line: %w" [] err)
  | (rawLine, None) =>
      write rawLine ;;; ret (strings.TrimRight rawLine CRLF)
  end.

Fixpoint copyNLoop (fuel : nat) (n : Z) : M Z :=
  match fuel with
  | O => outOfFuel
  | S fuel' =>
      if n >? maxBufSize then
        p <- readWith (bufio.Read (Z.to_nat maxBufSize)) ;;
        match p with
        | (_, Some err) => fail err
        | (read, None) =>
            write read ;;; copyNLoop fuel' (n - Z.of_nat (length read))
        end
      else ret n
  end.

Definition copyN (n : Z) : M unit :=
  if n =? 0 then ret tt
  else
    n' <- bounded (fun fuel => copyNLoop fuel n) ;;
    if n' <? 0 then panic "makeslice: len out of range"
    else
      p <- readWith (io.ReadFull (Z.to_nat n')) ;;
      match p with
      | (_, Some err) => fail err
      | (b, None) => write b
      end.

Definition hasNoBodyStatusCode (statusLine : bytes) : bool :=
  match strings.Fields statusLine with
  | _ :: f1 :: _ =>
      match strconv.Atoi f1 with
      | inr _ => false
      | inl statusCode =>
          (100 <=? statusCode) && (statusCode <? 200)
          || (statusCode =? 204) || (statusCode =? 304)
      end
  | _ => false
  end.

(** [strings.SplitN(line, ":", 2)[1]]: indexing panics when the line has
    no colon. *)
Definition afterColon (line : bytes) : res bytes :=
  match nth_error (strings.SplitN2 line ":"%byte) 1 with
  | Some v => Ok v
  | None => Panic "index out of range [1] with length 1"
  end.

Definition isContentLength (line : bytes) : bool :=
  strings.HasPrefix (strings.ToLower line) (B "content-length:").

Definition isTransferEncoding (line : bytes) : bool :=
  strings.HasPrefix (strings.ToLower line) (B "transfer-encoding:").

(** The [Content-Length] branch of the header loop (lines 58-68): the new
    value of [contentLength] after [line]. *)
Definition contentLengthHeader (contentLength : option Z) (line : bytes)
  : res (option Z) :=
  if isContentLength line then
    match contentLength with
    | Some _ => Err (Errorf "multiple Content-Length headers found" [])
    | None =>
        match afterColon line with
        | Ok v =>
            match strconv.ParseInt (strings.TrimSpace v) 10 with
            | inr err =>
                Err (Errorw "invalid Content-Length in '%s': %w" [line] err)
            | inl i => Ok (Some i)
            end
        | Err e => Err e
        | Panic msg => Panic msg
        | OutOfFuel => OutOfFuel
        end
    end
  else Ok contentLength.

(** The [Transfer-Encoding] branch of the header loop (lines 69-72): the
    new value of [chunked] after [line]. *)
Definition transferEncodingHeader (chunked : bool) (line : bytes) : res bool :=
  if isTransferEncoding line then
    match afterColon line with
    | Ok v =>
        let fields := strings.Split v ","%byte in
        Ok (bytes_eqb (strings.TrimSpace (last fields [])) (B "chunked"))
    | Err e => Err e
    | Panic msg => Panic msg
    | OutOfFuel => OutOfFuel
    end
  else Ok chunked.

(** The header loop of [readHead]. *)
Fixpoint readHeadLoop (fuel : nat) (contentLength : option Z) (chunked : bool)
  : M (option Z * bool) :=
  match fuel with
  | O => outOfFuel
  | S fuel' =>
      line <- orWrap readAndCopyLine (Errorw "could not read line: %w" []) ;;
      if bytes_eqb line [] then ret (contentLength, chunked)
      else
        contentLength' <- lift (contentLengthHeader contentLength line) ;;
        chunked' <- lift (transferEncodingHeader chunked line) ;;
        readHeadLoop fuel' contentLength' chunked'
  end.

Definition readHead : M (option Z * bool * bool) :=
  line <- orWrap readAndCopyLine (Errorw "could not read status line: %w" []) ;;
  let noBody := hasNoBodyStatusCode line in
  p <- bounded (fun fuel => readHeadLoop fuel None false) ;;
  ret (fst p, snd p, noBody).

(** The first loop of [readChunkedBody]: the chunks. *)
Fixpoint readChunks (fuel : nat) : M unit :=
  match fuel with
  | O => outOfFuel
  | S fuel' =>
      chunk <- readAndCopyLine ;;
      match strconv.ParseInt (hd [] (strings.Split chunk ";"%byte)) 16 with
      | inr _ => fail (Errorf "invalid chunk '%s'" [chunk])
      | inl chunkSize =>
          if chunkSize =? 0 then ret tt
          else
            orWrap (copyN (wrap64 (chunkSize + 2)))
                   (Errorw "could not read full chunk body: %w" []) ;;;
            readChunks fuel'
      end
  end.

(** The second loop of [readChunkedBody]: the trailer lines. *)
Fixpoint readTrailers (fuel : nat) : M unit :=
  match fuel with
  | O => outOfFuel
  | S fuel' =>
      line <- readAndCopyLine ;;
      if bytes_eqb line [] then ret tt else readTrailers fuel'
  end.

Definition readChunkedBody : M unit :=
  bounded readChunks ;;; bounded readTrailers.

(** [io.Copy(&out, reader)]. *)
Definition ioCopy : M unit :=
  fun r =>
    match bufio.WriteTo r with
    | (d, Some err, r') => (d, r', Err err)
    | (d, None, r') => (d, r', Ok tt)
    end.

(** The body of [ExtractResponse], on the buffered reader. *)
Definition extract (headRequest : bool) : M unit :=
  h <- readHead ;;
  let '(contentLength, chunked, noBody) := h in
  if headRequest || noBody then ret tt
  else if chunked then readChunkedBody
  else match contentLength with
       | Some n => copyN n
       | None => ioCopy
       end.

(** [ExtractResponse(in, headRequest)]: the string of [out] and the
    error ([Ok tt] for [nil]). *)
Definition ExtractResponse (in_ : conn) (headRequest : bool) : bytes * res unit :=
  match extract headRequest (bufio.NewReader in_) with
  | (out, _, o) => (out, o)
  end.

(** ** timedReader (timed_reader.go)

    The wrapped [io.Reader] is any state machine with a [Read]: a call
    with a slice of length [p] yields the bytes put into the slice (their
    number is the count [n]) and the error.  A [time.Time] is the number
    of nanoseconds since the zero instant, so that [IsZero] is a test for
    0; [now] is what [time.Now()] returns during the call. *)

Class ioReader (S : Type) := {
  io_Read : S -> nat -> bytes * option error * S
}.

Definition Time := Z.

Definition IsZero (t : Time) : bool := t =? 0.

Record timedReader (S : Type) := mkTimedReader { r : S; readAt : Time }.

Arguments mkTimedReader {S} r readAt.
Arguments r {S} t.
Arguments readAt {S} t.

Definition timedReader_Read {S} `{ioReader S} (now : Time) (t : timedReader S)
    (p : nat) : bytes * option error * timedReader S :=
  match io_Read (r t) p with
  | (data, err, r') =>
      let n := length data in
      (data, err,
       mkTimedReader r'
         (if IsZero (readAt t) && Nat.ltb 0 n then now else readAt t))
  end.

(** A sequence of [Read] calls on the wrapped reader itself: the slice
    length of each call, in order. *)
Fixpoint reads {S} `{ioReader S} (s : S) (calls : list nat)
  : list (bytes * option error) * S :=
  match calls with
  | [] => ([], s)
  | p :: calls' =>
      match io_Read s p with
      | (data, err, s') =>
          match reads s' calls' with
          | (results, s'') => ((data, err) :: results, s'')
          end
      end
  end.

(** The same calls on a [timedReader]; each call comes with the clock
    reading of its moment. *)
Fixpoint timedReads {S} `{ioReader S} (t : timedReader S)
    (calls : list (nat * Time)) : list (bytes * option error) * timedReader S :=
  match calls with
  | [] => ([], t)
  | (p, now) :: calls' =>
      match timedReader_Read now t p with
      | (data, err, t') =>
          match timedReads t' calls' with
          | (results, t'') => ((data, err) :: results, t'')
          end
      end
  end.

(** ** toErrno and isHEAD (main.go)

    The error values [toErrno] can tell apart, by dynamic type and by the
    fields and methods it looks at. *)

Inductive goerr :=
| Nil                                         (* the nil error *)
| DeadlineExceeded                            (* context.DeadlineExceeded *)
| OpError (Err : goerr)                       (* *net.OpError *)
| DNSError (UnwrapErr : goerr) (IsNotFound IsTimeout : bool) (* *net.DNSError *)
| SyscallError (Err : Z)                      (* *os.SyscallError around a syscall.Errno *)
| NetError (Timeout : bool) (IsDeadline : bool)
    (* any other implementation of net.Error: its Timeout(), and what its
       Is method answers for context.DeadlineExceeded *)
| CertificateVerificationError (Err : goerr)  (* *tls.CertificateVerificationError *)
| WrapError (Err : goerr)                     (* any other error with an Unwrap *)
| OtherError.                                 (* any other error *)

(** Linux values of [syscall.Errno]. *)
Definition EAGAIN : Z := 11.
Definition ETIMEDOUT : Z := 110.
Definition ECONNREFUSED : Z := 111.

(** [errors.Is(err, context.DeadlineExceeded)]: the error itself, its [Is]
    method, or an error further down its [Unwrap] chain. *)
Fixpoint errorsIsDeadlineExceeded (err : goerr) : bool :=
  match err with
  | Nil => false
  | DeadlineExceeded => true
  | OpError e => errorsIsDeadlineExceeded e
  | DNSError e _ _ => errorsIsDeadlineExceeded e
  | SyscallError _ => false
  | NetError _ d => d
  | CertificateVerificationError e => errorsIsDeadlineExceeded e
  | WrapError e => errorsIsDeadlineExceeded e
  | OtherError => false
  end.

(** The [Timeout()] method of [err], if it has one. *)
Fixpoint timeoutMethod (err : goerr) : option bool :=
  match err with
  | DeadlineExceeded => Some true
  | OpError e => Some (match timeoutMethod e with Some b => b | None => false end)
  | DNSError _ _ isTimeout => Some isTimeout
  | SyscallError n => Some ((n =? EAGAIN) || (n =? ETIMEDOUT))
  | NetError t _ => Some t
  | _ => None
  end.

(** Whether [err] implements [net.Error] ([Error], [Timeout] and
    [Temporary]); [*os.SyscallError] has no [Temporary]. *)
Definition implementsNetError (err : goerr) : bool :=
  match err with
  | DeadlineExceeded | OpError _ | DNSError _ _ _ | NetError _ _ => true
  | _ => false
  end.

Definition toErrno (err : goerr) : Z :=
  if errorsIsDeadlineExceeded err then 31
  else
    match err with
    | OpError err3 =>
        match err3 with
        | DNSError _ isNotFound isTimeout =>
            if isNotFound then 10 else if isTimeout then 11 else 99
        | SyscallError e => if e =? ECONNREFUSED then 30 else 99
        | _ =>
            if implementsNetError err3 then
              match timeoutMethod err3 with
              | Some true => 31
              | _ => 99
              end
            else 99
        end
    | CertificateVerificationError _ => 20
    | _ => 99 (* Undefined errno for unknown error. *)
    end.

Definition isHEAD (req : bytes) : bool :=
  Nat.leb (length (B "HEAD")) (length req)
  && bytes_eqb (strings.ToLower (firstn (length (B "HEAD")) req)) (B "head").

(** The extraction step of [doRequest] (lines 131-133): the response is
    framed with the flag that [isHEAD] derives from the raw request.  The
    [timedReader] between the connection and the extractor passes the bytes
    through unchanged. *)
Definition doRequest_extract (req : bytes) (c : conn) : bytes * res unit :=
  ExtractResponse c (isHEAD req).

(** ** The error taxonomy in the words of the specification

    The classes of section 4.3 that the classifier itself produces, and
    the prioritized chain of predicates of the resolution rule. *)

Inductive errClass :=
| TimeoutExceeded
| DnsNotFound
| DnsResolutionTimeout
| ConnectionRefused
| TlsVerificationFailed
| Unclassified.

Definition errnoOf (c : errClass) : Z :=
  match c with
  | DnsNotFound => 10
  | DnsResolutionTimeout => 11
  | TlsVerificationFailed => 20
  | ConnectionRefused => 30
  | TimeoutExceeded => 31
  | Unclassified => 99
  end.

Definition isDnsNotFound (err : goerr) : bool :=
  match err with OpError (DNSError _ true _) => true | _ => false end.

Definition isDnsTimeout (err : goerr) : bool :=
  match err with OpError (DNSError _ _ true) => true | _ => false end.

Definition isConnectionRefused (err : goerr) : bool :=
  match err with OpError (SyscallError e) => e =? ECONNREFUSED | _ => false end.

Definition isNetworkTimeout (err : goerr) : bool :=
  match err with
  | OpError e =>
      implementsNetError e
      && match timeoutMethod e with Some b => b | None => false end
  | _ => false
  end.

Definition isCertificateVerification (err : goerr) : bool :=
  match err with CertificateVerificationError _ => true | _ => false end.

Definition classify (err : goerr) : errClass :=
  if errorsIsDeadlineExceeded err then TimeoutExceeded
  else if isDnsNotFound err then DnsNotFound
  else if isDnsTimeout err then DnsResolutionTimeout
  else if isConnectionRefused err then ConnectionRefused
  else if isNetworkTimeout err then TimeoutExceeded
  else if isCertificateVerification err then TlsVerificationFailed
  else Unclassified.

(** The clock reading a sequence of reads leaves in [readAt] when it
    starts from the zero time: that of the first call that yielded at
    least one byte, the zero time when there is none. *)
Fixpoint firstByteTime (results : list (bytes * option error))
    (calls : list (nat * Time)) : Time :=
  match results, calls with
  | (data, _) :: results', (_, now) :: calls' =>
      if Nat.ltb 0 (length data) then now else firstByteTime results' calls'
  | _, _ => 0
  end.

(** A wrapped reader given by a script: the results of its successive
    [Read] calls, each cut to the length of the slice; [io.EOF] once the
    script has run out. *)
#[export] Instance scriptedReader : ioReader (list (bytes * option error)) := {
  io_Read s p :=
    match s with
    | [] => ([], Some EOF, [])
    | (data, err) :: s' => (firstn p data, err, s')
    end
}.

(** The responses used as examples. *)
Definition response_200_length_10 : bytes :=
  B "HTTP/1.1 200 OK" ++ CRLF ++ B "Content-Length: 10" ++ CRLF ++ CRLF
  ++ B "All good." ++ [LF].

Definition head_200_length_10 : bytes :=
  B "HTTP/1.1 200 OK" ++ CRLF ++ B "Content-Length: 10" ++ CRLF ++ CRLF.

(** ** The shape of a response stream

    A line on the wire is a text followed by its terminator, CR LF or a
    bare LF; the text holds no LF and does not end in CR, so that it is
    what [readAndCopyLine] returns for the line. *)

Definition line := (bytes * bytes)%type.

Definition wire (l : line) : bytes := fst l ++ snd l.

Definition is_eol (e : bytes) : Prop := e = CRLF \/ e = [LF].

Definition text_ok (t : bytes) : Prop := ~ In LF t /\ last t LF <> CR.

Definition line_ok (l : line) : Prop := text_ok (fst l) /\ is_eol (snd l).

(** A header (or trailer) line: a line that is not blank. *)
Definition header_ok (l : line) : Prop := line_ok l /\ fst l <> [].

Definition wires (ls : list line) : bytes := concat (map wire ls).

(** The effect of the header loop on [contentLength] and [chunked], on the
    texts of the header lines alone. *)
Fixpoint scanHeaders (contentLength : option Z) (chunked : bool)
    (texts : list bytes) : res (option Z * bool) :=
  match texts with
  | [] => Ok (contentLength, chunked)
  | t :: texts' =>
      match contentLengthHeader contentLength t with
      | Ok contentLength' =>
          match transferEncodingHeader chunked t with
          | Ok chunked' => scanHeaders contentLength' chunked' texts'
          | Err e => Err e
          | Panic msg => Panic msg
          | OutOfFuel => OutOfFuel
          end
      | Err e => Err e
      | Panic msg => Panic msg
      | OutOfFuel => OutOfFuel
      end
  end.

(** The bytes a connection delivers before its final error. *)
Definition stream (c : conn) : bytes := concat (map seg_bytes (segs c)).

(** The head of a response: status line, header lines, blank line. *)
Definition head_ok (status : line) (hdrs : list line) (blank : bytes) : Prop :=
  line_ok status /\ Forall header_ok hdrs /\ is_eol blank.

Definition head_wire (status : line) (hdrs : list line) (blank : bytes) : bytes :=
  wire status ++ wires hdrs ++ blank.

(** The value of a header line: what follows its first colon. *)
Definition headerValue (t : bytes) : bytes :=
  nth 1 (strings.SplitN2 t ":"%byte) [].

(** The last comma-separated token of a header value, trimmed. *)
Definition lastToken (v : bytes) : bytes :=
  strings.TrimSpace (last (strings.Split v ","%byte) []).

(** The last [Transfer-Encoding] header of a header block, if any. *)
Definition lastTransferEncoding (texts : list bytes) : option bytes :=
  find isTransferEncoding (rev texts).

(** The size token of a chunk-size line: what precedes the first [;]. *)
Definition sizeToken (t : bytes) : bytes := hd [] (strings.Split t ";"%byte).

(** A chunk: its size line and the bytes that follow it, payload and line
    terminator.  It is well formed for the size [sz] when the token parses
    as [sz], a positive number, [sz + 2] bytes follow, and [sz + 2] is
    still an int64. *)
Record chunk := mkChunk { size_line : line; chunk_data : bytes }.

Definition chunk_wire (c : chunk) : bytes := wire (size_line c) ++ chunk_data c.

Definition chunk_ok (c : chunk) : Prop :=
  line_ok (size_line c)
  /\ exists sz,
       strconv.ParseInt (sizeToken (fst (size_line c))) 16 = inl sz
       /\ 0 < sz /\ sz + 2 < 2 ^ 63
       /\ Z.of_nat (length (chunk_data c)) = sz + 2.

(** The line of the zero-size chunk. *)
Definition last_chunk_ok (l : line) : Prop :=
  line_ok l /\ strconv.ParseInt (sizeToken (fst l)) 16 = inl 0.

Definition chunks_wire (cs : list chunk) : bytes := concat (map chunk_wire cs).

(** ** Notions of the specification *)

(** The status line carries a no-body status code: its second field is a
    number that is 1xx, 204 or 304. *)
Definition noBodyStatus (statusLine : bytes) : Prop :=
  exists f0 f1 fs statusCode,
    strings.Fields statusLine = f0 :: f1 :: fs
    /\ strconv.Atoi f1 = inl statusCode
    /\ (100 <= statusCode < 200 \/ statusCode = 204 \/ statusCode = 304).

(** A malformed status line: no status code can be read from it, because
    it has fewer than two fields or its second field is not a number. *)
Definition malformedStatus (statusLine : bytes) : Prop :=
  ~ exists f0 f1 fs statusCode,
      strings.Fields statusLine = f0 :: f1 :: fs
      /\ strconv.Atoi f1 = inl statusCode.

(** Equality of two ASCII strings up to the case of letters. *)
Definition equalFold (a b : bytes) : bool :=
  bytes_eqb (strings.ToLower a) (strings.ToLower b).

(** Chunked as the specification words it: the last token of the
    [Transfer-Encoding] value equals "chunked", case-insensitively. *)
Definition chunkedInsensitive (texts : list bytes) : bool :=
  match lastTransferEncoding texts with
  | Some t => equalFold (lastToken (headerValue t)) (B "chunked")
  | None => false
  end.

(** A header that makes no claim of chunked encoding. *)
Definition notChunked (t : bytes) : Prop :=
  isTransferEncoding t = true -> lastToken (headerValue t) <> B "chunked".

(** More examples. *)
Definition crlf (t : bytes) : line := (t, CRLF).

Definition response_304_length_5 : bytes :=
  B "HTTP/1.1 304 Not Modified" ++ CRLF ++ B "Content-Length: 5" ++ CRLF ++ CRLF
  ++ B "hello".

Definition head_304_length_5 : bytes :=
  B "HTTP/1.1 304 Not Modified" ++ CRLF ++ B "Content-Length: 5" ++ CRLF ++ CRLF.

Definition response_duplicate_length : bytes :=
  B "HTTP/1.1 200 OK" ++ CRLF ++ B "Content-Length: 1" ++ CRLF
  ++ B "Content-Length: 1" ++ CRLF ++ CRLF.

Definition response_garbage : bytes :=
  B "garbage" ++ CRLF ++ B "Content-Type: text/plain" ++ CRLF ++ CRLF ++ B "abc".

Definition response_Chunked_capital : bytes :=
  B "HTTP/1.1 200 OK" ++ CRLF ++ B "Transfer-Encoding: Chunked" ++ CRLF ++ CRLF
  ++ B "3" ++ CRLF ++ B "abc" ++ CRLF ++ B "0" ++ CRLF ++ CRLF ++ B "next".

Definition head_404 : bytes :=
  B "HTTP/1.1 404 Not Found" ++ CRLF
  ++ B "Content-Type: text/plain; charset=utf-8" ++ CRLF
  ++ B "Content-Length: 19" ++ CRLF ++ CRLF.

Definition body_404 : bytes := B "404 page not found" ++ [LF].

Definition head_chunked_length_1 : bytes :=
  B "HTTP/1.1 200 OK" ++ CRLF ++ B "Content-Length: 1" ++ CRLF
  ++ B "Transfer-Encoding: chunked" ++ CRLF ++ CRLF.

Definition body_chunked : bytes :=
  B "a" ++ CRLF ++ B "All good." ++ [LF] ++ CRLF
  ++ B "0" ++ CRLF ++ B "Trailer: foo" ++ CRLF ++ CRLF.

Definition head_negative_length : bytes :=
  B "HTTP/1.1 200 OK" ++ CRLF ++ B "Content-Length: -5" ++ CRLF ++ CRLF.

Definition head_chunked : bytes :=
  B "HTTP/1.1 200 OK" ++ CRLF ++ B "Transfer-Encoding: chunked" ++ CRLF ++ CRLF.

(** A chunk-size token as RFC 7230 has it: one or more hexadecimal
    digits. *)
Definition isHexDigit (b : byte) : bool :=
  let c := code b in
  ((48 <=? c) && (c <=? 57)) || ((65 <=? c) && (c <=? 70))
  || ((97 <=? c) && (c <=? 102)).

Definition validHexSize (token : bytes) : bool :=
  negb (bytes_eqb token []) && forallb isHexDigit token.

(** A Content-Length value as the specification has it: a non-negative
    integer in decimal digits. *)
Definition isDigit (b : byte) : bool :=
  let c := code b in (48 <=? c) && (c <=? 57).

Definition validLength (value : bytes) : bool :=
  negb (bytes_eqb value []) && forallb isDigit value.

(** A run from the reader [r0] that was not cut off by an iteration bound
    and that left no more bytes in the reader than it found. *)
Definition within {A} (run : bytes * bufio.Reader * res A) (r0 : bufio.Reader)
  : Prop :=
  snd run <> OutOfFuel
  /\ (length (bufio.content (snd (fst run))) <= length (bufio.content r0))%nat.

(** ** What a run takes from the reader *)

Definition prefix_of (a b : bytes) : Prop := exists t, b = a ++ t.

(** A run from the reader [r0] that copies in order: what it took from
    the reader is the front of what the reader held, what it wrote is the
    front of what it took, and all of it when the run ends without an
    error. *)
Definition copies {A} (run : bytes * bufio.Reader * res A) (r0 : bufio.Reader)
  : Prop :=
  exists taken,
    bufio.content r0 = taken ++ bufio.content (snd (fst run))
    /\ prefix_of (fst (fst run)) taken
    /\ (forall a, snd run = Ok a -> fst (fst run) = taken).

(** The error of [io.ReadFull] when the reader fails with [e] after the
    bytes [got], fewer than were asked for: [e] itself, but
    [io.ErrUnexpectedEOF] for an [io.EOF] that comes after some bytes. *)
Definition shortReadError (got : bytes) (e : error) : error :=
  match got with
  | [] => e
  | _ => if is_EOF e then ErrUnexpectedEOF else e
  end.

(** A visible ASCII character (VCHAR, %x21-7E): no white space, no
    control character, no byte of a multi-byte rune. *)
Definition isVisible (b : byte) : bool :=
  let c := code b in (33 <=? c) && (c <=? 126).

(** ** doRequest and its helpers (main.go)

    An [httpline] is a line of the input and of the output.  [TLS] and
    [Reqat] are pointers in the source; [None] is the nil pointer.  The
    field [Err] of the source is [Err_] here, the name [Err] being that
    of an outcome. *)

Record httpline := mkHttpline {
  Host : bytes;
  Port : Z;
  TLS : option bool;
  Req : bytes;
  Reqat : option Time;
  Ping : Z;
  Resp : bytes;
  Err_ : bytes;
  Errno : Z
}.

Definition withTLS (t : option bool) (l : httpline) : httpline :=
  mkHttpline (Host l) (Port l) t (Req l) (Reqat l) (Ping l) (Resp l) (Err_ l) (Errno l).

Definition withPort (p : Z) (l : httpline) : httpline :=
  mkHttpline (Host l) p (TLS l) (Req l) (Reqat l) (Ping l) (Resp l) (Err_ l) (Errno l).

Definition withReqat (t : option Time) (l : httpline) : httpline :=
  mkHttpline (Host l) (Port l) (TLS l) (Req l) t (Ping l) (Resp l) (Err_ l) (Errno l).

Definition withPing (p : Z) (l : httpline) : httpline :=
  mkHttpline (Host l) (Port l) (TLS l) (Req l) (Reqat l) p (Resp l) (Err_ l) (Errno l).

Definition withResp (s : bytes) (l : httpline) : httpline :=
  mkHttpline (Host l) (Port l) (TLS l) (Req l) (Reqat l) (Ping l) s (Err_ l) (Errno l).

(** [request.Errno, request.Err = errno, msg]. *)
Definition withError (errno : Z) (msg : bytes) (l : httpline) : httpline :=
  mkHttpline (Host l) (Port l) (TLS l) (Req l) (Reqat l) (Ping l) (Resp l) msg errno.

(** The request is passed by pointer and updated in place: the result
    is the request after the call.  After the first [if] the pointer
    [TLS] is not nil, and [t] is the value it points to. *)
Definition setDefaultTLSAndPortIfNecessary (request : httpline) : httpline :=
  let t := match TLS request with None => true | Some b => b end in
  let request := withTLS (Some t) request in
  if Port request =? 0 then
    if negb t then withPort 80 request else withPort 443 request
  else request.

(** The verb [%d] of [fmt.Sprintf]. *)
Definition digitByte (d : Z) : byte :=
  match Byte.of_N (Z.to_N (48 + d)) with Some b => b | None => x30 end.

Fixpoint formatDigits (fuel : nat) (n : Z) (acc : bytes) : bytes :=
  match fuel with
  | O => acc
  | S fuel' =>
      let acc' := digitByte (n mod 10) :: acc in
      if n <? 10 then acc' else formatDigits fuel' (n / 10) acc'
  end.

Definition formatInt (n : Z) : bytes :=
  if n <? 0 then "-"%byte :: formatDigits (S (Z.to_nat (Z.log2 (- n)))) (- n) []
  else formatDigits (S (Z.to_nat (Z.log2 n))) n [].

(** A connection as [doRequest] uses it: what [SetDeadline] returns
    ([None] for nil), the error of [fmt.Fprint(conn, s)], and what the
    peer then delivers to [Read]. *)
Record netConn := mkNetConn {
  SetDeadline : Time -> option goerr;
  Fprint : bytes -> option goerr;
  incoming : bytes -> conn
}.

(** The two ways of dialing: [dialer.Dial(network, addr)] and
    [tls.DialWithDialer(&dialer, network, addr, nil)], for a dialer with
    the given deadline. *)
Record network := mkNetwork {
  Dial : Time -> bytes -> bytes -> netConn + goerr;
  DialWithDialer : Time -> bytes -> bytes -> netConn + goerr
}.

Definition getConn (net : network) (request : httpline) (deadline : Time)
  : netConn + goerr :=
  let addr := Host request ++ B ":" ++ formatInt (Port request) in
  match TLS request with
  | Some false => Dial net deadline (B "tcp") addr
  | _ => DialWithDialer net deadline (B "tcp") addr
  end.

(** The method [Error] of the interface [error]. *)
Class hasError (E : Type) := { Error : E -> bytes }.

(** [t.Add(d)], [t.Sub(u)] and [d.Milliseconds()], durations being
    int64 numbers of nanoseconds: [Sub] saturates, [Milliseconds] truncates
    towards zero. *)
Definition Time_Add (t : Time) (d : Z) : Time := t + d.

Definition Time_Sub (t u : Time) : Z :=
  if t - u <? - 2 ^ 63 then - 2 ^ 63
  else if t - u >? 2 ^ 63 - 1 then 2 ^ 63 - 1
  else t - u.

Definition Milliseconds (d : Z) : Z := Z.quot d 1000000.

(** The readings of the clock during a request: at line 112, at line
    129, and in [timedReader.Read] during the first [Read] of the
    connection. *)
Record clock := mkClock { startedAt : Time; sentAt : Time; firstReadAt : Time }.

(** [timedConn.readAt] after the extraction.  [ExtractResponse] begins
    by reading a line from an empty buffer, so the connection is read at
    least once; its first [Read] yields a byte unless the connection
    delivers nothing at all. *)
Definition readAtAfter (in_ : conn) (clk : clock) : Time :=
  match segs in_ with
  | [] => 0
  | _ :: _ => firstReadAt clk
  end.

(** The calls of methods of the connection, in order. *)
Inductive event :=
| EvSetDeadline (t : Time)
| EvWrite (b : bytes)
| EvRead
| EvClose.

(** The part of [doRequest] after [defer conn.Close()] (lines 119-141). *)
Definition exchange `{hasError goerr} `{hasError error} (clk : clock)
    (deadline : Time) (conn : netConn) (request : httpline)
  : list event * res httpline :=
  match SetDeadline conn deadline with
  | Some err =>
      ([EvSetDeadline deadline], Ok (withError 99 (Error err) request))
  | None =>
      match Fprint conn (Req request) with
      | Some err =>
          ([EvSetDeadline deadline; EvWrite (Req request)],
           Ok (withError 30 (Error err) request))
      | None =>
          let request := withReqat (Some (sentAt clk)) request in
          let in_ := incoming conn (Req request) in
          let '(resp, o) := doRequest_extract (Req request) in_ in
          let request := withResp resp request in
          let readAt := readAtAfter in_ clk in
          let request :=
            if negb (IsZero readAt)
            then withPing (Milliseconds (Time_Sub readAt (sentAt clk))) request
            else request in
          ([EvSetDeadline deadline; EvWrite (Req request); EvRead],
           match o with
           | Ok _ => Ok request
           | Err err => Ok (withError 99 (Error err) request)
           | Panic msg => Panic msg
           | OutOfFuel => OutOfFuel
           end)
      end
  end.

(** [doRequest]: the calls made on the connection, and the line that is
    returned, or the panic of the extractor.  The deferred [Close] runs
    on every way out, a panic included. *)
Definition doRequest `{hasError goerr} `{hasError error} (net : network)
    (timeout : Z) (clk : clock) (request : httpline)
  : list event * res httpline :=
  let request := setDefaultTLSAndPortIfNecessary request in
  let deadline := Time_Add (startedAt clk) timeout in
  match getConn net request deadline with
  | inr err => ([], Ok (withError (toErrno err) (Error err) request))
  | inl conn =>
      match exchange clk deadline conn request with
      | (events, result) => (events ++ [EvClose], result)
      end
  end.

(** An example of a request: the server sends the head of a response
    with ten body bytes announced, three of them, and closes. *)
Definition example_conn : netConn :=
  mkNetConn (fun _ => None) (fun _ => None)
    (fun _ => NewStringReader (head_200_length_10 ++ B "All")).

Definition example_network : network :=
  mkNetwork (fun _ _ _ => inr OtherError) (fun _ _ _ => inl example_conn).

Definition example_request : httpline :=
  mkHttpline (B "example.com") 0 None (B "GET / HTTP/1.1" ++ CRLF ++ CRLF)
    None 0 [] [] 0.

Definition example_clock : clock := mkClock 1000 2000 3000000.

Definition example_netError : hasError goerr :=
  {| Error := fun _ => B "connection error" |}.

Definition example_ioError : hasError error :=
  {| Error := fun _ => B "unexpected EOF" |}.

Definition example_result : httpline :=
  mkHttpline (B "example.com") 443 (Some true) (B "GET / HTTP/1.1" ++ CRLF ++ CRLF)
    (Some 2000) 2 head_200_length_10 (B "unexpected EOF") 99.

Definition example_events : list event :=
  [EvSetDeadline 5000001000; EvWrite (B "GET / HTTP/1.1" ++ CRLF ++ CRLF);
   EvRead; EvClose].

(** A computation whose successful runs depend on the bytes they take
    alone: a run that ends without error and wrote [w] goes the same way
    on every reader that starts with [w], whatever follows and however
    the bytes are cut into reads, and leaves what follows. *)
Definition framed {A} (m : M A) : Prop :=
  forall r1 w r1' a,
    m r1 = (w, r1', Ok a) ->
    forall r2 rest,
      bufio.content r2 = w ++ rest ->
      exists r2',
        m r2 = (w, r2', Ok a)
        /\ bufio.content r2' = rest /\ bufio.fin r2' = bufio.fin r2.

(** A run that panics, if at all, with a message that satisfies [P]. *)
Definition panics_within {A} (P : string -> Prop)
    (run : bytes * bufio.Reader * res A) : Prop :=
  forall msg, snd run = Panic msg -> P msg.

(** The connection as a scripted reader: its segments, one per [Read],
    and then its error. *)
Definition script_of (c : conn) : list (bytes * option error) :=
  map (fun s => (seg_bytes s, None)) (segs c) ++ [([], Some (conn_err c))].

(** What [ExtractResponse] does once the status line is read (lines 49-74
    of [readHead], then lines 28-38 of [ExtractResponse]), for the flag
    [noBody] that the status line gave. *)
Definition afterStatusLine (noBody headRequest : bool) : M unit :=
  p <- bounded (fun fuel => readHeadLoop fuel None false) ;;
  if headRequest || noBody then ret tt
  else if snd p then readChunkedBody
  else match fst p with
       | Some n => copyN n
       | None => ioCopy
       end.

(** No step of [doRequest] fails: the connection is opened, the deadline
    set, the request written, and the extraction ends with a nil error. *)
Definition requestSucceeds `{hasError goerr} `{hasError error} (net : network)
    (timeout : Z) (clk : clock) (request : httpline) : Prop :=
  exists conn,
    getConn net (setDefaultTLSAndPortIfNecessary request)
      (Time_Add (startedAt clk) timeout) = inl conn
    /\ SetDeadline conn (Time_Add (startedAt clk) timeout) = None
    /\ Fprint conn (Req request) = None
    /\ snd (doRequest_extract (Req request) (incoming conn (Req request))) = Ok tt.

(** The first step of [doRequest] that fails, with the error code and the
    error text that the source assigns at that step: dialing (line 115),
    setting the deadline (line 120), writing the request (line 126), the
    extraction (line 138). *)
Definition failedStep `{hasError goerr} `{hasError error} (net : network)
    (timeout : Z) (clk : clock) (request : httpline) (errno : Z) (msg : bytes)
  : Prop :=
  (exists err,
      getConn net (setDefaultTLSAndPortIfNecessary request)
        (Time_Add (startedAt clk) timeout) = inr err
      /\ errno = toErrno err /\ msg = Error err)
  \/ (exists conn,
         getConn net (setDefaultTLSAndPortIfNecessary request)
           (Time_Add (startedAt clk) timeout) = inl conn
         /\ ((exists err,
                 SetDeadline conn (Time_Add (startedAt clk) timeout) = Some err
                 /\ errno = 99 /\ msg = Error err)
             \/ (SetDeadline conn (Time_Add (startedAt clk) timeout) = None
                 /\ ((exists err,
                         Fprint conn (Req request) = Some err
                         /\ errno = 30 /\ msg = Error err)
                     \/ (Fprint conn (Req request) = None
                         /\ exists err,
                              snd (doRequest_extract (Req request)
                                     (incoming conn (Req request))) = Err err
                              /\ errno = 99 /\ msg = Error err))))).

(** * Properties *)

(** ** C8: the error classifier *)

(** C8.  [toErrno] is a total function of the error value: on every error
    it yields the code of the class that the prioritized chain selects
    (deadline exceeded first; then DNS not found, DNS timeout, connection
    refused and a generic network timeout; then TLS certificate
    verification; every other error unclassified), and the code is one of
    10, 11, 20, 30, 31 and 99.  Being a function, it gives identical error
    values the same code. *)
Theorem toErrno_priority_chain :
  forall err : goerr,
    toErrno err = errnoOf (classify err)
    /\ In (toErrno err) [10; 11; 20; 30; 31; 99].
Proof.
  intros err.
  assert (Hcode : forall c, In (errnoOf c) [10; 11; 20; 30; 31; 99]).
  { intros c; destruct c; simpl; auto 10. }
  assert (Heq : toErrno err = errnoOf (classify err)).
  { unfold toErrno, classify.
    destruct (errorsIsDeadlineExceeded err) eqn:Hd; [reflexivity|].
    destruct err as [| |e3|u nf tmo|e|tmo dl|e|e|]; simpl; try reflexivity.
    destruct e3 as [| |e4|u nf tmo|e|tmo dl|e|e|];
      simpl in Hd |- *; try discriminate; try reflexivity.
    - destruct (timeoutMethod e4) as [[|]|]; reflexivity.
    - destruct nf, tmo; reflexivity.
    - destruct (e =? ECONNREFUSED); reflexivity.
    - destruct tmo; reflexivity. }
  split; [exact Heq | rewrite Heq; apply Hcode].
Qed.

(** ** C9: timedReader *)

Lemma timedReader_Read_result :
  forall S (H : ioReader S) now (t : timedReader S) p,
    timedReader_Read now t p =
    (fst (fst (io_Read (r t) p)), snd (fst (io_Read (r t) p)),
     mkTimedReader (snd (io_Read (r t) p))
       (if IsZero (readAt t)
           && Nat.ltb 0 (length (fst (fst (io_Read (r t) p))))
        then now else readAt t)).
Proof.
  intros. unfold timedReader_Read.
  destruct (io_Read (r t) p) as [[data err] s']. reflexivity.
Qed.

(** C9.  For every wrapped reader and every sequence of [Read] calls, made
    at clock readings that are not the zero time, the [timedReader] returns
    call by call the bytes, counts and errors of the wrapped reader and
    leaves the wrapped reader in the same state; a time stamp that is
    already set is kept, and one that is not set becomes the clock reading
    of the first call that yielded at least one byte. *)
Theorem timedReader_transparent :
  forall S (H : ioReader S) (calls : list (nat * Time)) (t : timedReader S),
    Forall (fun c => IsZero (snd c) = false) calls ->
    fst (timedReads t calls) = fst (reads (r t) (map fst calls))
    /\ r (snd (timedReads t calls)) = snd (reads (r t) (map fst calls))
    /\ readAt (snd (timedReads t calls)) =
       if IsZero (readAt t)
       then firstByteTime (fst (reads (r t) (map fst calls))) calls
       else readAt t.
Proof.
  intros S H calls.
  induction calls as [|[p now] calls IH]; intros t Hclock.
  - simpl. destruct (IsZero (readAt t)) eqn:Hz; auto.
    unfold IsZero in Hz. apply Z.eqb_eq in Hz. auto.
  - inversion Hclock as [|c cs Hnow Hrest]; subst. simpl in Hnow.
    cbn [timedReads reads map fst].
    rewrite timedReader_Read_result.
    destruct (io_Read (r t) p) as [[data err] s'] eqn:Hread.
    cbn [fst snd].
    specialize (IH (mkTimedReader s'
                      (if IsZero (readAt t) && Nat.ltb 0 (length data)
                       then now else readAt t)) Hrest).
    cbn [r readAt] in IH.
    destruct (timedReads _ calls) as [results t''].
    destruct (reads s' (map fst calls)) as [results0 s''].
    cbn [fst snd] in *.
    destruct IH as (IH1 & IH2 & IH3).
    repeat split.
    + rewrite IH1. reflexivity.
    + exact IH2.
    + rewrite IH3. cbn [firstByteTime].
      destruct (IsZero (readAt t)) eqn:Hz; cbn [andb].
      * destruct (Nat.ltb 0 (length data)).
        -- rewrite Hnow. reflexivity.
        -- rewrite Hz. reflexivity.
      * rewrite Hz. reflexivity.
Qed.

Lemma timedReader_transparent_witness :
  Forall (fun c => IsZero (snd c) = false) [(8%nat, 5); (8%nat, 7); (8%nat, 9)]
  /\ readAt (snd (timedReads
                    (mkTimedReader [([], None); (B "HTTP", None); (B "/1.1", None)] 0)
                    [(8%nat, 5); (8%nat, 7); (8%nat, 9)])) = 7.
Proof.
  split.
  - repeat constructor.
  - apply (proj2 (proj2 (timedReader_transparent _ scriptedReader
             [(8%nat, 5); (8%nat, 7); (8%nat, 9)]
             (mkTimedReader [([], None); (B "HTTP", None); (B "/1.1", None)] 0)
             ltac:(repeat constructor)))).
Defined.

(** ** C10: isHEAD *)






Lemma bytes_eqb_eq : forall a b, bytes_eqb a b = true <-> a = b.
Proof.
  induction a as [|x a IH]; destruct b as [|y b]; simpl; split; intros H;
    try discriminate; auto.
  - apply andb_true_iff in H. destruct H as [H1 H2].
    apply Byte.byte_dec_bl in H1. apply IH in H2. congruence.
  - inversion H; subst. apply andb_true_iff. split.
    + apply Byte.byte_dec_lb. reflexivity.
    + apply IH. reflexivity.
Qed.


(** ** Reading from the buffered reader *)

Lemma byte_eqb_refl : forall b, Byte.eqb b b = true.
Proof. intros b. apply Byte.byte_dec_lb. reflexivity. Qed.

Lemma byte_eqb_neq : forall a b, a <> b -> Byte.eqb a b = false.
Proof.
  intros a b H. destruct (Byte.eqb a b) eqn:E; auto.
  apply Byte.byte_dec_bl in E. contradiction.
Qed.

Lemma cutAfter_found :
  forall d l rest,
    ~ In d l -> bufio.cutAfter d (l ++ d :: rest) = Some (l ++ [d], rest).
Proof.
  intros d l rest. induction l as [|c l IH]; intros Hn; simpl.
  - rewrite byte_eqb_refl. reflexivity.
  - rewrite byte_eqb_neq by (intros E; apply Hn; left; auto).
    rewrite IH by (intros E; apply Hn; right; auto). reflexivity.
Qed.

Lemma cutAfter_none :
  forall d s, ~ In d s -> bufio.cutAfter d s = None.
Proof.
  intros d s. induction s as [|c s IH]; intros Hn; simpl; auto.
  rewrite byte_eqb_neq by (intros E; apply Hn; left; auto).
  rewrite IH by (intros E; apply Hn; right; auto). reflexivity.
Qed.

(** Where the first [d] of a concatenation lies. *)
Lemma first_delim_app :
  forall (d : byte) a b l rest,
    a ++ b = l ++ d :: rest -> ~ In d l ->
    (exists a2, a = l ++ d :: a2 /\ rest = a2 ++ b)
    \/ (exists l2, l = a ++ l2 /\ b = l2 ++ d :: rest /\ ~ In d a).
Proof.
  intros d a. induction a as [|c a IH]; intros b l rest H Hn.
  - right. exists l. simpl in H. auto.
  - destruct l as [|c' l].
    + simpl in H. inversion H; subst. left. exists a. auto.
    + simpl in H. inversion H; subst c'.
      destruct (IH b l rest) as [(a2 & E1 & E2)|(l2 & E1 & E2 & E3)]; auto.
      * intros E; apply Hn; right; auto.
      * left. exists a2. subst. auto.
      * right. exists l2. subst. repeat split; auto.
        intros [E|E]; [apply Hn; left; auto | contradiction].
Qed.

Lemma readBytesFill_found :
  forall d ss acc e l rest,
    ~ In d l -> concat (map seg_bytes ss) = l ++ d :: rest ->
    exists r',
      bufio.readBytesFill d acc ss e = (acc ++ l ++ [d], None, r')
      /\ bufio.content r' = rest /\ bufio.fin r' = e.
Proof.
  intros d ss. induction ss as [|s ss IH]; intros acc e l rest Hn H.
  - simpl in H. destruct l; discriminate.
  - cbn [map concat] in H. cbn [bufio.readBytesFill].
    destruct (first_delim_app _ _ _ _ _ H Hn) as [(a2 & E1 & E2)|(l2 & E1 & E2 & E3)].
    + rewrite E1, cutAfter_found by assumption.
      eexists; split; [reflexivity|]. split; auto.
    + rewrite cutAfter_none by assumption.
      destruct (IH (acc ++ seg_bytes s) e l2 rest) as (r' & R1 & R2 & R3); auto.
      { intros E; apply Hn; subst l; apply in_or_app; auto. }
      exists r'. rewrite R1. subst l. rewrite <- !app_assoc. auto.
Qed.

Lemma readBytesFill_none :
  forall d ss acc e,
    ~ In d (concat (map seg_bytes ss)) ->
    bufio.readBytesFill d acc ss e
    = (acc ++ concat (map seg_bytes ss), Some e, bufio.mkReader [] [] e).
Proof.
  intros d ss. induction ss as [|s ss IH]; intros acc e Hn.
  - simpl. rewrite app_nil_r. reflexivity.
  - cbn [map concat] in *. cbn [bufio.readBytesFill].
    rewrite cutAfter_none by (intros E; apply Hn; apply in_or_app; auto).
    rewrite IH by (intros E; apply Hn; apply in_or_app; auto).
    rewrite <- app_assoc. reflexivity.
Qed.

Lemma ReadBytes_line :
  forall d r l rest,
    ~ In d l -> bufio.content r = l ++ d :: rest ->
    exists r',
      bufio.ReadBytes d r = (l ++ [d], None, r')
      /\ bufio.content r' = rest /\ bufio.fin r' = bufio.fin r.
Proof.
  intros d r l rest Hn H. unfold bufio.content in H. unfold bufio.ReadBytes.
  destruct (first_delim_app _ _ _ _ _ H Hn) as [(a2 & E1 & E2)|(l2 & E1 & E2 & E3)].
  - rewrite E1, cutAfter_found by assumption.
    eexists; split; [reflexivity|]. split; auto.
  - rewrite cutAfter_none by assumption.
    destruct (readBytesFill_found d (bufio.rd r) (bufio.buf r) (bufio.fin r) l2 rest)
      as (r' & R1 & R2 & R3); auto.
    { intros E; apply Hn; subst l; apply in_or_app; auto. }
    exists r'. rewrite R1. subst l. rewrite <- app_assoc. auto.
Qed.

Lemma ReadBytes_eof :
  forall d r,
    ~ In d (bufio.content r) ->
    bufio.ReadBytes d r
    = (bufio.content r, Some (bufio.fin r), bufio.mkReader [] [] (bufio.fin r)).
Proof.
  intros d r Hn. unfold bufio.content in *. unfold bufio.ReadBytes.
  rewrite cutAfter_none by (intros E; apply Hn; apply in_or_app; auto).
  apply readBytesFill_none. intros E; apply Hn; apply in_or_app; auto.
Qed.

(** ** The monad *)

Lemma bind_Ok :
  forall A C (m : M A) (k : A -> M C) r w1 r1 a,
    m r = (w1, r1, Ok a) ->
    bind m k r = (w1 ++ fst (fst (k a r1)), snd (fst (k a r1)), snd (k a r1)).
Proof.
  intros. unfold bind. rewrite H. destruct (k a r1) as [[w2 r2] o]. reflexivity.
Qed.

Lemma bind_Err :
  forall A C (m : M A) (k : A -> M C) r w1 r1 e,
    m r = (w1, r1, Err e) -> bind m k r = (w1, r1, Err e).
Proof. intros. unfold bind. rewrite H. reflexivity. Qed.

Lemma bind_Panic :
  forall A C (m : M A) (k : A -> M C) r w1 r1 msg,
    m r = (w1, r1, Panic msg) -> bind m k r = (w1, r1, Panic msg).
Proof. intros. unfold bind. rewrite H. reflexivity. Qed.

Lemma orWrap_Ok :
  forall A (m : M A) f r w r' a,
    m r = (w, r', Ok a) -> orWrap m f r = (w, r', Ok a).
Proof. intros. unfold orWrap. rewrite H. reflexivity. Qed.

Lemma orWrap_Err :
  forall A (m : M A) f r w r' e,
    m r = (w, r', Err e) -> orWrap m f r = (w, r', Err (f e)).
Proof. intros. unfold orWrap. rewrite H. reflexivity. Qed.

(** ** Lines *)

Lemma TrimRight_all_cut :
  forall s cs, forallb (strings.inCutset cs) s = true -> strings.TrimRight s cs = [].
Proof.
  induction s as [|c s IH]; intros cs H; simpl in *; auto.
  apply andb_true_iff in H. destruct H as [H1 H2].
  rewrite IH, H1 by assumption. reflexivity.
Qed.

Lemma TrimRight_app_cut :
  forall t s cs,
    forallb (strings.inCutset cs) s = true ->
    strings.TrimRight (t ++ s) cs = strings.TrimRight t cs.
Proof.
  induction t as [|c t IH]; intros s cs H.
  - simpl. apply TrimRight_all_cut. assumption.
  - simpl. rewrite IH by assumption. reflexivity.
Qed.

Lemma TrimRight_id :
  forall t cs d,
    strings.inCutset cs (last t d) = false -> t <> [] ->
    strings.TrimRight t cs = t.
Proof.
  induction t as [|c t IH]; intros cs d H Hne; [congruence|].
  destruct t as [|c' t].
  - simpl in *. rewrite H. reflexivity.
  - change (last (c :: c' :: t) d) with (last (c' :: t) d) in H.
    change (strings.TrimRight (c :: c' :: t) cs)
      with (match strings.TrimRight (c' :: t) cs with
            | [] => if strings.inCutset cs c then [] else [c]
            | t0 => c :: t0
            end).
    rewrite (IH cs d H) by discriminate. reflexivity.
Qed.

Lemma readAndCopyLine_line :
  forall r l rest,
    ~ In LF l -> bufio.content r = l ++ LF :: rest ->
    exists r',
      readAndCopyLine r = (l ++ [LF], r', Ok (strings.TrimRight (l ++ [LF]) CRLF))
      /\ bufio.content r' = rest /\ bufio.fin r' = bufio.fin r.
Proof.
  intros r l rest Hn H.
  destruct (ReadBytes_line LF r l rest Hn H) as (r' & R1 & R2 & R3).
  exists r'. split; [|auto].
  unfold readAndCopyLine, bind, readWith, write, ret. rewrite R1.
  cbn. rewrite app_nil_r. reflexivity.
Qed.

Lemma readAndCopyLine_eof :
  forall r,
    ~ In LF (bufio.content r) ->
    readAndCopyLine r
    = ([], bufio.mkReader [] [] (bufio.fin r),
       Err (Errorw "could not read line: %w" [] (bufio.fin r))).
Proof.
  intros r Hn. unfold readAndCopyLine, bind, readWith, fail.
  rewrite ReadBytes_eof by assumption. reflexivity.
Qed.

Lemma text_last_not_cut :
  forall t, text_ok t -> t <> [] -> strings.inCutset CRLF (last t LF) = false.
Proof.
  intros t [Hn Hl] Hne.
  assert (Hin : In (last t LF) t).
  { clear Hn Hl. induction t as [|c [|c' t] IH]; [congruence|left; reflexivity|].
    right. apply IH. discriminate. }
  unfold strings.inCutset, CRLF. simpl.
  rewrite byte_eqb_neq by assumption.
  rewrite byte_eqb_neq by (intros E; apply Hn; rewrite <- E; assumption).
  reflexivity.
Qed.

Lemma TrimRight_text :
  forall t, text_ok t -> strings.TrimRight t CRLF = t.
Proof.
  intros t H. destruct t as [|c t]; [reflexivity|].
  apply TrimRight_id with (d := LF); [|discriminate].
  apply text_last_not_cut; [assumption|discriminate].
Qed.

Lemma wire_split :
  forall l, line_ok l ->
    exists l', wire l = l' ++ [LF] /\ ~ In LF l'
               /\ strings.TrimRight (l' ++ [LF]) CRLF = fst l.
Proof.
  intros [t e] [Ht He]. simpl in *. unfold wire. simpl.
  destruct He as [He|He]; subst e.
  - exists (t ++ [CR]). unfold CRLF. rewrite <- app_assoc. split; [reflexivity|].
    split.
    + intros E. apply in_app_or in E. destruct E as [E|[E|[]]].
      * destruct Ht; contradiction.
      * discriminate.
    + simpl. change [CR; LF] with CRLF.
      rewrite TrimRight_app_cut by reflexivity. apply TrimRight_text; assumption.
  - exists t. split; [reflexivity|]. split; [destruct Ht; assumption|].
    rewrite TrimRight_app_cut by reflexivity. apply TrimRight_text; assumption.
Qed.

Lemma readAndCopyLine_wire :
  forall r l rest,
    line_ok l -> bufio.content r = wire l ++ rest ->
    exists r',
      readAndCopyLine r = (wire l, r', Ok (fst l))
      /\ bufio.content r' = rest /\ bufio.fin r' = bufio.fin r.
Proof.
  intros r l rest Hl H.
  destruct (wire_split l Hl) as (l' & E1 & E2 & E3).
  rewrite E1, <- app_assoc in H. simpl in H.
  destruct (readAndCopyLine_line r l' rest E2 H) as (r' & R1 & R2 & R3).
  exists r'. rewrite R1, E1, E3. auto.
Qed.

(** ** The header loop *)

Lemma lift_bind :
  forall A C (o : res A) (k : A -> M C) r,
    bind (lift o) k r =
    match o with
    | Ok a => k a r
    | Err e => ([], r, Err e)
    | Panic msg => ([], r, Panic msg)
    | OutOfFuel => ([], r, OutOfFuel)
    end.
Proof.
  intros A C o k x. unfold bind, lift. destruct o as [a| | |]; try reflexivity.
  destruct (k a x) as [[w2 r2] o2]. reflexivity.
Qed.

Lemma wires_length :
  forall ls, Forall line_ok ls -> (length ls <= length (wires ls))%nat.
Proof.
  induction 1 as [|l ls Hl _ IH]; simpl; auto.
  unfold wires in *. cbn [map concat]. rewrite length_app.
  destruct (wire_split l Hl) as (l' & E & _). rewrite E, length_app. simpl. lia.
Qed.

Lemma bytes_eqb_nil : forall t, t <> [] -> bytes_eqb t [] = false.
Proof. intros [|c t] H; [congruence|reflexivity]. Qed.

Lemma readHeadLoop_scan :
  forall hdrs fuel r contentLength chunked blank rest contentLength' chunked',
    Forall header_ok hdrs -> is_eol blank ->
    bufio.content r = wires hdrs ++ blank ++ rest ->
    scanHeaders contentLength chunked (map fst hdrs) = Ok (contentLength', chunked') ->
    (length hdrs < fuel)%nat ->
    exists r',
      readHeadLoop fuel contentLength chunked r
      = (wires hdrs ++ blank, r', Ok (contentLength', chunked'))
      /\ bufio.content r' = rest /\ bufio.fin r' = bufio.fin r.
Proof.
  induction hdrs as [|h hdrs IH];
    intros fuel r cl ch blank rest cl' ch' Hok Hb Hc Hs Hf;
    (destruct fuel as [|fuel]; [simpl in Hf; lia|]).
  - simpl in Hc, Hs. inversion Hs; subst cl' ch'.
    assert (Hl : line_ok ([], blank)).
    { split; [split; [intros []|discriminate]|exact Hb]. }
    destruct (readAndCopyLine_wire r ([], blank) rest Hl Hc) as (r' & R1 & R2 & R3).
    exists r'. split; [|auto].
    cbn [readHeadLoop]. erewrite bind_Ok by (apply orWrap_Ok; exact R1).
    cbn. rewrite app_nil_r. reflexivity.
  - inversion Hok as [|h0 hs0 [Hl Hne] Hrest]; subst.
    unfold wires in Hc. cbn [map concat] in Hc. rewrite <- app_assoc in Hc.
    destruct (readAndCopyLine_wire r h _ Hl Hc) as (r1 & R1 & R2 & R3).
    cbn [map scanHeaders] in Hs.
    destruct (contentLengthHeader cl (fst h)) as [cl1| | |] eqn:Hcl; try discriminate.
    destruct (transferEncodingHeader ch (fst h)) as [ch1| | |] eqn:Hch; try discriminate.
    destruct (IH fuel r1 cl1 ch1 blank rest cl' ch') as (r' & Q1 & Q2 & Q3); auto.
    { simpl in Hf. lia. }
    exists r'. split; [|split; [assumption|congruence]].
    cbn [readHeadLoop]. erewrite bind_Ok by (apply orWrap_Ok; exact R1).
    rewrite (bytes_eqb_nil _ Hne), !lift_bind, Hcl, lift_bind, Hch, Q1.
    cbn [fst snd]. unfold wires. cbn [map concat]. rewrite <- app_assoc. reflexivity.
Qed.

(** ** Copying a counted number of bytes *)

Lemma Read_some :
  forall k r,
    (0 < k)%nat -> bufio.content r <> [] ->
    exists d r',
      bufio.Read k r = (d, None, r')
      /\ d <> [] /\ (length d <= k)%nat
      /\ bufio.content r = d ++ bufio.content r' /\ bufio.fin r' = bufio.fin r.
Proof.
  intros k [b ss e] Hk Hne. unfold bufio.Read, bufio.content in *. simpl in *.
  destruct k as [|k]; [lia|].
  destruct b as [|c b].
  - destruct ss as [|s ss]; [simpl in Hne; congruence|].
    eexists; eexists; split; [reflexivity|]. simpl.
    repeat split; try discriminate.
    + rewrite length_firstn. lia.
    + f_equal. rewrite app_assoc, firstn_skipn. reflexivity.
  - eexists; eexists; split; [reflexivity|]. simpl.
    repeat split; try discriminate.
    + rewrite length_firstn. lia.
    + f_equal. rewrite app_assoc, firstn_skipn. reflexivity.
Qed.

Lemma Read_none :
  forall k r,
    (0 < k)%nat -> bufio.content r = [] ->
    bufio.Read k r = ([], Some (bufio.fin r), r).
Proof.
  intros k [b ss e] Hk H. unfold bufio.Read, bufio.content in *. simpl in *.
  destruct k as [|k]; [lia|].
  destruct b as [|c b]; [|discriminate].
  destruct ss as [|s ss]; [reflexivity|discriminate].
Qed.

Lemma app_eq_prefix :
  forall (A : Type) (a b c d : list A),
    a ++ b = c ++ d -> (length a <= length c)%nat ->
    exists c2, c = a ++ c2 /\ b = c2 ++ d.
Proof.
  intros A a. induction a as [|x a IH]; intros b c d H Hl.
  - exists c. auto.
  - destruct c as [|y c]; [simpl in Hl; lia|].
    simpl in H. inversion H; subst y.
    destruct (IH b c d) as (c2 & E1 & E2); auto. { simpl in Hl. lia. }
    exists c2. subst. auto.
Qed.

Lemma readFullLoop_ok :
  forall ss need acc b e body rest,
    b ++ concat (map seg_bytes ss) = body ++ rest -> length body = need ->
    exists r',
      io.readFullLoop need acc b ss e = (acc ++ body, None, r')
      /\ bufio.content r' = rest /\ bufio.fin r' = e.
Proof.
  induction ss as [|s ss IH]; intros need acc b e body rest H Hlen.
  - simpl in H. rewrite app_nil_r in H. subst b.
    cbn [io.readFullLoop]. rewrite length_app.
    replace (Nat.leb need (length body + length rest)) with true
      by (symmetry; apply Nat.leb_le; lia).
    subst need. rewrite firstn_app, firstn_all, Nat.sub_diag, firstn_O, app_nil_r.
    rewrite skipn_app, skipn_all, Nat.sub_diag. simpl.
    eexists; split; [reflexivity|]. unfold bufio.content. simpl.
    rewrite app_nil_r. auto.
  - cbn [io.readFullLoop]. destruct (Nat.leb need (length b)) eqn:E.
    + apply Nat.leb_le in E.
      destruct (app_eq_prefix _ body rest b (concat (map seg_bytes (s :: ss))))
        as (c2 & E1 & E2); [symmetry; exact H|lia|].
      subst b need. rewrite firstn_app, firstn_all, Nat.sub_diag, firstn_O, app_nil_r.
      rewrite skipn_app, skipn_all, Nat.sub_diag. simpl.
      eexists; split; [reflexivity|]. unfold bufio.content. simpl. auto.
    + apply Nat.leb_gt in E.
      destruct (app_eq_prefix _ b (concat (map seg_bytes (s :: ss))) body rest)
        as (c2 & E1 & E2); [exact H|lia|].
      cbn [map concat] in E2.
      destruct (IH (need - length b)%nat (acc ++ b) (seg_bytes s) e c2 rest)
        as (r' & Q1 & Q2 & Q3); auto.
      { subst body. rewrite length_app in Hlen. lia. }
      exists r'. rewrite Q1. subst body. rewrite <- app_assoc. auto.
Qed.

Lemma ReadFull_ok :
  forall n r body rest,
    bufio.content r = body ++ rest -> length body = n ->
    exists r',
      io.ReadFull n r = (body, None, r')
      /\ bufio.content r' = rest /\ bufio.fin r' = bufio.fin r.
Proof.
  intros n r body rest H Hlen. unfold io.ReadFull.
  destruct (readFullLoop_ok (bufio.rd r) n [] (bufio.buf r) (bufio.fin r) body rest)
    as (r' & Q1 & Q2 & Q3); auto.
  exists r'. auto.
Qed.

Lemma copyNLoop_ok :
  forall fuel n r body rest,
    bufio.content r = body ++ rest -> Z.of_nat (length body) = n ->
    (length (bufio.content r) < fuel)%nat ->
    exists w body' r',
      copyNLoop fuel n r = (w, r', Ok (Z.of_nat (length body')))
      /\ body = w ++ body' /\ bufio.content r' = body' ++ rest
      /\ Z.of_nat (length body') <= maxBufSize
      /\ bufio.fin r' = bufio.fin r.
Proof.
  induction fuel as [|fuel IH]; intros n r body rest Hc Hn Hf; [lia|].
  cbn [copyNLoop]. destruct (n >? maxBufSize) eqn:E.
  - apply Z.gtb_lt in E.
    assert (Hk : (0 < Z.to_nat maxBufSize)%nat) by (unfold maxBufSize; lia).
    assert (Hne : bufio.content r <> []).
    { rewrite Hc. destruct body; [simpl in Hn; unfold maxBufSize in E; lia|discriminate]. }
    destruct (Read_some _ r Hk Hne) as (d & r1 & R1 & R2 & R3 & R4 & R5).
    destruct (app_eq_prefix _ d (bufio.content r1) body rest) as (c2 & E1 & E2).
    { rewrite <- R4. exact Hc. }
    { unfold maxBufSize in *. lia. }
    assert (Hd : (0 < length d)%nat) by (destruct d; [congruence|simpl; lia]).
    destruct (IH (n - Z.of_nat (length d)) r1 c2 rest) as (w & body' & r' & Q1 & Q2 & Q3 & Q4 & Q5).
    { exact E2. }
    { subst body. rewrite length_app in Hn. lia. }
    { rewrite R4, length_app in Hf. lia. }
    exists (d ++ w), body', r'. repeat split.
    + unfold bind at 1. unfold readWith. rewrite R1.
      unfold bind at 1. unfold write. rewrite Q1. reflexivity.
    + subst body. rewrite Q2, app_assoc. reflexivity.
    + exact Q3.
    + exact Q4.
    + congruence.
  - rewrite Z.gtb_ltb in E. apply Z.ltb_ge in E.
    exists [], body, r. unfold ret. subst n. repeat split; auto.
Qed.

Lemma copyN_ok :
  forall n r body rest,
    bufio.content r = body ++ rest -> Z.of_nat (length body) = n ->
    exists r',
      copyN n r = (body, r', Ok tt)
      /\ bufio.content r' = rest /\ bufio.fin r' = bufio.fin r.
Proof.
  intros n r body rest Hc Hn. unfold copyN.
  destruct (n =? 0) eqn:E.
  - apply Z.eqb_eq in E. destruct body; [|simpl in Hn; lia].
    exists r. unfold ret. auto.
  - destruct (copyNLoop_ok (S (length (bufio.content r))) n r body rest Hc Hn)
      as (w & body' & r1 & Q1 & Q2 & Q3 & Q4 & Q5); [lia|].
    destruct (ReadFull_ok (length body') r1 body' rest Q3 eq_refl) as (r' & F1 & F2 & F3).
    exists r'. split; [|split; [assumption|congruence]].
    unfold bind at 1. unfold bounded. rewrite Q1.
    replace (Z.of_nat (length body') <? 0) with false by (symmetry; apply Z.ltb_ge; lia).
    unfold bind, readWith, write. rewrite Nat2Z.id, F1. subst body.
    reflexivity.
Qed.

(** ** The head of a response *)

Lemma readHead_ok :
  forall r status hdrs blank rest contentLength chunked,
    line_ok status -> Forall header_ok hdrs -> is_eol blank ->
    bufio.content r = wire status ++ wires hdrs ++ blank ++ rest ->
    scanHeaders None false (map fst hdrs) = Ok (contentLength, chunked) ->
    exists r',
      readHead r
      = (wire status ++ wires hdrs ++ blank, r',
         Ok (contentLength, chunked, hasNoBodyStatusCode (fst status)))
      /\ bufio.content r' = rest /\ bufio.fin r' = bufio.fin r.
Proof.
  intros r status hdrs blank rest cl ch Hs Hh Hb Hc Hscan.
  destruct (readAndCopyLine_wire r status _ Hs Hc) as (r1 & R1 & R2 & R3).
  destruct (readHeadLoop_scan hdrs (S (length (bufio.content r1))) r1 None false
              blank rest cl ch Hh Hb R2 Hscan) as (r' & Q1 & Q2 & Q3).
  { rewrite R2, length_app.
    assert (length hdrs <= length (wires hdrs))%nat.
    { apply wires_length. eapply Forall_impl; [|exact Hh]. intros a [Ha _]. exact Ha. }
    lia. }
  exists r'. split; [|split; [assumption|congruence]].
  unfold readHead. erewrite bind_Ok by (apply orWrap_Ok; exact R1).
  unfold bind, bounded, ret. rewrite Q1. cbn [fst snd].
  rewrite app_nil_r. reflexivity.
Qed.

(** ** Extraction, branch by branch *)

Lemma content_NewReader : forall c, bufio.content (bufio.NewReader c) = stream c.
Proof. reflexivity. Qed.

Lemma ExtractResponse_extract :
  forall c headRequest out r' o,
    extract headRequest (bufio.NewReader c) = (out, r', o) ->
    ExtractResponse c headRequest = (out, o).
Proof. intros c hr out r' o H. unfold ExtractResponse. rewrite H. reflexivity. Qed.

(** With a HEAD request or a no-body status, extraction stops after the
    head and leaves the rest in the reader. *)
Lemma extract_no_body :
  forall r status hdrs blank rest contentLength chunked headRequest,
    head_ok status hdrs blank ->
    bufio.content r = head_wire status hdrs blank ++ rest ->
    scanHeaders None false (map fst hdrs) = Ok (contentLength, chunked) ->
    headRequest || hasNoBodyStatusCode (fst status) = true ->
    exists r',
      extract headRequest r = (head_wire status hdrs blank, r', Ok tt)
      /\ bufio.content r' = rest /\ bufio.fin r' = bufio.fin r.
Proof.
  intros r status hdrs blank rest cl ch hr (Hs & Hh & Hb) Hc Hscan Hnb.
  unfold head_wire in *. rewrite <- !app_assoc in Hc.
  destruct (readHead_ok r status hdrs blank rest cl ch Hs Hh Hb Hc Hscan)
    as (r' & R1 & R2 & R3).
  exists r'. split; [|auto].
  unfold extract. erewrite bind_Ok by exact R1. cbv beta iota zeta. rewrite Hnb.
  unfold ret. cbn [fst snd]. rewrite app_nil_r. reflexivity.
Qed.

(** With a body expected, no chunked encoding and a content length that
    is the length of [body], extraction yields the head and [body]. *)
Lemma extract_content_length :
  forall r status hdrs blank body rest n,
    head_ok status hdrs blank ->
    bufio.content r = head_wire status hdrs blank ++ body ++ rest ->
    scanHeaders None false (map fst hdrs) = Ok (Some n, false) ->
    hasNoBodyStatusCode (fst status) = false ->
    Z.of_nat (length body) = n ->
    exists r',
      extract false r = (head_wire status hdrs blank ++ body, r', Ok tt)
      /\ bufio.content r' = rest /\ bufio.fin r' = bufio.fin r.
Proof.
  intros r status hdrs blank body rest n (Hs & Hh & Hb) Hc Hscan Hnb Hn.
  unfold head_wire in *. rewrite <- !app_assoc in Hc.
  destruct (readHead_ok r status hdrs blank (body ++ rest) (Some n) false
              Hs Hh Hb Hc Hscan) as (r1 & R1 & R2 & R3).
  destruct (copyN_ok n r1 body rest R2 Hn) as (r' & Q1 & Q2 & Q3).
  exists r'. split; [|split; [assumption|congruence]].
  unfold extract. erewrite bind_Ok by exact R1. cbv beta iota zeta. rewrite Hnb.
  cbn [orb]. rewrite Q1. cbn [fst snd]. rewrite <- !app_assoc. reflexivity.
Qed.

(** With a body expected and neither framing header, everything up to the
    end of the stream is the body. *)
Lemma extract_until_close :
  forall r status hdrs blank body,
    head_ok status hdrs blank ->
    bufio.content r = head_wire status hdrs blank ++ body ->
    scanHeaders None false (map fst hdrs) = Ok (None, false) ->
    hasNoBodyStatusCode (fst status) = false ->
    exists r',
      extract false r
      = (head_wire status hdrs blank ++ body, r',
         if is_EOF (bufio.fin r) then Ok tt else Err (bufio.fin r)).
Proof.
  intros r status hdrs blank body (Hs & Hh & Hb) Hc Hscan Hnb.
  unfold head_wire in *. rewrite <- !app_assoc in Hc.
  destruct (readHead_ok r status hdrs blank body None false Hs Hh Hb Hc Hscan)
    as (r1 & R1 & R2 & R3).
  eexists. unfold extract. erewrite bind_Ok by exact R1. cbv beta iota zeta. rewrite Hnb.
  cbn [orb]. unfold ioCopy, bufio.WriteTo. rewrite R2, R3.
  destruct (is_EOF (bufio.fin r)); cbn [fst snd]; rewrite <- !app_assoc; reflexivity.
Qed.

(** ** The header scan *)

Lemma lowerASCII_colon :
  forall b, strings.lowerASCII b = ":"%byte -> b = ":"%byte.
Proof. intros b; destruct b; vm_compute; intros H; try discriminate H; auto. Qed.

Lemma ToLower_cons_inv :
  forall b s c t,
    strings.ToLower (b :: s) = c :: t ->
    (exists s', t = strings.ToLower s' /\ incl s' s)
    /\ (c = ":"%byte -> b = ":"%byte).
Proof.
  intros b s c t H.
  destruct s as [|b2 [|b3 s3]]; cbn [strings.ToLower] in H.
  - inversion H; subst. split.
    + exists []. split; [reflexivity|apply incl_refl].
    + apply lowerASCII_colon.
  - destruct (Byte.eqb b xc4 && Byte.eqb b2 xb0).
    + inversion H; subst. split; [|discriminate].
      exists []. split; [reflexivity|]. intros x [].
    + inversion H; subst. split; [|apply lowerASCII_colon].
      exists [b2]. split; [reflexivity|apply incl_refl].
  - destruct (Byte.eqb b xc4 && Byte.eqb b2 xb0).
    + inversion H; subst. split; [|discriminate].
      exists (b3 :: s3). split; [reflexivity|]. apply incl_tl, incl_refl.
    + destruct (Byte.eqb b xe2 && Byte.eqb b2 x84 && Byte.eqb b3 xaa).
      * inversion H; subst. split; [|discriminate].
        exists s3. split; [reflexivity|]. apply incl_tl, incl_tl, incl_refl.
      * inversion H; subst. split; [|apply lowerASCII_colon].
        exists (b2 :: b3 :: s3). split; [reflexivity|apply incl_refl].
Qed.

Lemma HasPrefix_ToLower_colon :
  forall p t,
    strings.HasPrefix (strings.ToLower t) p = true ->
    In ":"%byte p -> In ":"%byte t.
Proof.
  induction p as [|c p IH]; intros t H Hin; [destruct Hin|].
  destruct t as [|b s].
  - simpl in H. discriminate.
  - destruct (strings.ToLower (b :: s)) as [|c0 t0] eqn:E; [simpl in H; discriminate|].
    simpl in H. apply andb_true_iff in H. destruct H as [H1 H2].
    apply Byte.byte_dec_bl in H1. subst c0.
    destruct (ToLower_cons_inv _ _ _ _ E) as [(s' & E1 & E2) Hc].
    destruct Hin as [Hin|Hin].
    + left. apply Hc. exact Hin.
    + right. apply E2. apply IH; [rewrite <- E1; exact H2|exact Hin].
Qed.

Lemma SplitN2_In :
  forall d t, In d t -> exists a b, strings.SplitN2 t d = [a; b].
Proof.
  intros d t. induction t as [|c t IH]; intros H; [destruct H|].
  simpl. destruct (Byte.eqb c d) eqn:E.
  - eauto.
  - destruct H as [H|H].
    + subst. rewrite byte_eqb_refl in E. discriminate.
    + destruct (IH H) as (a & b & E2). rewrite E2. eauto.
Qed.

Lemma afterColon_In :
  forall t, In ":"%byte t -> afterColon t = Ok (headerValue t).
Proof.
  intros t H. unfold afterColon, headerValue.
  destruct (SplitN2_In _ _ H) as (a & b & E). rewrite E. reflexivity.
Qed.

Lemma afterColon_ContentLength :
  forall t, isContentLength t = true -> afterColon t = Ok (headerValue t).
Proof.
  intros t H. apply afterColon_In.
  apply (HasPrefix_ToLower_colon (B "content-length:")); [exact H|].
  vm_compute. tauto.
Qed.

Lemma afterColon_TransferEncoding :
  forall t, isTransferEncoding t = true -> afterColon t = Ok (headerValue t).
Proof.
  intros t H. apply afterColon_In.
  apply (HasPrefix_ToLower_colon (B "transfer-encoding:")); [exact H|].
  vm_compute. tauto.
Qed.

(** The [Transfer-Encoding] branch never fails. *)
Lemma transferEncodingHeader_value :
  forall chunked t,
    transferEncodingHeader chunked t
    = Ok (if isTransferEncoding t
          then bytes_eqb (lastToken (headerValue t)) (B "chunked")
          else chunked).
Proof.
  intros chunked t. unfold transferEncodingHeader.
  destruct (isTransferEncoding t) eqn:E; [|reflexivity].
  rewrite afterColon_TransferEncoding by exact E. reflexivity.
Qed.

(** The [Content-Length] branch: the three cases. *)
Lemma contentLengthHeader_other :
  forall contentLength t,
    isContentLength t = false -> contentLengthHeader contentLength t = Ok contentLength.
Proof. intros cl t H. unfold contentLengthHeader. rewrite H. reflexivity. Qed.

Lemma contentLengthHeader_first :
  forall t,
    isContentLength t = true ->
    contentLengthHeader None t
    = match strconv.ParseInt (strings.TrimSpace (headerValue t)) 10 with
      | inl i => Ok (Some i)
      | inr err => Err (Errorw "invalid Content-Length in '%s': %w" [t] err)
      end.
Proof.
  intros t H. unfold contentLengthHeader. rewrite H.
  rewrite afterColon_ContentLength by exact H. reflexivity.
Qed.

Lemma contentLengthHeader_again :
  forall n t,
    isContentLength t = true ->
    contentLengthHeader (Some n) t
    = Err (Errorf "multiple Content-Length headers found" []).
Proof. intros n t H. unfold contentLengthHeader. rewrite H. reflexivity. Qed.

Lemma find_app_bytes :
  forall (f : bytes -> bool) a b,
    find f (a ++ b) = match find f a with Some x => Some x | None => find f b end.
Proof.
  intros f a b. induction a as [|x a IH]; simpl; auto.
  destruct (f x); auto.
Qed.

(** What the scan leaves in [chunked]: the verdict on the last
    [Transfer-Encoding] header, or the value it started with. *)
Lemma scanHeaders_chunked :
  forall texts contentLength0 chunked0 contentLength chunked,
    scanHeaders contentLength0 chunked0 texts = Ok (contentLength, chunked) ->
    chunked = match lastTransferEncoding texts with
              | Some t => bytes_eqb (lastToken (headerValue t)) (B "chunked")
              | None => chunked0
              end.
Proof.
  induction texts as [|t texts IH]; intros cl0 ch0 cl ch H.
  - simpl in H. inversion H. reflexivity.
  - cbn [scanHeaders] in H.
    destruct (contentLengthHeader cl0 t) as [cl1| | |]; try discriminate.
    rewrite transferEncodingHeader_value in H.
    apply IH in H. rewrite H. unfold lastTransferEncoding.
    cbn [rev]. rewrite find_app_bytes.
    destruct (find isTransferEncoding (rev texts)); [reflexivity|].
    simpl. destruct (isTransferEncoding t); reflexivity.
Qed.

Lemma scanHeaders_no_content_length :
  forall texts contentLength chunked,
    Forall (fun t => isContentLength t = false) texts ->
    exists chunked',
      scanHeaders contentLength chunked texts = Ok (contentLength, chunked').
Proof.
  induction texts as [|t texts IH]; intros cl ch H.
  - exists ch. reflexivity.
  - inversion H; subst. cbn [scanHeaders].
    rewrite contentLengthHeader_other, transferEncodingHeader_value by assumption.
    apply IH. assumption.
Qed.

Lemma scanHeaders_single_content_length :
  forall before t after n,
    Forall (fun t => isContentLength t = false) before ->
    Forall (fun t => isContentLength t = false) after ->
    isContentLength t = true ->
    strconv.ParseInt (strings.TrimSpace (headerValue t)) 10 = inl n ->
    exists chunked,
      scanHeaders None false (before ++ t :: after) = Ok (Some n, chunked).
Proof.
  intros before t after n Hb Ha Ht Hp.
  assert (G : forall ch, exists chunked,
             scanHeaders None ch (before ++ t :: after) = Ok (Some n, chunked)).
  { induction Hb as [|t0 before Ht0 Hb IH]; intros ch.
    - cbn [app scanHeaders].
      rewrite contentLengthHeader_first, Hp, transferEncodingHeader_value by assumption.
      apply scanHeaders_no_content_length. assumption.
    - cbn [app scanHeaders].
      rewrite contentLengthHeader_other, transferEncodingHeader_value by assumption.
      apply IH. }
  apply G.
Qed.

Lemma lastTransferEncoding_In :
  forall texts t,
    lastTransferEncoding texts = Some t -> In t texts /\ isTransferEncoding t = true.
Proof.
  intros texts t H. unfold lastTransferEncoding in H.
  apply find_some in H. destruct H as [H1 H2]. split; [|exact H2].
  apply in_rev. exact H1.
Qed.

(** ** The status line *)

Lemma hasNoBodyStatusCode_iff :
  forall t, hasNoBodyStatusCode t = true <-> noBodyStatus t.
Proof.
  intros t. unfold hasNoBodyStatusCode, noBodyStatus. split.
  - destruct (strings.Fields t) as [|f0 [|f1 fs]]; try discriminate.
    destruct (strconv.Atoi f1) as [code|e] eqn:E; try discriminate.
    intros H. exists f0, f1, fs, code. repeat split; auto. lia.
  - intros (f0 & f1 & fs & code & E1 & E2 & H). rewrite E1, E2. lia.
Qed.

Lemma malformedStatus_has_body :
  forall t, malformedStatus t -> hasNoBodyStatusCode t = false.
Proof.
  intros t H. unfold hasNoBodyStatusCode.
  destruct (strings.Fields t) as [|f0 [|f1 fs]] eqn:E1; try reflexivity.
  destruct (strconv.Atoi f1) as [code|e] eqn:E2; try reflexivity.
  exfalso. apply H. exists f0, f1, fs, code. auto.
Qed.

(** Tactics for the shape of concrete streams. *)
Ltac solve_text := split; [vm_compute; intuition discriminate | vm_compute; discriminate].
Ltac solve_line := split; [solve_text | first [left; reflexivity | right; reflexivity]].
Ltac solve_header := split; [solve_line | vm_compute; discriminate].
Ltac solve_head :=
  split; [solve_line | split; [repeat (constructor; [solve_header|]); constructor
                              | first [left; reflexivity | right; reflexivity]]].

(** ** C3: HEAD requests and no-body status codes *)

(** C3 as stated fails: a HEAD request answered with two Content-Length
    headers.  The stream has a blank line that terminates its headers, but
    the output ends at the second Content-Length line, with an error. *)
Lemma head_request_duplicate_length_stops_early :
  response_duplicate_length
  = head_wire (crlf (B "HTTP/1.1 200 OK"))
      [crlf (B "Content-Length: 1"); crlf (B "Content-Length: 1")] CRLF
  /\ head_ok (crlf (B "HTTP/1.1 200 OK"))
       [crlf (B "Content-Length: 1"); crlf (B "Content-Length: 1")] CRLF
  /\ ExtractResponse (NewStringReader response_duplicate_length) true
     = (B "HTTP/1.1 200 OK" ++ CRLF ++ B "Content-Length: 1" ++ CRLF
        ++ B "Content-Length: 1" ++ CRLF,
        Err (Errorf "multiple Content-Length headers found" []))
  /\ fst (ExtractResponse (NewStringReader response_duplicate_length) true)
     <> response_duplicate_length.
Proof.
  split; [reflexivity|]. split; [solve_head|].
  split; [vm_compute; reflexivity|vm_compute; discriminate].
Qed.

(** C3, amended.  For every stream that starts with a head whose scan
    raises no error, if the request was a HEAD request or the status line
    carries a no-body status code, the output is exactly the head, up to
    the blank line, the error is nil, and every byte after the blank line
    is still in the reader: none was consumed or emitted, whatever
    Content-Length and Transfer-Encoding the headers hold. *)
Theorem no_body_stops_at_blank_line :
  forall c status hdrs blank rest contentLength chunked headRequest,
    head_ok status hdrs blank ->
    stream c = head_wire status hdrs blank ++ rest ->
    scanHeaders None false (map fst hdrs) = Ok (contentLength, chunked) ->
    headRequest = true \/ noBodyStatus (fst status) ->
    ExtractResponse c headRequest = (head_wire status hdrs blank, Ok tt)
    /\ exists r',
         extract headRequest (bufio.NewReader c)
         = (head_wire status hdrs blank, r', Ok tt)
         /\ bufio.content r' = rest.
Proof.
  intros c status hdrs blank rest cl ch hr Hh Hc Hscan Hnb.
  destruct (extract_no_body (bufio.NewReader c) status hdrs blank rest cl ch hr Hh)
    as (r' & R1 & R2 & _); auto.
  { destruct Hnb as [Hnb|Hnb].
    - subst hr. reflexivity.
    - apply hasNoBodyStatusCode_iff in Hnb. rewrite Hnb. apply orb_true_r. }
  split; [eapply ExtractResponse_extract; exact R1|].
  exists r'. auto.
Qed.

Lemma no_body_stops_at_blank_line_witness :
  ExtractResponse (NewStringReader response_200_length_10) true
  = (head_200_length_10, Ok tt).
Proof.
  apply (no_body_stops_at_blank_line (NewStringReader response_200_length_10)
           (crlf (B "HTTP/1.1 200 OK")) [crlf (B "Content-Length: 10")] CRLF
           (B "All good." ++ [LF]) (Some 10) false true).
  - solve_head.
  - reflexivity.
  - reflexivity.
  - left. reflexivity.
Defined.

(** ** C1: Content-Length framing *)

(** C1 as stated fails: a 304 response with a single Content-Length: 5
    header and no Transfer-Encoding, followed by five bytes.  With
    [headRequest = false] the output is the head alone. *)
Lemma not_modified_with_length_has_no_body :
  response_304_length_5
  = head_wire (crlf (B "HTTP/1.1 304 Not Modified")) [crlf (B "Content-Length: 5")] CRLF
    ++ B "hello"
  /\ ExtractResponse (NewStringReader response_304_length_5) false
     = (head_304_length_5, Ok tt)
  /\ fst (ExtractResponse (NewStringReader response_304_length_5) false)
     <> head_304_length_5 ++ B "hello".
Proof.
  split; [reflexivity|].
  split; [vm_compute; reflexivity|vm_compute; discriminate].
Qed.

Lemma notChunked_flag :
  forall t, notChunked t ->
    isTransferEncoding t = true ->
    bytes_eqb (lastToken (headerValue t)) (B "chunked") = false.
Proof.
  intros t H Ht. destruct (bytes_eqb _ _) eqn:E; auto.
  apply bytes_eqb_eq in E. exfalso. apply (H Ht E).
Qed.

Lemma scanHeaders_not_chunked :
  forall texts contentLength0 contentLength chunked,
    Forall notChunked texts ->
    scanHeaders contentLength0 false texts = Ok (contentLength, chunked) ->
    chunked = false.
Proof.
  intros texts cl0 cl ch Hn H. apply scanHeaders_chunked in H. rewrite H.
  destruct (lastTransferEncoding texts) as [t|] eqn:E; [|reflexivity].
  apply lastTransferEncoding_In in E. destruct E as [E1 E2].
  apply notChunked_flag; [|exact E2].
  rewrite Forall_forall in Hn. apply Hn. exact E1.
Qed.

(** C1, amended.  For every stream that starts with a well-formed head
    whose status line carries no no-body status code and whose headers hold
    a single Content-Length header, with value [L], and no chunked
    Transfer-Encoding, followed by [L] body bytes and any further bytes,
    [ExtractResponse] with [headRequest = false] returns exactly the head and
    the [L] body bytes, with a nil error; the further bytes are not in the
    output. *)
Theorem content_length_frames_body :
  forall c status before clh after blank body rest L,
    head_ok status (before ++ clh :: after) blank ->
    ~ noBodyStatus (fst status) ->
    Forall (fun h => isContentLength (fst h) = false) (before ++ after) ->
    isContentLength (fst clh) = true ->
    strconv.ParseInt (strings.TrimSpace (headerValue (fst clh))) 10 = inl L ->
    Forall (fun h => notChunked (fst h)) (before ++ clh :: after) ->
    Z.of_nat (length body) = L ->
    stream c = head_wire status (before ++ clh :: after) blank ++ body ++ rest ->
    ExtractResponse c false
    = (head_wire status (before ++ clh :: after) blank ++ body, Ok tt).
Proof.
  intros c status before clh after blank body rest L Hh Hnb Hcl Hclh Hp Hte Hlen Hc.
  apply Forall_app in Hcl. destruct Hcl as [Hb Ha].
  destruct (scanHeaders_single_content_length (map fst before) (fst clh)
              (map fst after) L) as (ch & Hscan); auto.
  { apply Forall_map. exact Hb. }
  { apply Forall_map. exact Ha. }
  change (map fst before ++ fst clh :: map fst after)
    with (map fst before ++ map fst (clh :: after)) in Hscan.
  rewrite <- map_app in Hscan.
  assert (ch = false).
  { eapply scanHeaders_not_chunked; [|exact Hscan]. apply Forall_map. exact Hte. }
  subst ch.
  destruct (extract_content_length (bufio.NewReader c) status (before ++ clh :: after)
              blank body rest L Hh Hc Hscan) as (r' & R1 & _); auto.
  { destruct (hasNoBodyStatusCode (fst status)) eqn:E; auto.
    apply hasNoBodyStatusCode_iff in E. contradiction. }
  eapply ExtractResponse_extract. exact R1.
Qed.

Ltac solve_not_chunked :=
  repeat (constructor; [intros H; vm_compute in H; discriminate H|]); constructor.

Lemma content_length_frames_body_witness :
  ExtractResponse (NewStringReader (head_404 ++ body_404 ++ B " foo")) false
  = (head_404 ++ body_404, Ok tt).
Proof.
  apply (content_length_frames_body
           (NewStringReader (head_404 ++ body_404 ++ B " foo"))
           (crlf (B "HTTP/1.1 404 Not Found"))
           [crlf (B "Content-Type: text/plain; charset=utf-8")]
           (crlf (B "Content-Length: 19")) [] CRLF body_404 (B " foo") 19).
  - solve_head.
  - intros (f0 & f1 & fs & code & E1 & E2 & H).
    vm_compute in E1. inversion E1; subst. vm_compute in E2. inversion E2; subst. lia.
  - repeat constructor.
  - reflexivity.
  - reflexivity.
  - solve_not_chunked.
  - reflexivity.
  - reflexivity.
Defined.

(** ** C4: a malformed status line *)

(** C4 as stated fails: the first line "garbage" is no status line, yet
    the whole stream is returned with a nil error. *)
Lemma malformed_status_line_is_accepted :
  malformedStatus (B "garbage")
  /\ response_garbage
     = head_wire (crlf (B "garbage")) [crlf (B "Content-Type: text/plain")] CRLF
       ++ B "abc"
  /\ ExtractResponse (NewStringReader response_garbage) false
     = (response_garbage, Ok tt).
Proof.
  split; [|split; [reflexivity|vm_compute; reflexivity]].
  intros (f0 & f1 & fs & code & E1 & E2). vm_compute in E1. discriminate E1.
Qed.

(** The extraction is the reading of the status line followed by
    [afterStatusLine] for the flag that the line gives. *)
Lemma extract_after_status :
  forall headRequest r,
    extract headRequest r
    = bind (orWrap readAndCopyLine (Errorw "could not read status line: %w" []))
        (fun line => afterStatusLine (hasNoBodyStatusCode line) headRequest) r.
Proof.
  intros hr r0. unfold extract, readHead, afterStatusLine, bind.
  destruct (orWrap readAndCopyLine _ r0) as [[w1 r1] [line|e|msg|]]; try reflexivity.
  destruct (bounded _ r1) as [[w2 r2] [[cl ch]|e|msg|]]; cbn [ret fst snd];
    try reflexivity.
  rewrite app_nil_r.
  destruct (hr || hasNoBodyStatusCode line).
  { unfold ret. rewrite !app_nil_r. reflexivity. }
  destruct ch; [|destruct cl as [n|]].
  - destruct (readChunkedBody r2) as [[w3 r3] o3]. rewrite app_assoc. reflexivity.
  - destruct (copyN n r2) as [[w3 r3] o3]. rewrite app_assoc. reflexivity.
  - destruct (ioCopy r2) as [[w3 r3] o3]. rewrite app_assoc. reflexivity.
Qed.

(** C4, amended.  A malformed status line is no failure condition.  For
    every stream whose first line is a malformed status line, however the
    connection cuts it into reads and whatever follows, and for either
    value of [headRequest]: the line is copied as it is, no error is raised
    for it, and the extraction goes on as after a status line that expects
    a body.  The output is the line followed by the output of the rest of
    the extraction, run with [noBody = false] on a reader that holds the
    rest of the stream, and the outcome is that of the rest of the
    extraction.  In particular, with [headRequest = false], when a
    well-formed header block without Content-Length and without chunked
    Transfer-Encoding follows and the peer then closes the connection,
    [ExtractResponse] returns the whole stream with a nil error. *)
Theorem malformed_status_line_is_no_error :
  forall c status rest headRequest,
    line_ok status ->
    malformedStatus (fst status) ->
    stream c = wire status ++ rest ->
    (exists r1,
        bufio.content r1 = rest /\ bufio.fin r1 = conn_err c
        /\ ExtractResponse c headRequest
           = (wire status ++ fst (fst (afterStatusLine false headRequest r1)),
              snd (afterStatusLine false headRequest r1)))
    /\ (forall hdrs blank body,
          rest = wires hdrs ++ blank ++ body ->
          Forall header_ok hdrs -> is_eol blank ->
          Forall (fun h => isContentLength (fst h) = false) hdrs ->
          Forall (fun h => notChunked (fst h)) hdrs ->
          conn_err c = EOF ->
          ExtractResponse c false = (stream c, Ok tt)).
Proof.
  intros c status rest hr Hs Hm Hc. split.
  - rewrite <- content_NewReader in Hc.
    destruct (readAndCopyLine_wire _ status rest Hs Hc) as (r1 & R1 & R2 & R3).
    exists r1. split; [exact R2|]. split; [exact R3|].
    unfold ExtractResponse. rewrite extract_after_status.
    erewrite bind_Ok by (apply orWrap_Ok; exact R1).
    rewrite (malformedStatus_has_body _ Hm). reflexivity.
  - intros hdrs blank body -> Hh Hb Hcl Hte He.
    destruct (scanHeaders_no_content_length (map fst hdrs) None false) as (ch & Hscan).
    { apply Forall_map. exact Hcl. }
    assert (ch = false).
    { eapply scanHeaders_not_chunked; [|exact Hscan]. apply Forall_map. exact Hte. }
    subst ch.
    assert (Hc' : stream c = head_wire status hdrs blank ++ body).
    { rewrite Hc. unfold head_wire. rewrite <- !app_assoc. reflexivity. }
    destruct (extract_until_close (bufio.NewReader c) status hdrs blank body
                (conj Hs (conj Hh Hb)) Hc' Hscan) as (r' & R1).
    { apply malformedStatus_has_body. exact Hm. }
    change (bufio.fin (bufio.NewReader c)) with (conn_err c) in R1.
    rewrite He in R1. cbn [is_EOF] in R1. rewrite <- Hc' in R1.
    eapply ExtractResponse_extract. exact R1.
Qed.

Lemma malformed_status_line_is_no_error_witness :
  ExtractResponse (NewStringReader response_garbage) false
  = (stream (NewStringReader response_garbage), Ok tt).
Proof.
  apply (proj2 (malformed_status_line_is_no_error (NewStringReader response_garbage)
                  (crlf (B "garbage"))
                  (B "Content-Type: text/plain" ++ CRLF ++ CRLF ++ B "abc") false
                  ltac:(solve_line)
                  ltac:(intros (f0 & f1 & fs & code & E1 & E2);
                        vm_compute in E1; discriminate E1)
                  eq_refl)
           [crlf (B "Content-Type: text/plain")] CRLF (B "abc")).
  - reflexivity.
  - repeat (constructor; [solve_header|]); constructor.
  - left. reflexivity.
  - repeat constructor.
  - solve_not_chunked.
  - reflexivity.
Defined.

(** ** C6: the chunked classification *)

(** C6, at the failing input.  The value "Chunked" equals "chunked"
    case-insensitively, so that the response is chunked in the words of the
    specification; yet the scan, which compares the token as it stands in
    the header line, leaves [chunked] false.  The response is then copied
    up to the end of the stream, past its last chunk and into the bytes
    that follow it, with a nil error, where the same response with the
    value "chunked" ends after its last chunk. *)
Theorem capital_Chunked_is_not_chunked :
  chunkedInsensitive [B "Transfer-Encoding: Chunked"] = true
  /\ scanHeaders None false [B "Transfer-Encoding: Chunked"] = Ok (None, false)
  /\ scanHeaders None false [B "Transfer-Encoding: chunked"] = Ok (None, true)
  /\ ExtractResponse (NewStringReader response_Chunked_capital) false
     = (response_Chunked_capital, Ok tt)
  /\ ExtractResponse
       (NewStringReader
          (head_chunked ++ B "3" ++ CRLF ++ B "abc" ++ CRLF ++ B "0" ++ CRLF ++ CRLF
           ++ B "next")) false
     = (head_chunked ++ B "3" ++ CRLF ++ B "abc" ++ CRLF ++ B "0" ++ CRLF ++ CRLF,
        Ok tt).
Proof. repeat split; vm_compute; reflexivity. Qed.

(** What the scan does compute.  When the header scan raises no error,
    [chunked] is true if and only if the header block has a
    Transfer-Encoding header (the name in any case) and the last
    comma-separated, whitespace-trimmed token of the value of the last such
    header is exactly "chunked", in lower case. *)
Lemma chunked_iff_last_token_exact :
  forall texts contentLength chunked,
    scanHeaders None false texts = Ok (contentLength, chunked) ->
    (chunked = true <->
       exists t,
         lastTransferEncoding texts = Some t
         /\ lastToken (headerValue t) = B "chunked").
Proof.
  intros texts cl ch H. apply scanHeaders_chunked in H. rewrite H.
  destruct (lastTransferEncoding texts) as [t|]; split.
  - intros E. exists t. split; [reflexivity|]. apply bytes_eqb_eq. exact E.
  - intros (t' & E1 & E2). inversion E1; subst t'. apply bytes_eqb_eq. exact E2.
  - discriminate.
  - intros (t' & E1 & _). discriminate.
Qed.

Lemma chunked_iff_last_token_exact_witness :
  (true = true <->
     exists t,
       lastTransferEncoding [B "Content-Type: text/plain";
                             B "TRANSFER-ENCODING: gzip , chunked "] = Some t
       /\ lastToken (headerValue t) = B "chunked").
Proof.
  apply (chunked_iff_last_token_exact
           [B "Content-Type: text/plain"; B "TRANSFER-ENCODING: gzip , chunked "]
           None true).
  reflexivity.
Defined.

(** ** The chunked body *)

Lemma wrap64_small :
  forall z, - 2 ^ 63 <= z < 2 ^ 63 -> wrap64 z = z.
Proof.
  intros z H. unfold wrap64. rewrite Z.mod_small; lia.
Qed.

Lemma chunks_length :
  forall cs, Forall chunk_ok cs -> (length cs <= length (chunks_wire cs))%nat.
Proof.
  induction 1 as [|c cs [Hl _] _ IH]; simpl; auto.
  unfold chunks_wire in *. cbn [map concat]. unfold chunk_wire at 1.
  rewrite !length_app.
  destruct (wire_split _ Hl) as (l' & E & _). rewrite E, length_app. simpl. lia.
Qed.

Lemma readChunks_ok :
  forall chunks fuel r last rest,
    Forall chunk_ok chunks -> last_chunk_ok last ->
    bufio.content r = chunks_wire chunks ++ wire last ++ rest ->
    (length chunks < fuel)%nat ->
    exists r',
      readChunks fuel r = (chunks_wire chunks ++ wire last, r', Ok tt)
      /\ bufio.content r' = rest /\ bufio.fin r' = bufio.fin r.
Proof.
  induction chunks as [|c chunks IH]; intros fuel r last rest Hok Hlast Hc Hf;
    (destruct fuel as [|fuel]; [simpl in Hf; lia|]).
  - destruct Hlast as [Hl Hp]. simpl in Hc.
    destruct (readAndCopyLine_wire r last rest Hl Hc) as (r' & R1 & R2 & R3).
    exists r'. split; [|auto].
    cbn [readChunks]. erewrite bind_Ok by exact R1.
    fold (sizeToken (fst last)). rewrite Hp. cbn. rewrite app_nil_r. reflexivity.
  - inversion Hok as [|c0 cs0 Hcok Hrest]; subst.
    destruct Hcok as (Hl & sz & Hp & Hpos & Hmax & Hlen).
    unfold chunks_wire in Hc. cbn [map concat] in Hc. unfold chunk_wire at 1 in Hc.
    rewrite <- !app_assoc in Hc.
    destruct (readAndCopyLine_wire r (size_line c) _ Hl Hc) as (r1 & R1 & R2 & R3).
    assert (Hw : wrap64 (sz + 2) = sz + 2) by (apply wrap64_small; lia).
    destruct (copyN_ok (sz + 2) r1 (chunk_data c) _ R2 Hlen) as (r2 & C1 & C2 & C3).
    destruct (IH fuel r2 last rest Hrest Hlast C2) as (r' & Q1 & Q2 & Q3).
    { simpl in Hf. lia. }
    exists r'. split; [|split; [assumption|congruence]].
    cbn [readChunks]. erewrite bind_Ok by exact R1.
    fold (sizeToken (fst (size_line c))). rewrite Hp.
    replace (sz =? 0) with false by (symmetry; apply Z.eqb_neq; lia).
    rewrite Hw. erewrite bind_Ok by (apply orWrap_Ok; exact C1).
    rewrite Q1. cbn [fst snd]. unfold chunks_wire. cbn [map concat].
    unfold chunk_wire. rewrite <- !app_assoc. reflexivity.
Qed.

Lemma readTrailers_ok :
  forall trailers fuel r blank rest,
    Forall header_ok trailers -> is_eol blank ->
    bufio.content r = wires trailers ++ blank ++ rest ->
    (length trailers < fuel)%nat ->
    exists r',
      readTrailers fuel r = (wires trailers ++ blank, r', Ok tt)
      /\ bufio.content r' = rest /\ bufio.fin r' = bufio.fin r.
Proof.
  induction trailers as [|t trailers IH]; intros fuel r blank rest Hok Hb Hc Hf;
    (destruct fuel as [|fuel]; [simpl in Hf; lia|]).
  - simpl in Hc.
    assert (Hl : line_ok ([], blank)).
    { split; [split; [intros []|discriminate]|exact Hb]. }
    destruct (readAndCopyLine_wire r ([], blank) rest Hl Hc) as (r' & R1 & R2 & R3).
    exists r'. split; [|auto].
    cbn [readTrailers]. erewrite bind_Ok by exact R1.
    cbn. rewrite app_nil_r. reflexivity.
  - inversion Hok as [|t0 ts0 [Hl Hne] Hrest]; subst.
    unfold wires in Hc. cbn [map concat] in Hc. rewrite <- app_assoc in Hc.
    destruct (readAndCopyLine_wire r t _ Hl Hc) as (r1 & R1 & R2 & R3).
    destruct (IH fuel r1 blank rest Hrest Hb R2) as (r' & Q1 & Q2 & Q3).
    { simpl in Hf. lia. }
    exists r'. split; [|split; [assumption|congruence]].
    cbn [readTrailers]. erewrite bind_Ok by exact R1.
    rewrite (bytes_eqb_nil _ Hne), Q1.
    cbn [fst snd]. unfold wires. cbn [map concat]. rewrite <- app_assoc. reflexivity.
Qed.

Lemma readChunkedBody_ok :
  forall r chunks last trailers blank rest,
    Forall chunk_ok chunks -> last_chunk_ok last ->
    Forall header_ok trailers -> is_eol blank ->
    bufio.content r
    = chunks_wire chunks ++ wire last ++ wires trailers ++ blank ++ rest ->
    exists r',
      readChunkedBody r
      = (chunks_wire chunks ++ wire last ++ wires trailers ++ blank, r', Ok tt)
      /\ bufio.content r' = rest /\ bufio.fin r' = bufio.fin r.
Proof.
  intros r chunks last trailers blank rest Hcs Hlast Hts Hb Hc.
  destruct (readChunks_ok chunks (S (length (bufio.content r))) r last _ Hcs Hlast Hc)
    as (r1 & R1 & R2 & R3).
  { rewrite Hc, length_app. pose proof (chunks_length chunks Hcs). lia. }
  destruct (readTrailers_ok trailers (S (length (bufio.content r1))) r1 blank rest
              Hts Hb R2) as (r' & Q1 & Q2 & Q3).
  { rewrite R2, length_app.
    assert (length trailers <= length (wires trailers))%nat.
    { apply wires_length. eapply Forall_impl; [|exact Hts]. intros a [Ha _]. exact Ha. }
    lia. }
  exists r'. split; [|split; [assumption|congruence]].
  unfold readChunkedBody. unfold bind, bounded. rewrite R1, Q1.
  rewrite <- !app_assoc. reflexivity.
Qed.

Lemma extract_chunked :
  forall r status hdrs blank chunks last trailers blank2 rest contentLength,
    head_ok status hdrs blank ->
    hasNoBodyStatusCode (fst status) = false ->
    scanHeaders None false (map fst hdrs) = Ok (contentLength, true) ->
    Forall chunk_ok chunks -> last_chunk_ok last ->
    Forall header_ok trailers -> is_eol blank2 ->
    bufio.content r
    = head_wire status hdrs blank
      ++ chunks_wire chunks ++ wire last ++ wires trailers ++ blank2 ++ rest ->
    exists r',
      extract false r
      = (head_wire status hdrs blank
         ++ chunks_wire chunks ++ wire last ++ wires trailers ++ blank2, r', Ok tt)
      /\ bufio.content r' = rest /\ bufio.fin r' = bufio.fin r.
Proof.
  intros r status hdrs blank chunks last trailers blank2 rest cl
         (Hs & Hh & Hb) Hnb Hscan Hcs Hlast Hts Hb2 Hc.
  unfold head_wire in *. rewrite <- !app_assoc in Hc.
  destruct (readHead_ok r status hdrs blank _ cl true Hs Hh Hb Hc Hscan)
    as (r1 & R1 & R2 & R3).
  destruct (readChunkedBody_ok r1 chunks last trailers blank2 rest Hcs Hlast Hts Hb2 R2)
    as (r' & Q1 & Q2 & Q3).
  exists r'. split; [|split; [assumption|congruence]].
  unfold extract. erewrite bind_Ok by exact R1. cbv beta iota zeta. rewrite Hnb.
  cbn [orb]. rewrite Q1. cbn [fst snd]. rewrite <- !app_assoc. reflexivity.
Qed.

(** ** C2: chunked framing *)

(** C2 as stated fails: a response classified as chunked, requested with
    HEAD.  The output is the head alone; no chunk is reproduced. *)
Lemma head_request_ignores_chunks :
  head_chunked_length_1 ++ body_chunked
  = head_wire (crlf (B "HTTP/1.1 200 OK"))
      [crlf (B "Content-Length: 1"); crlf (B "Transfer-Encoding: chunked")] CRLF
    ++ body_chunked
  /\ scanHeaders None false [B "Content-Length: 1"; B "Transfer-Encoding: chunked"]
     = Ok (Some 1, true)
  /\ ExtractResponse (NewStringReader (head_chunked_length_1 ++ body_chunked)) true
     = (head_chunked_length_1, Ok tt)
  /\ fst (ExtractResponse (NewStringReader (head_chunked_length_1 ++ body_chunked)) true)
     <> head_chunked_length_1 ++ body_chunked.
Proof.
  split; [reflexivity|]. split; [vm_compute; reflexivity|].
  split; [vm_compute; reflexivity|vm_compute; discriminate].
Qed.

(** C2, amended.  For every stream whose head is scanned without error and
    classified as chunked, when the request was not a HEAD request and the
    status line carries no no-body status code, [ExtractResponse] reproduces
    the entire chunk framing verbatim: each chunk-size line, each chunk
    payload with its 2-byte terminator, the zero-size chunk and the trailer
    lines up to and including the blank line; it stops there, with a nil
    error.  This holds for every Content-Length value [contentLength] that
    the scan may have found: the value is not used and not compared with
    the chunks. *)
Theorem chunked_framing_reproduced :
  forall c status hdrs blank chunks last trailers blank2 rest contentLength,
    head_ok status hdrs blank ->
    ~ noBodyStatus (fst status) ->
    scanHeaders None false (map fst hdrs) = Ok (contentLength, true) ->
    Forall chunk_ok chunks -> last_chunk_ok last ->
    Forall header_ok trailers -> is_eol blank2 ->
    stream c
    = head_wire status hdrs blank
      ++ chunks_wire chunks ++ wire last ++ wires trailers ++ blank2 ++ rest ->
    ExtractResponse c false
    = (head_wire status hdrs blank
       ++ chunks_wire chunks ++ wire last ++ wires trailers ++ blank2, Ok tt).
Proof.
  intros c status hdrs blank chunks last trailers blank2 rest cl
         Hh Hnb Hscan Hcs Hlast Hts Hb2 Hc.
  destruct (extract_chunked (bufio.NewReader c) status hdrs blank chunks last trailers
              blank2 rest cl Hh) as (r' & R1 & _); auto.
  { destruct (hasNoBodyStatusCode (fst status)) eqn:E; auto.
    apply hasNoBodyStatusCode_iff in E. contradiction. }
  eapply ExtractResponse_extract. exact R1.
Qed.

Lemma chunked_framing_reproduced_witness :
  ExtractResponse
    (NewStringReader (head_chunked_length_1 ++ body_chunked ++ B "foo")) false
  = (head_chunked_length_1 ++ body_chunked, Ok tt).
Proof.
  apply (chunked_framing_reproduced
           (NewStringReader (head_chunked_length_1 ++ body_chunked ++ B "foo"))
           (crlf (B "HTTP/1.1 200 OK"))
           [crlf (B "Content-Length: 1"); crlf (B "Transfer-Encoding: chunked")] CRLF
           [mkChunk (crlf (B "a")) (B "All good." ++ [LF] ++ CRLF)]
           (crlf (B "0")) [crlf (B "Trailer: foo")] CRLF (B "foo") (Some 1)).
  - solve_head.
  - intros (f0 & f1 & fs & code & E1 & E2 & H).
    vm_compute in E1. inversion E1; subst. vm_compute in E2. inversion E2; subst. lia.
  - reflexivity.
  - constructor; [|constructor]. split; [solve_line|].
    exists 10. repeat split; try reflexivity.
  - split; [solve_line|reflexivity].
  - constructor; [solve_header|constructor].
  - left. reflexivity.
  - reflexivity.
Defined.

(** ** C5: the Content-Length header *)

(** C5, at the failing input.  The value "-5" is no non-negative integer,
    yet the header scan accepts it and stores -5; a HEAD request then ends
    without any error, and a request that expects a body ends in the
    run-time panic of [make([]byte, n)] in [copyN], not in an error. *)
Theorem negative_content_length_is_not_rejected :
  validLength (strings.TrimSpace (headerValue (B "Content-Length: -5"))) = false
  /\ contentLengthHeader None (B "Content-Length: -5") = Ok (Some (-5))
  /\ ExtractResponse (NewStringReader (head_negative_length ++ B "hello")) true
     = (head_negative_length, Ok tt)
  /\ ExtractResponse (NewStringReader (head_negative_length ++ B "hello")) false
     = (head_negative_length, Panic "makeslice: len out of range").
Proof. repeat split; vm_compute; reflexivity. Qed.

(** The two failures that the scan does report. *)
Lemma duplicate_content_length_is_error :
  forall n t,
    isContentLength t = true ->
    contentLengthHeader (Some n) t
    = Err (Errorf "multiple Content-Length headers found" []).
Proof. exact contentLengthHeader_again. Qed.

Lemma unparsable_content_length_is_error :
  forall t err,
    isContentLength t = true ->
    strconv.ParseInt (strings.TrimSpace (headerValue t)) 10 = inr err ->
    contentLengthHeader None t
    = Err (Errorw "invalid Content-Length in '%s': %w" [t] err).
Proof.
  intros t err H Hp. rewrite contentLengthHeader_first by exact H.
  rewrite Hp. reflexivity.
Qed.

(** ** C7: malformed chunk sizes *)

(** C7, at the failing inputs.  The tokens "-a" and "-2" are no
    hexadecimal sizes, yet [strconv.ParseInt] accepts them: after "-a" the
    extractor panics in [copyN], and "-2", for which [chunkSize+2] is 0, is
    passed over as if it were an empty chunk, so that extraction ends with a
    nil error. *)
Theorem signed_chunk_size_is_not_rejected :
  validHexSize (sizeToken (B "-a")) = false
  /\ validHexSize (sizeToken (B "-2")) = false
  /\ ExtractResponse
       (NewStringReader (head_chunked ++ B "-a" ++ CRLF ++ B "0" ++ CRLF ++ CRLF)) false
     = (head_chunked ++ B "-a" ++ CRLF, Panic "makeslice: len out of range")
  /\ ExtractResponse
       (NewStringReader (head_chunked ++ B "-2" ++ CRLF ++ B "0" ++ CRLF ++ CRLF)) false
     = (head_chunked ++ B "-2" ++ CRLF ++ B "0" ++ CRLF ++ CRLF, Ok tt).
Proof. repeat split; vm_compute; reflexivity. Qed.

(** What holds of the tokens that [strconv.ParseInt] does reject: the
    error is returned, and the output is what was copied up to and
    including the offending line. *)
Lemma readChunks_invalid :
  forall chunks fuel r bad rest err,
    Forall chunk_ok chunks -> line_ok bad ->
    strconv.ParseInt (sizeToken (fst bad)) 16 = inr err ->
    bufio.content r = chunks_wire chunks ++ wire bad ++ rest ->
    (length chunks < fuel)%nat ->
    exists r',
      readChunks fuel r
      = (chunks_wire chunks ++ wire bad, r', Err (Errorf "invalid chunk '%s'" [fst bad]))
      /\ bufio.content r' = rest.
Proof.
  induction chunks as [|c chunks IH]; intros fuel r bad rest err Hok Hl Hp Hc Hf;
    (destruct fuel as [|fuel]; [simpl in Hf; lia|]).
  - simpl in Hc.
    destruct (readAndCopyLine_wire r bad rest Hl Hc) as (r' & R1 & R2 & R3).
    exists r'. split; [|auto].
    cbn [readChunks]. erewrite bind_Ok by exact R1.
    fold (sizeToken (fst bad)). rewrite Hp. cbn. rewrite app_nil_r. reflexivity.
  - inversion Hok as [|c0 cs0 Hcok Hrest]; subst.
    destruct Hcok as (Hlc & sz & Hpc & Hpos & Hmax & Hlen).
    unfold chunks_wire in Hc. cbn [map concat] in Hc. unfold chunk_wire at 1 in Hc.
    rewrite <- !app_assoc in Hc.
    destruct (readAndCopyLine_wire r (size_line c) _ Hlc Hc) as (r1 & R1 & R2 & R3).
    assert (Hw : wrap64 (sz + 2) = sz + 2) by (apply wrap64_small; lia).
    destruct (copyN_ok (sz + 2) r1 (chunk_data c) _ R2 Hlen) as (r2 & C1 & C2 & C3).
    destruct (IH fuel r2 bad rest err Hrest Hl Hp C2) as (r' & Q1 & Q2).
    { simpl in Hf. lia. }
    exists r'. split; [|assumption].
    cbn [readChunks]. erewrite bind_Ok by exact R1.
    fold (sizeToken (fst (size_line c))). rewrite Hpc.
    replace (sz =? 0) with false by (symmetry; apply Z.eqb_neq; lia).
    rewrite Hw. erewrite bind_Ok by (apply orWrap_Ok; exact C1).
    rewrite Q1. cbn [fst snd]. unfold chunks_wire. cbn [map concat].
    unfold chunk_wire. rewrite <- !app_assoc. reflexivity.
Qed.

Lemma invalid_chunk_size_is_error :
  forall c status hdrs blank chunks bad rest contentLength err,
    head_ok status hdrs blank ->
    ~ noBodyStatus (fst status) ->
    scanHeaders None false (map fst hdrs) = Ok (contentLength, true) ->
    Forall chunk_ok chunks -> line_ok bad ->
    strconv.ParseInt (sizeToken (fst bad)) 16 = inr err ->
    stream c = head_wire status hdrs blank ++ chunks_wire chunks ++ wire bad ++ rest ->
    ExtractResponse c false
    = (head_wire status hdrs blank ++ chunks_wire chunks ++ wire bad,
       Err (Errorf "invalid chunk '%s'" [fst bad])).
Proof.
  intros c status hdrs blank chunks bad rest cl err (Hs & Hh & Hb) Hnb Hscan Hcs Hl Hp Hc.
  unfold head_wire in *. rewrite <- !app_assoc in Hc.
  destruct (readHead_ok (bufio.NewReader c) status hdrs blank _ cl true Hs Hh Hb Hc Hscan)
    as (r1 & R1 & R2 & R3).
  destruct (readChunks_invalid chunks (S (length (bufio.content r1))) r1 bad rest err
              Hcs Hl Hp R2) as (r' & Q1 & Q2).
  { rewrite R2, length_app. pose proof (chunks_length chunks Hcs). lia. }
  assert (Q : readChunkedBody r1
              = (chunks_wire chunks ++ wire bad, r',
                 Err (Errorf "invalid chunk '%s'" [fst bad]))).
  { unfold readChunkedBody. apply bind_Err. exact Q1. }
  unfold ExtractResponse, extract. erewrite bind_Ok by exact R1.
  cbv beta iota zeta.
  replace (hasNoBodyStatusCode (fst status)) with false.
  2:{ destruct (hasNoBodyStatusCode (fst status)) eqn:E; auto.
      apply hasNoBodyStatusCode_iff in E. contradiction. }
  cbn [orb]. rewrite Q. cbn [fst snd].
  rewrite <- !app_assoc. reflexivity.
Qed.

(** ** No loop runs into its iteration bound *)

Lemma in_split_first :
  forall (d : byte) s, In d s -> exists l rest, s = l ++ d :: rest /\ ~ In d l.
Proof.
  intros d s. induction s as [|c s IH]; intros H; [destruct H|].
  destruct (Byte.eqb c d) eqn:E.
  - apply Byte.byte_dec_bl in E. subst c. exists [], s. split; [reflexivity|intros []].
  - assert (Hne : c <> d).
    { intros E'. subst c. rewrite byte_eqb_refl in E. discriminate. }
    destruct H as [H|H]; [contradiction|].
    destruct (IH H) as (l & rest & E1 & E2).
    exists (c :: l), rest. split; [subst s; reflexivity|].
    intros [E'|E']; [contradiction|contradiction].
Qed.

Lemma in_bytes_dec : forall (d : byte) s, In d s \/ ~ In d s.
Proof.
  intros d s. induction s as [|c s [IH|IH]].
  - right. intros [].
  - left. right. exact IH.
  - destruct (Byte.eqb c d) eqn:E.
    + apply Byte.byte_dec_bl in E. left. left. exact E.
    + right. intros [E'|E']; [|contradiction].
      subst c. rewrite byte_eqb_refl in E. discriminate.
Qed.

Lemma within_bind :
  forall A C (m : M A) (k : A -> M C) r0,
    within (m r0) r0 ->
    (forall w r1 a, m r0 = (w, r1, Ok a) ->
       (length (bufio.content r1) <= length (bufio.content r0))%nat ->
       within (k a r1) r1) ->
    within (bind m k r0) r0.
Proof.
  intros A C m k r0 [H1 H2] Hk. unfold bind.
  destruct (m r0) as [[w1 r1] o] eqn:E. cbn [fst snd] in *.
  destruct o as [a| | |]; try (split; [discriminate|exact H2]).
  - destruct (Hk w1 r1 a eq_refl H2) as [K1 K2].
    destruct (k a r1) as [[w2 r2] o2]. cbn [fst snd] in *.
    split; cbn [fst snd]; [exact K1|lia].
  - congruence.
Qed.

Lemma within_orWrap :
  forall A (m : M A) f r0, within (m r0) r0 -> within (orWrap m f r0) r0.
Proof.
  intros A m f r0 [H1 H2]. unfold orWrap.
  destruct (m r0) as [[w r1] o]. destruct o; split; cbn [fst snd] in *;
    try discriminate; try assumption.
Qed.

Lemma within_lift :
  forall A (o : res A) r0, o <> OutOfFuel -> within (lift o r0) r0.
Proof. intros A o r0 H. split; [exact H|apply le_n]. Qed.

Lemma within_ret : forall A (a : A) r0, within (ret a r0) r0.
Proof. intros. split; [discriminate|apply le_n]. Qed.

Lemma within_fail : forall A e r0, within (@fail A e r0) r0.
Proof. intros. split; [discriminate|apply le_n]. Qed.

Lemma within_panic : forall A msg r0, within (@panic A msg r0) r0.
Proof. intros. split; [discriminate|apply le_n]. Qed.

Lemma within_write : forall b r0, within (write b r0) r0.
Proof. intros. split; [discriminate|apply le_n]. Qed.

(** A line is read and at least one byte consumed, or the read fails. *)
Lemma readAndCopyLine_cases :
  forall r0,
    (exists w r1 t,
        readAndCopyLine r0 = (w, r1, Ok t)
        /\ (length (bufio.content r1) < length (bufio.content r0))%nat)
    \/ (exists r1 e,
           readAndCopyLine r0 = ([], r1, Err e) /\ bufio.content r1 = []).
Proof.
  intros r0. destruct (in_bytes_dec LF (bufio.content r0)) as [H|H].
  - destruct (in_split_first _ _ H) as (l & rest & E1 & E2).
    destruct (readAndCopyLine_line r0 l rest E2 E1) as (r1 & R1 & R2 & R3).
    left. exists (l ++ [LF]), r1, (strings.TrimRight (l ++ [LF]) CRLF).
    split; [exact R1|]. rewrite E1, R2, length_app. simpl. lia.
  - right. eexists; eexists. split; [apply readAndCopyLine_eof; exact H|reflexivity].
Qed.

Lemma within_readAndCopyLine : forall r0, within (readAndCopyLine r0) r0.
Proof.
  intros r0.
  destruct (readAndCopyLine_cases r0) as [(w & r1 & t & E & Hl)|(r1 & e & E & Hc)];
    rewrite E; split; cbn [fst snd]; try discriminate.
  - lia.
  - rewrite Hc. simpl. lia.
Qed.

Lemma readFullLoop_shrinks :
  forall ss need acc b e,
    (length (bufio.content (snd (io.readFullLoop need acc b ss e)))
     <= length b + length (concat (map seg_bytes ss)))%nat.
Proof.
  induction ss as [|s ss IH]; intros need acc b e; cbn [io.readFullLoop].
  - destruct (Nat.leb need (length b)); unfold bufio.content; cbn [snd bufio.buf bufio.rd map concat].
    + rewrite app_nil_r, length_skipn. lia.
    + simpl. lia.
  - destruct (Nat.leb need (length b)).
    + unfold bufio.content. cbn [snd bufio.buf bufio.rd]. rewrite length_app, length_skipn. lia.
    + specialize (IH (need - length b)%nat (acc ++ b) (seg_bytes s) e).
      cbn [map concat]. rewrite length_app. lia.
Qed.

Lemma within_ReadFull :
  forall n r0, within (readWith (io.ReadFull n) r0) r0.
Proof.
  intros n r0. unfold readWith, io.ReadFull.
  pose proof (readFullLoop_shrinks (bufio.rd r0) n [] (bufio.buf r0) (bufio.fin r0)) as H.
  destruct (io.readFullLoop n [] (bufio.buf r0) (bufio.rd r0) (bufio.fin r0))
    as [[d e] r1]. cbn [fst snd] in *. split; [discriminate|].
  unfold bufio.content at 2. rewrite length_app. exact H.
Qed.

Lemma within_copyNLoop :
  forall fuel n r0,
    (length (bufio.content r0) < fuel)%nat -> within (copyNLoop fuel n r0) r0.
Proof.
  induction fuel as [|fuel IH]; intros n r0 Hf; [lia|].
  cbn [copyNLoop]. destruct (n >? maxBufSize); [|apply within_ret].
  assert (Hk : (0 < Z.to_nat maxBufSize)%nat) by (unfold maxBufSize; lia).
  unfold bind at 1. unfold readWith.
  assert (Hcase : bufio.content r0 = [] \/ bufio.content r0 <> []).
  { destruct (bufio.content r0); [left; reflexivity|right; discriminate]. }
  destruct Hcase as [Hc|Hc].
  - rewrite (Read_none _ r0 Hk Hc). unfold fail. cbn [app].
    split; cbn [fst snd]; [discriminate|lia].
  - destruct (Read_some _ r0 Hk Hc) as (d & r1 & R1 & R2 & R3 & R4 & R5).
    rewrite R1.
    assert (Hd : (0 < length d)%nat) by (destruct d; [congruence|simpl; lia]).
    assert (Hl : (length (bufio.content r1) < length (bufio.content r0))%nat).
    { rewrite R4, length_app. lia. }
    destruct (IH (n - Z.of_nat (length d)) r1) as [K1 K2]; [lia|].
    unfold bind, write.
    destruct (copyNLoop fuel (n - Z.of_nat (length d)) r1) as [[w2 r2] o2].
    cbn [fst snd app] in *. split; cbn [fst snd]; [exact K1|lia].
Qed.

Lemma within_copyN : forall n r0, within (copyN n r0) r0.
Proof.
  intros n r0. unfold copyN. destruct (n =? 0); [apply within_ret|].
  apply within_bind.
  - unfold bounded. apply within_copyNLoop. lia.
  - intros w r1 n' _ _. destruct (n' <? 0); [apply within_panic|].
    apply within_bind; [apply within_ReadFull|].
    intros w2 r2 [b [e|]] _ _; [apply within_fail|apply within_write].
Qed.

Lemma contentLengthHeader_fuel :
  forall contentLength t, contentLengthHeader contentLength t <> OutOfFuel.
Proof.
  intros cl t. unfold contentLengthHeader, afterColon.
  destruct (isContentLength t); [|discriminate].
  destruct cl; [discriminate|].
  destruct (nth_error _ 1); [|discriminate].
  destruct (strconv.ParseInt _ 10); discriminate.
Qed.

Lemma transferEncodingHeader_fuel :
  forall chunked t, transferEncodingHeader chunked t <> OutOfFuel.
Proof. intros ch t. rewrite transferEncodingHeader_value. discriminate. Qed.

Lemma within_readHeadLoop :
  forall fuel contentLength chunked r0,
    (length (bufio.content r0) < fuel)%nat ->
    within (readHeadLoop fuel contentLength chunked r0) r0.
Proof.
  induction fuel as [|fuel IH]; intros cl ch r0 Hf; [lia|].
  cbn [readHeadLoop].
  destruct (readAndCopyLine_cases r0) as [(w & r1 & t & E & Hl)|(r1 & e & E & Hc)].
  - erewrite bind_Ok by (apply orWrap_Ok; exact E).
    assert (K : within ((if bytes_eqb t [] then ret (cl, ch)
                         else contentLength' <- lift (contentLengthHeader cl t);;
                              chunked' <- lift (transferEncodingHeader ch t);;
                              readHeadLoop fuel contentLength' chunked') r1) r1).
    { destruct (bytes_eqb t []); [apply within_ret|].
      apply within_bind; [apply within_lift, contentLengthHeader_fuel|].
      intros w1 r2 cl1 E1 _. unfold lift in E1. inversion E1; subst r2.
      apply within_bind; [apply within_lift, transferEncodingHeader_fuel|].
      intros w2 r3 ch1 E2 _. unfold lift in E2. inversion E2; subst r3.
      apply IH. lia. }
    destruct K as [K1 K2]. split; cbn [fst snd]; [exact K1|lia].
  - erewrite bind_Err by (apply orWrap_Err; exact E).
    split; cbn [fst snd]; [discriminate|rewrite Hc; simpl; lia].
Qed.

Lemma within_readHead : forall r0, within (readHead r0) r0.
Proof.
  intros r0. unfold readHead. apply within_bind.
  - apply within_orWrap, within_readAndCopyLine.
  - intros w r1 t _ _. apply within_bind.
    + unfold bounded. apply within_readHeadLoop. lia.
    + intros. apply within_ret.
Qed.

Lemma within_readChunks :
  forall fuel r0,
    (length (bufio.content r0) < fuel)%nat -> within (readChunks fuel r0) r0.
Proof.
  induction fuel as [|fuel IH]; intros r0 Hf; [lia|].
  cbn [readChunks].
  destruct (readAndCopyLine_cases r0) as [(w & r1 & t & E & Hl)|(r1 & e & E & Hc)].
  - erewrite bind_Ok by exact E.
    assert (K : within ((match strconv.ParseInt (hd [] (strings.Split t ";"%byte)) 16 with
                         | inl chunkSize =>
                             if chunkSize =? 0 then ret tt
                             else orWrap (copyN (wrap64 (chunkSize + 2)))
                                    (Errorw "could not read full chunk body: %w" []);;;
                                  readChunks fuel
                         | inr _ => fail (Errorf "invalid chunk '%s'" [t])
                         end) r1) r1).
    { destruct (strconv.ParseInt _ 16) as [sz|e]; [|apply within_fail].
      destruct (sz =? 0); [apply within_ret|].
      apply within_bind; [apply within_orWrap, within_copyN|].
      intros w2 r2 [] _ Hle. apply IH. lia. }
    destruct K as [K1 K2]. split; cbn [fst snd]; [exact K1|lia].
  - erewrite bind_Err by exact E.
    split; cbn [fst snd]; [discriminate|rewrite Hc; simpl; lia].
Qed.

Lemma within_readTrailers :
  forall fuel r0,
    (length (bufio.content r0) < fuel)%nat -> within (readTrailers fuel r0) r0.
Proof.
  induction fuel as [|fuel IH]; intros r0 Hf; [lia|].
  cbn [readTrailers].
  destruct (readAndCopyLine_cases r0) as [(w & r1 & t & E & Hl)|(r1 & e & E & Hc)].
  - erewrite bind_Ok by exact E.
    assert (K : within ((if bytes_eqb t [] then ret tt else readTrailers fuel) r1) r1).
    { destruct (bytes_eqb t []); [apply within_ret|apply IH; lia]. }
    destruct K as [K1 K2]. split; cbn [fst snd]; [exact K1|lia].
  - erewrite bind_Err by exact E.
    split; cbn [fst snd]; [discriminate|rewrite Hc; simpl; lia].
Qed.

Lemma within_readChunkedBody : forall r0, within (readChunkedBody r0) r0.
Proof.
  intros r0. unfold readChunkedBody. apply within_bind.
  - unfold bounded. apply within_readChunks. lia.
  - intros w r1 [] _ _. unfold bounded. apply within_readTrailers. lia.
Qed.

Lemma within_extract : forall headRequest r0, within (extract headRequest r0) r0.
Proof.
  intros hr r0. unfold extract. apply within_bind; [apply within_readHead|].
  intros w r1 [[cl ch] nb] _ _.
  destruct (hr || nb); [apply within_ret|].
  destruct ch; [apply within_readChunkedBody|].
  destruct cl as [n|]; [apply within_copyN|].
  unfold ioCopy, bufio.WriteTo.
  destruct (is_EOF (bufio.fin r1)); split; cbn [fst snd]; try discriminate;
    unfold bufio.content at 1; simpl; lia.
Qed.

(** [ExtractResponse] is total: on every connection it ends with a nil
    error, an error or a panic, never cut off by the iteration bound of a
    loop of the model. *)
Lemma extract_fuel_ok :
  forall c headRequest, snd (ExtractResponse c headRequest) <> OutOfFuel.
Proof.
  intros c hr. unfold ExtractResponse.
  destruct (within_extract hr (bufio.NewReader c)) as [H _].
  destruct (extract hr (bufio.NewReader c)) as [[out r1] o]. exact H.
Qed.

(** ** Output and input: what is written was read, in order *)

Lemma prefix_of_nil : forall b, prefix_of [] b.
Proof. intros b. exists b. reflexivity. Qed.

Lemma prefix_of_refl : forall b, prefix_of b b.
Proof. intros b. exists []. symmetry. apply app_nil_r. Qed.

Lemma prefix_of_app :
  forall a b c, prefix_of b c -> prefix_of (a ++ b) (a ++ c).
Proof. intros a b c [t ->]. exists t. apply app_assoc. Qed.

Lemma prefix_of_app_r :
  forall a b c, prefix_of a b -> prefix_of a (b ++ c).
Proof. intros a b c [t ->]. exists (t ++ c). symmetry. apply app_assoc. Qed.

(** A run that neither reads nor writes. *)
Lemma copies_idle :
  forall A (o : res A) r0, copies ([], r0, o) r0.
Proof.
  intros A o r0. exists []. cbn [fst snd]. repeat split.
  - apply prefix_of_nil.
Qed.

Lemma copies_ret : forall A (a : A) r0, copies (ret a r0) r0.
Proof. intros. apply copies_idle. Qed.

Lemma copies_fail : forall A e r0, copies (@fail A e r0) r0.
Proof. intros. apply copies_idle. Qed.

Lemma copies_panic : forall A msg r0, copies (@panic A msg r0) r0.
Proof. intros. apply copies_idle. Qed.

Lemma copies_lift : forall A (o : res A) r0, copies (lift o r0) r0.
Proof. intros. apply copies_idle. Qed.

Lemma copies_bind :
  forall A C (m : M A) (k : A -> M C) r0,
    copies (m r0) r0 ->
    (forall w r1 a, m r0 = (w, r1, Ok a) -> copies (k a r1) r1) ->
    copies (bind m k r0) r0.
Proof.
  intros A C m k r0 Hm Hk. unfold bind.
  destruct (m r0) as [[w1 r1] o1] eqn:E.
  destruct o1 as [a|e|msg|];
    try (destruct Hm as (t & H1 & H2 & _); exists t; cbn [fst snd] in *;
         repeat split; [exact H1|exact H2|discriminate]).
  destruct Hm as (t1 & H1 & _ & H3). cbn [fst snd] in *.
  specialize (H3 a eq_refl). subst t1.
  specialize (Hk w1 r1 a eq_refl).
  destruct (k a r1) as [[w2 r2] o2].
  destruct Hk as (t2 & K1 & K2 & K3). cbn [fst snd] in *.
  exists (w1 ++ t2). cbn [fst snd]. repeat split.
  - rewrite H1, K1. apply app_assoc.
  - apply prefix_of_app. exact K2.
  - intros c Hc. rewrite (K3 c Hc). reflexivity.
Qed.

Lemma copies_orWrap :
  forall A (m : M A) f r0, copies (m r0) r0 -> copies (orWrap m f r0) r0.
Proof.
  intros A m f r0 H. unfold orWrap.
  destruct (m r0) as [[w r1] o]. destruct o; try exact H.
  destruct H as (t & H1 & H2 & H3). exists t. cbn [fst snd] in *.
  repeat split; [exact H1|exact H2|discriminate].
Qed.

Lemma copies_readAndCopyLine : forall r0, copies (readAndCopyLine r0) r0.
Proof.
  intros r0. destruct (in_bytes_dec LF (bufio.content r0)) as [Hin|Hno].
  - destruct (in_split_first LF _ Hin) as (l & rest & E & Hl).
    destruct (readAndCopyLine_line r0 l rest Hl E) as (r1 & R1 & R2 & _).
    rewrite R1. exists (l ++ [LF]). cbn [fst snd]. repeat split.
    + rewrite R2, E, <- app_assoc. reflexivity.
    + apply prefix_of_refl.
  - rewrite (readAndCopyLine_eof r0 Hno). exists (bufio.content r0).
    cbn [fst snd]. repeat split.
    + unfold bufio.content at 3. cbn. rewrite app_nil_r. reflexivity.
    + apply prefix_of_nil.
    + discriminate.
Qed.

(** [io.ReadFull] hands over the front of what the reader held, also when
    it fails. *)
Lemma readFullLoop_split :
  forall ss need acc b e,
    acc ++ b ++ concat (map seg_bytes ss)
    = fst (fst (io.readFullLoop need acc b ss e))
      ++ bufio.content (snd (io.readFullLoop need acc b ss e)).
Proof.
  induction ss as [|s ss IH]; intros need acc b e; cbn [io.readFullLoop].
  - destruct (Nat.leb need (length b)); unfold bufio.content;
      cbn [fst snd bufio.buf bufio.rd map concat].
    + rewrite <- app_assoc. f_equal. rewrite app_assoc, firstn_skipn. reflexivity.
    + rewrite !app_nil_r. reflexivity.
  - destruct (Nat.leb need (length b)).
    + unfold bufio.content. cbn [fst snd bufio.buf bufio.rd].
      rewrite <- app_assoc. f_equal. rewrite app_assoc, firstn_skipn. reflexivity.
    + rewrite <- IH. cbn [map concat]. rewrite <- app_assoc. reflexivity.
Qed.

Lemma ReadFull_split :
  forall n r0,
    bufio.content r0
    = fst (fst (io.ReadFull n r0)) ++ bufio.content (snd (io.ReadFull n r0)).
Proof.
  intros n r0. unfold io.ReadFull.
  rewrite <- readFullLoop_split. reflexivity.
Qed.

Lemma copies_copyNLoop :
  forall fuel n r0, copies (copyNLoop fuel n r0) r0.
Proof.
  induction fuel as [|fuel IH]; intros n r0; [apply copies_idle|].
  cbn [copyNLoop]. destruct (n >? maxBufSize); [|apply copies_ret].
  assert (Hk : (0 < Z.to_nat maxBufSize)%nat) by (unfold maxBufSize; lia).
  unfold bind at 1. unfold readWith.
  assert (Hcase : bufio.content r0 = [] \/ bufio.content r0 <> []).
  { destruct (bufio.content r0); [left; reflexivity|right; discriminate]. }
  destruct Hcase as [Hc|Hc].
  - rewrite (Read_none _ r0 Hk Hc). unfold fail. cbn [app]. apply copies_idle.
  - destruct (Read_some _ r0 Hk Hc) as (d & r1 & R1 & R2 & R3 & R4 & R5).
    rewrite R1. unfold bind, write.
    destruct (IH (n - Z.of_nat (length d)) r1) as (t & K1 & K2 & K3).
    destruct (copyNLoop fuel (n - Z.of_nat (length d)) r1) as [[w2 r2] o2].
    cbn [fst snd app] in *. exists (d ++ t). cbn [fst snd]. repeat split.
    + rewrite R4, K1. apply app_assoc.
    + apply prefix_of_app. exact K2.
    + intros a Ha. rewrite (K3 a Ha). reflexivity.
Qed.

Lemma copies_copyN : forall n r0, copies (copyN n r0) r0.
Proof.
  intros n r0. unfold copyN. destruct (n =? 0); [apply copies_ret|].
  apply copies_bind.
  - unfold bounded. apply copies_copyNLoop.
  - intros w r1 n' _. destruct (n' <? 0); [apply copies_panic|].
    unfold bind, readWith.
    pose proof (ReadFull_split (Z.to_nat n') r1) as S.
    destruct (io.ReadFull (Z.to_nat n') r1) as [[b e] r2].
    cbn [fst snd] in S. destruct e as [e|].
    + unfold fail. exists b. cbn [fst snd app]. repeat split;
        [exact S|apply prefix_of_nil|discriminate].
    + unfold write. exists b. cbn [fst snd app]. repeat split;
        [exact S|apply prefix_of_refl].
Qed.

Lemma copies_readHeadLoop :
  forall fuel contentLength chunked r0,
    copies (readHeadLoop fuel contentLength chunked r0) r0.
Proof.
  induction fuel as [|fuel IH]; intros cl ch r0; [apply copies_idle|].
  cbn [readHeadLoop]. apply copies_bind.
  - apply copies_orWrap, copies_readAndCopyLine.
  - intros w r1 t _. destruct (bytes_eqb t []); [apply copies_ret|].
    apply copies_bind; [apply copies_lift|].
    intros w1 r2 cl1 _. apply copies_bind; [apply copies_lift|].
    intros w2 r3 ch1 _. apply IH.
Qed.

Lemma copies_readHead : forall r0, copies (readHead r0) r0.
Proof.
  intros r0. unfold readHead. apply copies_bind.
  - apply copies_orWrap, copies_readAndCopyLine.
  - intros w r1 t _. apply copies_bind.
    + unfold bounded. apply copies_readHeadLoop.
    + intros. apply copies_ret.
Qed.

Lemma copies_readChunks : forall fuel r0, copies (readChunks fuel r0) r0.
Proof.
  induction fuel as [|fuel IH]; intros r0; [apply copies_idle|].
  cbn [readChunks]. apply copies_bind; [apply copies_readAndCopyLine|].
  intros w r1 t _.
  destruct (strconv.ParseInt _ 16) as [sz|e]; [|apply copies_fail].
  destruct (sz =? 0); [apply copies_ret|].
  apply copies_bind; [apply copies_orWrap, copies_copyN|].
  intros. apply IH.
Qed.

Lemma copies_readTrailers : forall fuel r0, copies (readTrailers fuel r0) r0.
Proof.
  induction fuel as [|fuel IH]; intros r0; [apply copies_idle|].
  cbn [readTrailers]. apply copies_bind; [apply copies_readAndCopyLine|].
  intros w r1 t _. destruct (bytes_eqb t []); [apply copies_ret|apply IH].
Qed.

Lemma copies_readChunkedBody : forall r0, copies (readChunkedBody r0) r0.
Proof.
  intros r0. unfold readChunkedBody. apply copies_bind.
  - unfold bounded. apply copies_readChunks.
  - intros. unfold bounded. apply copies_readTrailers.
Qed.

Lemma copies_ioCopy : forall r0, copies (ioCopy r0) r0.
Proof.
  intros r0. unfold ioCopy, bufio.WriteTo.
  destruct (is_EOF (bufio.fin r0)); exists (bufio.content r0); cbn [fst snd];
    (repeat split; [unfold bufio.content at 3; cbn; rewrite app_nil_r; reflexivity
                   |apply prefix_of_refl]).
Qed.

Lemma copies_extract : forall headRequest r0, copies (extract headRequest r0) r0.
Proof.
  intros hr r0. unfold extract. apply copies_bind; [apply copies_readHead|].
  intros w r1 [[cl ch] nb] _.
  destruct (hr || nb); [apply copies_ret|].
  destruct ch; [apply copies_readChunkedBody|].
  destruct cl as [n|]; [apply copies_copyN|apply copies_ioCopy].
Qed.

(** X1.  Whatever the connection delivers, in whatever portions, and
    whether the extraction ends with a nil error, an error or a panic:
    the string that [ExtractResponse] returns is a prefix of the bytes of
    the connection.  No byte is made up, changed, dropped in the middle
    or reordered. *)
Theorem ExtractResponse_output_is_prefix :
  forall (c : conn) (headRequest : bool),
    prefix_of (fst (ExtractResponse c headRequest)) (stream c).
Proof.
  intros c hr. unfold ExtractResponse.
  destruct (copies_extract hr (bufio.NewReader c)) as (t & H1 & H2 & _).
  destruct (extract hr (bufio.NewReader c)) as [[out r1] o].
  cbn [fst snd] in *. rewrite <- content_NewReader, H1.
  apply prefix_of_app_r. exact H2.
Qed.

(** X2.  When the extraction ends with a nil error, it has taken from
    the buffered reader exactly the bytes it returns: the output followed
    by what the reader still holds is the stream of the connection.  The
    bytes of a following response are left in the reader. *)
Theorem extract_nil_error_takes_what_it_returns :
  forall (c : conn) (headRequest : bool) out r',
    extract headRequest (bufio.NewReader c) = (out, r', Ok tt) ->
    stream c = out ++ bufio.content r'.
Proof.
  intros c hr out r1 E.
  destruct (copies_extract hr (bufio.NewReader c)) as (t & H1 & _ & H3).
  rewrite E in H1, H3. cbn [fst snd] in *.
  rewrite (H3 tt eq_refl). rewrite <- content_NewReader. exact H1.
Qed.

Lemma extract_nil_error_takes_what_it_returns_witness :
  stream (NewStringReader (head_404 ++ body_404 ++ B " foo"))
  = (head_404 ++ body_404)
    ++ bufio.content (snd (fst (extract false
         (bufio.NewReader (NewStringReader (head_404 ++ body_404 ++ B " foo")))))).
Proof.
  apply (extract_nil_error_takes_what_it_returns
           (NewStringReader (head_404 ++ body_404 ++ B " foo")) false).
  vm_compute. reflexivity.
Defined.

(** ** Streams that end early, and headers that are refused *)

Lemma readFullLoop_short :
  forall ss need acc b e,
    (length b + length (concat (map seg_bytes ss)) < need)%nat ->
    io.readFullLoop need acc b ss e
    = (acc ++ b ++ concat (map seg_bytes ss),
       Some (shortReadError (acc ++ b ++ concat (map seg_bytes ss)) e),
       bufio.mkReader [] [] e).
Proof.
  induction ss as [|s ss IH]; intros need acc b e H; cbn [io.readFullLoop].
  - replace (Nat.leb need (length b)) with false
      by (symmetry; apply Nat.leb_gt; simpl in H; lia).
    cbn [map concat]. rewrite !app_nil_r. reflexivity.
  - replace (Nat.leb need (length b)) with false
      by (symmetry; apply Nat.leb_gt; lia).
    cbn [map concat] in *. rewrite length_app in H.
    rewrite IH by lia. rewrite <- !app_assoc. reflexivity.
Qed.

Lemma ReadFull_short :
  forall n r,
    (length (bufio.content r) < n)%nat ->
    io.ReadFull n r
    = (bufio.content r, Some (shortReadError (bufio.content r) (bufio.fin r)),
       bufio.mkReader [] [] (bufio.fin r)).
Proof.
  intros n r H. unfold io.ReadFull. unfold bufio.content in *.
  rewrite length_app in H. rewrite readFullLoop_short by exact H. reflexivity.
Qed.

Lemma copyN_short :
  forall n r,
    n <= maxBufSize -> Z.of_nat (length (bufio.content r)) < n ->
    copyN n r
    = ([], bufio.mkReader [] [] (bufio.fin r),
       Err (shortReadError (bufio.content r) (bufio.fin r))).
Proof.
  intros n r Hmax Hlen. unfold copyN.
  replace (n =? 0) with false by (symmetry; apply Z.eqb_neq; lia).
  unfold bind at 1. unfold bounded. cbn [copyNLoop].
  replace (n >? maxBufSize) with false
    by (symmetry; rewrite Z.gtb_ltb; apply Z.ltb_ge; exact Hmax).
  unfold ret. replace (n <? 0) with false by (symmetry; apply Z.ltb_ge; lia).
  unfold bind, readWith. rewrite ReadFull_short by lia. reflexivity.
Qed.

(** The header loop on a block that ends, after complete header lines,
    in a piece without a line feed. *)
Lemma readHeadLoop_truncated :
  forall hdrs fuel r contentLength chunked partial contentLength' chunked',
    Forall header_ok hdrs -> ~ In LF partial ->
    bufio.content r = wires hdrs ++ partial ->
    scanHeaders contentLength chunked (map fst hdrs) = Ok (contentLength', chunked') ->
    (length hdrs < fuel)%nat ->
    exists r',
      readHeadLoop fuel contentLength chunked r
      = (wires hdrs, r',
         Err (Errorw "could not read line: %w" []
                (Errorw "could not read line: %w" [] (bufio.fin r)))).
Proof.
  induction hdrs as [|h hdrs IH];
    intros fuel r cl ch partial cl' ch' Hok Hp Hc Hs Hf;
    (destruct fuel as [|fuel]; [simpl in Hf; lia|]).
  - simpl in Hc. rewrite <- Hc in Hp.
    eexists. cbn [readHeadLoop].
    erewrite bind_Err by (apply orWrap_Err; apply readAndCopyLine_eof; exact Hp).
    reflexivity.
  - inversion Hok as [|h0 hs0 [Hl Hne] Hrest]; subst.
    unfold wires in Hc. cbn [map concat] in Hc. rewrite <- app_assoc in Hc.
    destruct (readAndCopyLine_wire r h _ Hl Hc) as (r1 & R1 & R2 & R3).
    cbn [map scanHeaders] in Hs.
    destruct (contentLengthHeader cl (fst h)) as [cl1| | |] eqn:Hcl; try discriminate.
    destruct (transferEncodingHeader ch (fst h)) as [ch1| | |] eqn:Hch; try discriminate.
    destruct (IH fuel r1 cl1 ch1 partial cl' ch') as (r' & Q1); auto.
    { simpl in Hf. lia. }
    exists r'.
    cbn [readHeadLoop]. erewrite bind_Ok by (apply orWrap_Ok; exact R1).
    rewrite (bytes_eqb_nil _ Hne), !lift_bind, Hcl, lift_bind, Hch, Q1.
    cbn [fst snd]. unfold wires. cbn [map concat]. rewrite R3. reflexivity.
Qed.

(** The header loop on a block with a header line that the
    [Content-Length] branch refuses. *)
Lemma readHeadLoop_refused :
  forall before fuel r contentLength chunked bad rest contentLength' chunked' e,
    Forall header_ok before -> header_ok bad ->
    bufio.content r = wires before ++ wire bad ++ rest ->
    scanHeaders contentLength chunked (map fst before) = Ok (contentLength', chunked') ->
    contentLengthHeader contentLength' (fst bad) = Err e ->
    (length before < fuel)%nat ->
    exists r',
      readHeadLoop fuel contentLength chunked r
      = (wires before ++ wire bad, r', Err e)
      /\ bufio.content r' = rest.
Proof.
  induction before as [|h hdrs IH];
    intros fuel r cl ch bad rest cl' ch' e Hok Hbad Hc Hs He Hf;
    (destruct fuel as [|fuel]; [simpl in Hf; lia|]).
  - simpl in Hc, Hs. inversion Hs; subst cl' ch'. destruct Hbad as [Hl Hne].
    destruct (readAndCopyLine_wire r bad rest Hl Hc) as (r' & R1 & R2 & R3).
    exists r'. split; [|exact R2].
    cbn [readHeadLoop]. erewrite bind_Ok by (apply orWrap_Ok; exact R1).
    rewrite (bytes_eqb_nil _ Hne), lift_bind, He. cbn [fst snd wires map concat].
    rewrite app_nil_r. reflexivity.
  - inversion Hok as [|h0 hs0 [Hl Hne] Hrest]; subst.
    unfold wires in Hc. cbn [map concat] in Hc. rewrite <- app_assoc in Hc.
    destruct (readAndCopyLine_wire r h _ Hl Hc) as (r1 & R1 & R2 & R3).
    cbn [map scanHeaders] in Hs.
    destruct (contentLengthHeader cl (fst h)) as [cl1| | |] eqn:Hcl; try discriminate.
    destruct (transferEncodingHeader ch (fst h)) as [ch1| | |] eqn:Hch; try discriminate.
    destruct (IH fuel r1 cl1 ch1 bad rest cl' ch' e) as (r' & Q1 & Q2); auto.
    { simpl in Hf. lia. }
    exists r'. split; [|exact Q2].
    cbn [readHeadLoop]. erewrite bind_Ok by (apply orWrap_Ok; exact R1).
    rewrite (bytes_eqb_nil _ Hne), !lift_bind, Hcl, lift_bind, Hch, Q1.
    cbn [fst snd]. unfold wires. cbn [map concat]. rewrite <- !app_assoc. reflexivity.
Qed.

Lemma header_lines_fuel :
  forall hdrs tl, Forall header_ok hdrs ->
    (length hdrs < S (length (wires hdrs ++ tl)))%nat.
Proof.
  intros hdrs tl H. rewrite length_app.
  assert (length hdrs <= length (wires hdrs))%nat.
  { apply wires_length. eapply Forall_impl; [|exact H]. intros a [Ha _]. exact Ha. }
  lia.
Qed.

Lemma has_body_status :
  forall t, ~ noBodyStatus t -> hasNoBodyStatusCode t = false.
Proof.
  intros t H. destruct (hasNoBodyStatusCode t) eqn:E; [|reflexivity].
  apply hasNoBodyStatusCode_iff in E. contradiction.
Qed.

(** X3.  A response whose status expects a body and whose headers
    announce neither a length nor chunked encoding: the body is everything
    up to the end of the stream.  [ExtractResponse] returns the whole
    stream; the error is nil when the connection ends with [io.EOF], and
    the error of the connection otherwise, with nothing of the stream
    withheld. *)
Theorem body_runs_until_the_stream_ends :
  forall c status hdrs blank body,
    head_ok status hdrs blank ->
    ~ noBodyStatus (fst status) ->
    scanHeaders None false (map fst hdrs) = Ok (None, false) ->
    stream c = head_wire status hdrs blank ++ body ->
    ExtractResponse c false
    = (stream c, if is_EOF (conn_err c) then Ok tt else Err (conn_err c)).
Proof.
  intros c status hdrs blank body Hh Hnb Hscan Hc.
  destruct (extract_until_close (bufio.NewReader c) status hdrs blank body Hh Hc Hscan
              (has_body_status _ Hnb)) as (r' & R1).
  change (bufio.fin (bufio.NewReader c)) with (conn_err c) in R1.
  rewrite <- Hc in R1. eapply ExtractResponse_extract. exact R1.
Qed.

Lemma body_runs_until_the_stream_ends_witness :
  ExtractResponse
    (mkConn (segs_of (B "HTTP/1.1 200 OK" ++ CRLF ++ B "Server: x" ++ CRLF ++ CRLF
                      ++ B "partial bo"))
            (ConnError "i/o timeout")) false
  = (B "HTTP/1.1 200 OK" ++ CRLF ++ B "Server: x" ++ CRLF ++ CRLF ++ B "partial bo",
     Err (ConnError "i/o timeout")).
Proof.
  apply (body_runs_until_the_stream_ends
           (mkConn (segs_of (B "HTTP/1.1 200 OK" ++ CRLF ++ B "Server: x" ++ CRLF ++ CRLF
                             ++ B "partial bo"))
                   (ConnError "i/o timeout"))
           (crlf (B "HTTP/1.1 200 OK")) [crlf (B "Server: x")] CRLF (B "partial bo")).
  - solve_head.
  - intros (f0 & f1 & fs & code & E1 & E2 & E3).
    vm_compute in E1. inversion E1; subst. vm_compute in E2. inversion E2; subst. lia.
  - reflexivity.
  - reflexivity.
Defined.

(** X4.  A stream that ends before the first line feed has no status
    line: nothing is returned but the error of the connection, wrapped
    once by [readAndCopyLine] and once by [readHead]; the bytes of the
    incomplete line are not part of the output.  This holds for HEAD
    requests as well. *)
Theorem stream_without_status_line :
  forall c headRequest,
    ~ In LF (stream c) ->
    ExtractResponse c headRequest
    = ([], Err (Errorw "could not read status line: %w" []
                  (Errorw "could not read line: %w" [] (conn_err c)))).
Proof.
  intros c hr H. unfold ExtractResponse, extract, readHead.
  erewrite bind_Err; [reflexivity|].
  apply bind_Err. apply orWrap_Err.
  rewrite <- content_NewReader in H. rewrite (readAndCopyLine_eof _ H). reflexivity.
Qed.

Lemma stream_without_status_line_witness :
  ExtractResponse (NewStringReader (B "HTTP/1.1 200 OK")) true
  = ([], Err (Errorw "could not read status line: %w" []
                (Errorw "could not read line: %w" [] EOF))).
Proof.
  apply (stream_without_status_line (NewStringReader (B "HTTP/1.1 200 OK")) true).
  vm_compute. intuition discriminate.
Defined.

(** X5.  A stream that ends inside the header block, after the status
    line and some complete header lines: the output is the complete
    lines; the piece of the line that was cut off is not returned.  The
    error is the error of the connection, wrapped twice with the words
    "could not read line".  This holds for HEAD requests as well. *)
Theorem stream_ends_in_headers :
  forall c headRequest status hdrs partial contentLength chunked,
    line_ok status -> Forall header_ok hdrs -> ~ In LF partial ->
    scanHeaders None false (map fst hdrs) = Ok (contentLength, chunked) ->
    stream c = wire status ++ wires hdrs ++ partial ->
    ExtractResponse c headRequest
    = (wire status ++ wires hdrs,
       Err (Errorw "could not read line: %w" []
              (Errorw "could not read line: %w" [] (conn_err c)))).
Proof.
  intros c hr status hdrs partial cl ch Hs Hh Hp Hscan Hc.
  rewrite <- content_NewReader in Hc.
  destruct (readAndCopyLine_wire _ status _ Hs Hc) as (r1 & R1 & R2 & R3).
  destruct (readHeadLoop_truncated hdrs (S (length (bufio.content r1))) r1 None false
              partial cl ch Hh Hp R2 Hscan) as (r' & Q1).
  { rewrite R2. apply header_lines_fuel. exact Hh. }
  unfold ExtractResponse, extract, readHead.
  erewrite bind_Err; [reflexivity|].
  erewrite bind_Ok by (apply orWrap_Ok; exact R1).
  erewrite bind_Err by (unfold bounded; exact Q1).
  cbn [fst snd]. rewrite R3. reflexivity.
Qed.

Lemma stream_ends_in_headers_witness :
  ExtractResponse
    (NewStringReader (B "HTTP/1.1 200 OK" ++ CRLF ++ B "Content-Length: 3" ++ CRLF
                      ++ B "Content-Ty")) false
  = (B "HTTP/1.1 200 OK" ++ CRLF ++ B "Content-Length: 3" ++ CRLF,
     Err (Errorw "could not read line: %w" []
            (Errorw "could not read line: %w" [] EOF))).
Proof.
  apply (stream_ends_in_headers
           (NewStringReader (B "HTTP/1.1 200 OK" ++ CRLF ++ B "Content-Length: 3" ++ CRLF
                             ++ B "Content-Ty")) false
           (crlf (B "HTTP/1.1 200 OK")) [crlf (B "Content-Length: 3")] (B "Content-Ty")
           (Some 3) false).
  - solve_line.
  - repeat (constructor; [solve_header|]); constructor.
  - vm_compute. intuition discriminate.
  - reflexivity.
  - reflexivity.
Defined.

(** X6.  A header line that the Content-Length branch of [readHead]
    refuses (a second Content-Length header, or a value that
    [strconv.ParseInt] rejects) ends the extraction at that line: the
    output is the status line and the header lines up to and including
    the refused one, and the error is the one of the branch.  The check
    comes before the test for HEAD requests and no-body status codes, so
    neither of them suppresses the error. *)
Theorem refused_header_ends_extraction :
  forall c headRequest status before bad rest contentLength chunked e,
    line_ok status -> Forall header_ok before -> header_ok bad ->
    scanHeaders None false (map fst before) = Ok (contentLength, chunked) ->
    contentLengthHeader contentLength (fst bad) = Err e ->
    stream c = wire status ++ wires before ++ wire bad ++ rest ->
    ExtractResponse c headRequest
    = (wire status ++ wires before ++ wire bad, Err e).
Proof.
  intros c hr status before bad rest cl ch e Hs Hh Hbad Hscan He Hc.
  rewrite <- content_NewReader in Hc.
  destruct (readAndCopyLine_wire _ status _ Hs Hc) as (r1 & R1 & R2 & R3).
  destruct (readHeadLoop_refused before (S (length (bufio.content r1))) r1 None false
              bad rest cl ch e Hh Hbad R2 Hscan He) as (r' & Q1 & Q2).
  { rewrite R2. apply header_lines_fuel. exact Hh. }
  unfold ExtractResponse, extract, readHead.
  erewrite bind_Err; [reflexivity|].
  erewrite bind_Ok by (apply orWrap_Ok; exact R1).
  erewrite bind_Err by (unfold bounded; exact Q1).
  reflexivity.
Qed.

Lemma refused_header_ends_extraction_witness :
  ExtractResponse
    (NewStringReader (B "HTTP/1.1 204 No Content" ++ CRLF ++ B "Content-Length: 0" ++ CRLF
                      ++ B "content-length: 0" ++ CRLF ++ CRLF)) true
  = (B "HTTP/1.1 204 No Content" ++ CRLF ++ B "Content-Length: 0" ++ CRLF
     ++ B "content-length: 0" ++ CRLF,
     Err (Errorf "multiple Content-Length headers found" [])).
Proof.
  apply (refused_header_ends_extraction
           (NewStringReader (B "HTTP/1.1 204 No Content" ++ CRLF
                             ++ B "Content-Length: 0" ++ CRLF
                             ++ B "content-length: 0" ++ CRLF ++ CRLF)) true
           (crlf (B "HTTP/1.1 204 No Content")) [crlf (B "Content-Length: 0")]
           (crlf (B "content-length: 0")) CRLF (Some 0) false).
  - solve_line.
  - repeat (constructor; [solve_header|]); constructor.
  - solve_header.
  - reflexivity.
  - reflexivity.
  - reflexivity.
Defined.

(** X7.  A body that is shorter than its Content-Length, for a length of
    at most [maxBufSize]: the stream ends after fewer than [L] body bytes.
    [ExtractResponse] returns the head alone, without the body bytes that
    did arrive, and the error of [io.ReadFull]: [io.ErrUnexpectedEOF] when
    the connection closed after some body bytes, the error of the
    connection otherwise. *)
Theorem short_body_is_dropped :
  forall c status hdrs blank body L,
    head_ok status hdrs blank ->
    ~ noBodyStatus (fst status) ->
    scanHeaders None false (map fst hdrs) = Ok (Some L, false) ->
    L <= maxBufSize ->
    Z.of_nat (length body) < L ->
    stream c = head_wire status hdrs blank ++ body ->
    ExtractResponse c false
    = (head_wire status hdrs blank, Err (shortReadError body (conn_err c))).
Proof.
  intros c status hdrs blank body L (Hs & Hh & Hb) Hnb Hscan Hmax Hlen Hc.
  unfold head_wire in *. rewrite <- !app_assoc in Hc.
  rewrite <- content_NewReader in Hc.
  destruct (readHead_ok _ status hdrs blank body (Some L) false Hs Hh Hb Hc Hscan)
    as (r1 & R1 & R2 & R3).
  unfold ExtractResponse, extract. erewrite bind_Ok by exact R1.
  cbv beta iota zeta. rewrite (has_body_status _ Hnb). cbn [orb].
  rewrite copyN_short by (try rewrite R2; assumption).
  cbn [fst snd]. rewrite R2, R3, app_nil_r. reflexivity.
Qed.

Lemma short_body_is_dropped_witness :
  ExtractResponse (NewStringReader (head_200_length_10 ++ B "All")) false
  = (head_200_length_10, Err ErrUnexpectedEOF).
Proof.
  apply (short_body_is_dropped (NewStringReader (head_200_length_10 ++ B "All"))
           (crlf (B "HTTP/1.1 200 OK")) [crlf (B "Content-Length: 10")] CRLF (B "All") 10).
  - solve_head.
  - intros (f0 & f1 & fs & code & E1 & E2 & E3).
    vm_compute in E1. inversion E1; subst. vm_compute in E2. inversion E2; subst. lia.
  - reflexivity.
  - unfold maxBufSize. lia.
  - simpl. lia.
  - reflexivity.
Defined.

(** X8.  [copyN] with a negative count panics, for every negative count
    and every state of the reader, before it reads or writes anything:
    the count passes the test [n == 0] and the loop [n > maxBufSize] and
    reaches [make([]byte, n)]. *)
Theorem copyN_negative_count_panics :
  forall n r,
    n < 0 -> copyN n r = ([], r, Panic "makeslice: len out of range").
Proof.
  intros n r H. unfold copyN.
  replace (n =? 0) with false by (symmetry; apply Z.eqb_neq; lia).
  unfold bind at 1. unfold bounded. cbn [copyNLoop].
  replace (n >? maxBufSize) with false
    by (symmetry; rewrite Z.gtb_ltb; apply Z.ltb_ge; unfold maxBufSize; lia).
  unfold ret. replace (n <? 0) with true by (symmetry; apply Z.ltb_lt; exact H).
  reflexivity.
Qed.

Lemma copyN_negative_count_panics_witness :
  copyN (-1) (bufio.NewReader (NewStringReader (B "abc")))
  = ([], bufio.NewReader (NewStringReader (B "abc")),
     Panic "makeslice: len out of range").
Proof.
  apply (copyN_negative_count_panics (-1) (bufio.NewReader (NewStringReader (B "abc")))).
  lia.
Defined.

(** X9.  [copyN] with a count of zero or more, on a reader that holds at
    least that many bytes: exactly the next [n] bytes are written, in
    order, and the reader is left with the bytes after them.  This holds
    for counts above [maxBufSize], which are copied in several reads, and
    however the connection cuts its bytes into reads. *)
Theorem copyN_copies_the_next_n_bytes :
  forall n r body rest,
    bufio.content r = body ++ rest ->
    Z.of_nat (length body) = n ->
    exists r',
      copyN n r = (body, r', Ok tt) /\ bufio.content r' = rest.
Proof.
  intros n r body rest Hc Hn.
  destruct (copyN_ok n r body rest Hc Hn) as (r' & Q1 & Q2 & _).
  exists r'. split; assumption.
Qed.

Lemma copyN_copies_the_next_n_bytes_witness :
  exists r',
    copyN 5 (bufio.mkReader (B "he") [("l"%byte, B "l"); ("o"%byte, B " world")] EOF)
    = (B "hello", r', Ok tt)
    /\ bufio.content r' = B " world".
Proof.
  apply (copyN_copies_the_next_n_bytes 5
           (bufio.mkReader (B "he") [("l"%byte, B "l"); ("o"%byte, B " world")] EOF)
           (B "hello") (B " world")).
  - reflexivity.
  - reflexivity.
Defined.

(** ** Chunked bodies that end early *)

Lemma readChunks_cut_short :
  forall chunks fuel r sl partial sz,
    Forall chunk_ok chunks -> line_ok sl ->
    strconv.ParseInt (sizeToken (fst sl)) 16 = inl sz ->
    0 < sz -> sz + 2 <= maxBufSize ->
    Z.of_nat (length partial) < sz + 2 ->
    bufio.content r = chunks_wire chunks ++ wire sl ++ partial ->
    (length chunks < fuel)%nat ->
    exists r',
      readChunks fuel r
      = (chunks_wire chunks ++ wire sl, r',
         Err (Errorw "could not read full chunk body: %w" []
                (shortReadError partial (bufio.fin r)))).
Proof.
  induction chunks as [|c chunks IH];
    intros fuel r sl partial sz Hok Hl Hp Hpos Hmax Hlen Hc Hf;
    (destruct fuel as [|fuel]; [simpl in Hf; lia|]).
  - simpl in Hc.
    destruct (readAndCopyLine_wire r sl partial Hl Hc) as (r1 & R1 & R2 & R3).
    assert (Hw : wrap64 (sz + 2) = sz + 2)
      by (apply wrap64_small; unfold maxBufSize in Hmax; lia).
    eexists. cbn [readChunks]. erewrite bind_Ok by exact R1.
    fold (sizeToken (fst sl)). rewrite Hp.
    replace (sz =? 0) with false by (symmetry; apply Z.eqb_neq; lia).
    rewrite Hw.
    erewrite bind_Err
      by (apply orWrap_Err; apply copyN_short; [exact Hmax|rewrite R2; exact Hlen]).
    cbn [fst snd chunks_wire map concat app]. rewrite R2, R3, app_nil_r. reflexivity.
  - inversion Hok as [|c0 cs0 Hcok Hrest]; subst.
    destruct Hcok as (Hlc & sz' & Hpc & Hpos' & Hmax' & Hlen').
    unfold chunks_wire in Hc. cbn [map concat] in Hc. unfold chunk_wire at 1 in Hc.
    rewrite <- !app_assoc in Hc.
    destruct (readAndCopyLine_wire r (size_line c) _ Hlc Hc) as (r1 & R1 & R2 & R3).
    assert (Hw : wrap64 (sz' + 2) = sz' + 2) by (apply wrap64_small; lia).
    destruct (copyN_ok (sz' + 2) r1 (chunk_data c) _ R2 Hlen') as (r2 & C1 & C2 & C3).
    destruct (IH fuel r2 sl partial sz Hrest Hl Hp Hpos Hmax Hlen C2) as (r' & Q1).
    { simpl in Hf. lia. }
    exists r'.
    cbn [readChunks]. erewrite bind_Ok by exact R1.
    fold (sizeToken (fst (size_line c))). rewrite Hpc.
    replace (sz' =? 0) with false by (symmetry; apply Z.eqb_neq; lia).
    rewrite Hw. erewrite bind_Ok by (apply orWrap_Ok; exact C1).
    rewrite Q1. cbn [fst snd]. unfold chunks_wire. cbn [map concat].
    unfold chunk_wire. rewrite <- !app_assoc. rewrite C3, R3. reflexivity.
Qed.

Lemma readTrailers_truncated :
  forall trailers fuel r partial,
    Forall header_ok trailers -> ~ In LF partial ->
    bufio.content r = wires trailers ++ partial ->
    (length trailers < fuel)%nat ->
    exists r',
      readTrailers fuel r
      = (wires trailers, r',
         Err (Errorw "could not read line: %w" [] (bufio.fin r))).
Proof.
  induction trailers as [|t trailers IH]; intros fuel r partial Hok Hp Hc Hf;
    (destruct fuel as [|fuel]; [simpl in Hf; lia|]).
  - simpl in Hc. rewrite <- Hc in Hp.
    eexists. cbn [readTrailers].
    erewrite bind_Err by (apply readAndCopyLine_eof; exact Hp). reflexivity.
  - inversion Hok as [|t0 ts0 [Hl Hne] Hrest]; subst.
    unfold wires in Hc. cbn [map concat] in Hc. rewrite <- app_assoc in Hc.
    destruct (readAndCopyLine_wire r t _ Hl Hc) as (r1 & R1 & R2 & R3).
    destruct (IH fuel r1 partial Hrest Hp R2) as (r' & Q1).
    { simpl in Hf. lia. }
    exists r'. cbn [readTrailers]. erewrite bind_Ok by exact R1.
    rewrite (bytes_eqb_nil _ Hne), Q1. cbn [fst snd]. unfold wires. cbn [map concat].
    rewrite R3. reflexivity.
Qed.

(** X10.  A chunk that is cut short, for a chunk size of at most
    [maxBufSize - 2]: after well-formed chunks comes a size line for
    [sz] bytes, and the stream ends before [sz + 2] bytes have followed.
    The output ends with the size line, without the bytes of the
    incomplete chunk, and the error of [io.ReadFull] is wrapped with the
    words "could not read full chunk body". *)
Theorem chunk_cut_short_is_dropped :
  forall c status hdrs blank chunks sl partial sz contentLength,
    head_ok status hdrs blank ->
    ~ noBodyStatus (fst status) ->
    scanHeaders None false (map fst hdrs) = Ok (contentLength, true) ->
    Forall chunk_ok chunks -> line_ok sl ->
    strconv.ParseInt (sizeToken (fst sl)) 16 = inl sz ->
    0 < sz -> sz + 2 <= maxBufSize ->
    Z.of_nat (length partial) < sz + 2 ->
    stream c = head_wire status hdrs blank ++ chunks_wire chunks ++ wire sl ++ partial ->
    ExtractResponse c false
    = (head_wire status hdrs blank ++ chunks_wire chunks ++ wire sl,
       Err (Errorw "could not read full chunk body: %w" []
              (shortReadError partial (conn_err c)))).
Proof.
  intros c status hdrs blank chunks sl partial sz cl (Hs & Hh & Hb) Hnb Hscan
    Hcs Hl Hp Hpos Hmax Hlen Hc.
  unfold head_wire in *. rewrite <- !app_assoc in Hc.
  rewrite <- content_NewReader in Hc.
  destruct (readHead_ok _ status hdrs blank _ cl true Hs Hh Hb Hc Hscan)
    as (r1 & R1 & R2 & R3).
  destruct (readChunks_cut_short chunks (S (length (bufio.content r1))) r1 sl partial sz
              Hcs Hl Hp Hpos Hmax Hlen R2) as (r' & Q1).
  { rewrite R2, length_app. pose proof (chunks_length chunks Hcs). lia. }
  unfold ExtractResponse, extract. erewrite bind_Ok by exact R1.
  cbv beta iota zeta. rewrite (has_body_status _ Hnb). cbn [orb].
  unfold readChunkedBody.
  erewrite bind_Err by (unfold bounded; exact Q1).
  cbn [fst snd]. rewrite R3, <- !app_assoc. reflexivity.
Qed.

Lemma chunk_cut_short_is_dropped_witness :
  ExtractResponse
    (NewStringReader (head_chunked ++ B "a" ++ CRLF ++ B "All go")) false
  = (head_chunked ++ B "a" ++ CRLF,
     Err (Errorw "could not read full chunk body: %w" [] ErrUnexpectedEOF)).
Proof.
  apply (chunk_cut_short_is_dropped
           (NewStringReader (head_chunked ++ B "a" ++ CRLF ++ B "All go"))
           (crlf (B "HTTP/1.1 200 OK")) [crlf (B "Transfer-Encoding: chunked")] CRLF
           [] (crlf (B "a")) (B "All go") 10 None).
  - solve_head.
  - intros (f0 & f1 & fs & code & E1 & E2 & E3).
    vm_compute in E1. inversion E1; subst. vm_compute in E2. inversion E2; subst. lia.
  - reflexivity.
  - constructor.
  - solve_line.
  - reflexivity.
  - lia.
  - unfold maxBufSize. lia.
  - simpl. lia.
  - reflexivity.
Defined.

(** X11.  A chunked body whose end is missing: after the chunks and the
    line of the zero-size chunk, the stream ends before the blank line
    that closes the trailer part.  The output is every complete line;
    the piece of the line that was cut off is not returned, and the
    error is that of the connection, wrapped once with the words "could
    not read line".  A response that ends right after its last-chunk
    line is such a stream. *)
Theorem chunked_body_without_end :
  forall c status hdrs blank chunks last trailers partial contentLength,
    head_ok status hdrs blank ->
    ~ noBodyStatus (fst status) ->
    scanHeaders None false (map fst hdrs) = Ok (contentLength, true) ->
    Forall chunk_ok chunks -> last_chunk_ok last ->
    Forall header_ok trailers -> ~ In LF partial ->
    stream c
    = head_wire status hdrs blank
      ++ chunks_wire chunks ++ wire last ++ wires trailers ++ partial ->
    ExtractResponse c false
    = (head_wire status hdrs blank ++ chunks_wire chunks ++ wire last ++ wires trailers,
       Err (Errorw "could not read line: %w" [] (conn_err c))).
Proof.
  intros c status hdrs blank chunks last trailers partial cl (Hs & Hh & Hb) Hnb Hscan
    Hcs Hlast Hts Hp Hc.
  unfold head_wire in *. rewrite <- !app_assoc in Hc.
  rewrite <- content_NewReader in Hc.
  destruct (readHead_ok _ status hdrs blank _ cl true Hs Hh Hb Hc Hscan)
    as (r1 & R1 & R2 & R3).
  destruct (readChunks_ok chunks (S (length (bufio.content r1))) r1 last _
              Hcs Hlast R2) as (r2 & Q1 & Q2 & Q3).
  { rewrite R2, length_app. pose proof (chunks_length chunks Hcs). lia. }
  destruct (readTrailers_truncated trailers (S (length (bufio.content r2))) r2 partial
              Hts Hp Q2) as (r' & T1).
  { rewrite Q2. apply header_lines_fuel. exact Hts. }
  unfold ExtractResponse, extract. erewrite bind_Ok by exact R1.
  cbv beta iota zeta. rewrite (has_body_status _ Hnb). cbn [orb].
  unfold readChunkedBody.
  erewrite bind_Ok by (unfold bounded; exact Q1).
  unfold bounded. rewrite T1.
  cbn [fst snd]. rewrite Q3, R3, <- !app_assoc. reflexivity.
Qed.

Lemma chunked_body_without_end_witness :
  ExtractResponse
    (NewStringReader (head_chunked ++ B "3" ++ CRLF ++ B "abc" ++ CRLF ++ B "0" ++ CRLF))
    false
  = (head_chunked ++ B "3" ++ CRLF ++ B "abc" ++ CRLF ++ B "0" ++ CRLF,
     Err (Errorw "could not read line: %w" [] EOF)).
Proof.
  apply (chunked_body_without_end
           (NewStringReader
              (head_chunked ++ B "3" ++ CRLF ++ B "abc" ++ CRLF ++ B "0" ++ CRLF))
           (crlf (B "HTTP/1.1 200 OK")) [crlf (B "Transfer-Encoding: chunked")] CRLF
           [mkChunk (crlf (B "3")) (B "abc" ++ CRLF)] (crlf (B "0")) [] [] None).
  - solve_head.
  - intros (f0 & f1 & fs & code & E1 & E2 & E3).
    vm_compute in E1. inversion E1; subst. vm_compute in E2. inversion E2; subst. lia.
  - reflexivity.
  - constructor; [|constructor].
    split; [solve_line|]. exists 3. repeat split; try reflexivity; lia.
  - split; [solve_line|reflexivity].
  - constructor.
  - intros [].
  - reflexivity.
Defined.

(** ** The status code of a status line *)

Lemma spaceWidth_visible :
  forall b s, isVisible b = true -> strings.spaceWidth (b :: s) = O.
Proof.
  intros b s H.
  destruct b; simpl in H; try discriminate H;
    destruct s as [|b2 [|b3 s]]; reflexivity.
Qed.

Lemma fieldsFrom_visible :
  forall tok cur s,
    forallb isVisible tok = true ->
    strings.fieldsFrom 0 cur (tok ++ s) = strings.fieldsFrom 0 (rev tok ++ cur) s.
Proof.
  induction tok as [|b tok IH]; intros cur s H; [reflexivity|].
  cbn [forallb] in H. apply andb_true_iff in H. destruct H as [Hb Ht].
  cbn [app strings.fieldsFrom]. rewrite (spaceWidth_visible b (tok ++ s) Hb).
  rewrite IH by exact Ht. cbn [rev]. rewrite <- app_assoc. reflexivity.
Qed.

Lemma fieldsFrom_space :
  forall cur s,
    strings.fieldsFrom 0 cur (" "%byte :: s)
    = strings.flushField cur (strings.fieldsFrom 0 [] s).
Proof. intros cur s. reflexivity. Qed.

Lemma flushField_rev :
  forall tok fs, tok <> [] -> strings.flushField (rev tok) fs = tok :: fs.
Proof.
  intros tok fs H. unfold strings.flushField.
  destruct (rev tok) eqn:E.
  - apply (f_equal (@rev byte)) in E. rewrite rev_involutive in E. contradiction.
  - rewrite <- E, rev_involutive. reflexivity.
Qed.

(** On a status line that starts with a version and a status code, both
    runs of visible characters, separated by a space and followed by
    nothing or by a space, the second field is the status code. *)
Lemma Fields_status_line :
  forall version statusCode tail,
    version <> [] -> forallb isVisible version = true ->
    statusCode <> [] -> forallb isVisible statusCode = true ->
    tail = [] \/ (exists reason, tail = " "%byte :: reason) ->
    exists fs,
      strings.Fields (version ++ " "%byte :: statusCode ++ tail)
      = version :: statusCode :: fs.
Proof.
  intros v d tail Hv Hvv Hd Hdv Ht. unfold strings.Fields.
  rewrite fieldsFrom_visible by exact Hvv.
  rewrite fieldsFrom_space, app_nil_r, flushField_rev by exact Hv.
  rewrite fieldsFrom_visible by exact Hdv. rewrite app_nil_r.
  destruct Ht as [->|(reason & ->)].
  - exists []. cbn [strings.fieldsFrom]. rewrite flushField_rev by exact Hd. reflexivity.
  - exists (strings.fieldsFrom 0 [] reason).
    rewrite fieldsFrom_space, flushField_rev by exact Hd. reflexivity.
Qed.

Lemma hasNoBodyStatusCode_status_line :
  forall version statusCode tail,
    version <> [] -> forallb isVisible version = true ->
    statusCode <> [] -> forallb isVisible statusCode = true ->
    tail = [] \/ (exists reason, tail = " "%byte :: reason) ->
    hasNoBodyStatusCode (version ++ " "%byte :: statusCode ++ tail)
    = match strconv.Atoi statusCode with
      | inl n => (100 <=? n) && (n <? 200) || (n =? 204) || (n =? 304)
      | inr _ => false
      end.
Proof.
  intros v d tail Hv Hvv Hd Hdv Ht.
  destruct (Fields_status_line v d tail Hv Hvv Hd Hdv Ht) as (fs & E).
  unfold hasNoBodyStatusCode. rewrite E. reflexivity.
Qed.

Lemma isDigit_cases :
  forall b, isDigit b = true ->
    In b [x30; x31; x32; x33; x34; x35; x36; x37; x38; x39].
Proof.
  intros b H. destruct b; simpl in H; try discriminate H; simpl; tauto.
Qed.

(** X12.  On a status line of the usual shape (a version without white
    space, a space, a status code of three digits, and then nothing or a
    space and a reason phrase) [hasNoBodyStatusCode] answers true
    exactly for the codes 100 to 199, 204 and 304.  Neither the version
    nor the reason phrase has any influence. *)
Theorem no_body_codes_on_a_status_line :
  forall version d1 d2 d3 tail,
    version <> [] -> forallb isVisible version = true ->
    isDigit d1 = true -> isDigit d2 = true -> isDigit d3 = true ->
    tail = [] \/ (exists reason, tail = " "%byte :: reason) ->
    hasNoBodyStatusCode (version ++ " "%byte :: [d1; d2; d3] ++ tail)
    = Byte.eqb d1 "1"%byte
      || bytes_eqb [d1; d2; d3] (B "204")
      || bytes_eqb [d1; d2; d3] (B "304").
Proof.
  intros v d1 d2 d3 tail Hv Hvv H1 H2 H3 Ht.
  rewrite hasNoBodyStatusCode_status_line; [|exact Hv|exact Hvv|discriminate| |exact Ht].
  - apply isDigit_cases in H1, H2, H3. simpl in H1, H2, H3.
    repeat match goal with
           | H : _ \/ _ |- _ => destruct H as [H|H]
           | H : False |- _ => destruct H
           end; subst; vm_compute; reflexivity.
  - cbn [forallb]. rewrite !andb_true_iff. repeat split; trivial.
    + destruct d1; simpl in H1; try discriminate H1; reflexivity.
    + destruct d2; simpl in H2; try discriminate H2; reflexivity.
    + destruct d3; simpl in H3; try discriminate H3; reflexivity.
Qed.

Lemma no_body_codes_on_a_status_line_witness :
  hasNoBodyStatusCode (B "HTTP/1.1" ++ " "%byte :: B "304" ++ B " Not Modified") = true.
Proof.
  apply (no_body_codes_on_a_status_line (B "HTTP/1.1") "3"%byte "0"%byte "4"%byte
           (B " Not Modified")).
  - discriminate.
  - reflexivity.
  - reflexivity.
  - reflexivity.
  - reflexivity.
  - right. exists (B "Not Modified"). reflexivity.
Defined.

(** ** The request line: defaults and the choice of the dialer *)

(** X13.  [setDefaultTLSAndPortIfNecessary] completes a request line and
    changes nothing else: afterwards the TLS flag is set and the port is
    not 0; a flag and a port that were given are kept; a missing flag
    becomes true; a missing port (also a port given as 0) becomes 80 when
    the flag was given as false and 443 otherwise; no other field
    changes.  A second call changes nothing. *)
Theorem defaults_complete_the_request :
  forall request : httpline,
    let request' := setDefaultTLSAndPortIfNecessary request in
    (exists t, TLS request' = Some t
               /\ t = match TLS request with Some b => b | None => true end)
    /\ Port request' <> 0
    /\ Port request'
       = (if Port request =? 0
          then match TLS request with Some false => 80 | _ => 443 end
          else Port request)
    /\ (Host request', Req request', Reqat request', Ping request', Resp request',
        Err_ request', Errno request')
       = (Host request, Req request, Reqat request, Ping request, Resp request,
          Err_ request, Errno request)
    /\ setDefaultTLSAndPortIfNecessary request' = request'.
Proof.
  intros [host port tls req reqat ping resp err errno].
  unfold setDefaultTLSAndPortIfNecessary. cbn [TLS Port withTLS].
  destruct (port =? 0) eqn:Ep.
  - apply Z.eqb_eq in Ep. subst port.
    destruct tls as [[|]|]; cbn; repeat split; try discriminate; eexists; split; reflexivity.
  - cbn. rewrite Ep. cbn.
    apply Z.eqb_neq in Ep.
    destruct tls as [[|]|]; cbn; repeat split; try assumption;
      eexists; split; reflexivity.
Qed.

(** X14.  The connection that [doRequest] asks for after completing the
    request: a plain TCP connection exactly when the request line gives
    the TLS flag as false, a TLS connection in every other case; the
    address is the host, a colon and the port in decimal, with the
    default port of the chosen kind of connection when the line gives
    none. *)
Theorem dialer_follows_the_tls_flag :
  forall (net : network) (request : httpline) (deadline : Time),
    getConn net (setDefaultTLSAndPortIfNecessary request) deadline
    = match TLS request with
      | Some false =>
          Dial net deadline (B "tcp")
            (Host request ++ B ":"
             ++ (if Port request =? 0 then B "80" else formatInt (Port request)))
      | _ =>
          DialWithDialer net deadline (B "tcp")
            (Host request ++ B ":"
             ++ (if Port request =? 0 then B "443" else formatInt (Port request)))
      end.
Proof.
  intros net [host port tls req reqat ping resp err errno] deadline.
  unfold getConn, setDefaultTLSAndPortIfNecessary. cbn [TLS Port Host withTLS].
  destruct (port =? 0) eqn:Ep; destruct tls as [[|]|]; cbn [negb withPort TLS Port Host];
    reflexivity.
Qed.

(** ** doRequest *)

Lemma toErrno_codes :
  forall err, In (toErrno err) [10; 11; 20; 30; 31; 99].
Proof.
  intros err. unfold toErrno.
  destruct (errorsIsDeadlineExceeded err); [simpl; auto 10|].
  destruct err as [| |e3|u nf tmo|e|tmo dl|e|e|]; try (simpl; auto 10; fail).
  destruct e3 as [| |e4|u nf tmo|e|tmo dl|e|e|]; try (simpl; auto 10; fail).
  - cbn [implementsNetError]. destruct (timeoutMethod (OpError e4)) as [[|]|]; simpl; auto 10.
  - destruct nf, tmo; simpl; auto 10.
  - destruct (e =? ECONNREFUSED); simpl; auto 10.
  - destruct tmo; simpl; auto 10.
Qed.

Lemma setDefault_Req :
  forall request, Req (setDefaultTLSAndPortIfNecessary request) = Req request.
Proof.
  intros [host port tls req reqat ping resp err errno].
  unfold setDefaultTLSAndPortIfNecessary. cbn [TLS Port withTLS].
  destruct (port =? 0); [destruct (negb _)|]; reflexivity.
Qed.

Lemma setDefault_result_fields :
  forall request,
    Resp (setDefaultTLSAndPortIfNecessary request) = Resp request
    /\ Errno (setDefaultTLSAndPortIfNecessary request) = Errno request
    /\ Err_ (setDefaultTLSAndPortIfNecessary request) = Err_ request.
Proof.
  intros [host port tls req reqat ping resp err errno].
  unfold setDefaultTLSAndPortIfNecessary. cbn [TLS Port withTLS].
  destruct (port =? 0); [destruct (negb _)|]; repeat split.
Qed.

(** The results of the part of [doRequest] that uses the connection. *)
Lemma exchange_cases :
  forall (He : hasError goerr) (Hx : hasError error) clk deadline conn request,
    let result := snd (exchange clk deadline conn request) in
    let events := fst (exchange clk deadline conn request) in
    ~ In EvClose events
    /\ match result with
       | Ok line =>
           (Errno line = Errno request /\ Err_ line = Err_ request
            \/ In (Errno line) [30; 99])
           /\ (Resp line = Resp request
               \/ prefix_of (Resp line) (stream (incoming conn (Req request))))
       | Err _ => False
       | Panic _ => True
       | OutOfFuel => False
       end.
Proof.
  intros He Hx clk deadline conn request. unfold exchange.
  destruct (SetDeadline conn deadline) as [e|].
  { cbn. split; [intuition discriminate|]. split; [right; auto|left; reflexivity]. }
  destruct (Fprint conn (Req request)) as [e|].
  { cbn. split; [intuition discriminate|]. split; [right; auto|left; reflexivity]. }
  cbn [Req withReqat]. unfold doRequest_extract.
  assert (Hp : prefix_of
                 (fst (ExtractResponse (incoming conn (Req request)) (isHEAD (Req request))))
                 (stream (incoming conn (Req request)))).
  { unfold ExtractResponse.
    destruct (copies_extract (isHEAD (Req request))
                (bufio.NewReader (incoming conn (Req request)))) as (t & H1 & H2 & _).
    destruct (extract (isHEAD (Req request))
                (bufio.NewReader (incoming conn (Req request)))) as [[out r1] o1].
    cbn [fst snd] in *. rewrite <- content_NewReader, H1.
    apply prefix_of_app_r. exact H2. }
  pose proof (extract_fuel_ok (incoming conn (Req request)) (isHEAD (Req request))) as Hf.
  destruct (ExtractResponse (incoming conn (Req request)) (isHEAD (Req request)))
    as [resp o]. cbn [fst snd] in *.
  split; [cbn; intuition discriminate|].
  destruct o as [[]|e|msg|]; [| | exact I | congruence].
  - destruct (negb (IsZero _)); cbn; (split; [left; split; reflexivity|right; exact Hp]).
  - destruct (negb (IsZero _)); cbn; (split; [right; auto|right; exact Hp]).
Qed.

(** X15.  The error code and the error text of a result.  When
    [doRequest] returns a line, one of two things holds, and never both.
    Either no step has failed (the connection was opened, the deadline
    set, the request written, and the extraction ended with a nil error),
    and the line carries the error code and the error text of the input
    line, unchanged: a line that comes in with an error code keeps it
    when its request succeeds.  Or a step has failed, and the line carries
    the code and the text of the error of the first step that failed:
    [toErrno(err)] for the dialing, 99 for the deadline, 30 for the
    writing, 99 for the extraction; in each case the code is one of 10,
    11, 20, 30, 31 and 99. *)
Theorem doRequest_error_codes :
  forall (He : hasError goerr) (Hx : hasError error) net timeout clk request events line,
    doRequest net timeout clk request = (events, Ok line) ->
    ((requestSucceeds net timeout clk request
      /\ Errno line = Errno request /\ Err_ line = Err_ request)
     \/ (failedStep net timeout clk request (Errno line) (Err_ line)
         /\ In (Errno line) [10; 11; 20; 30; 31; 99]))
    /\ (requestSucceeds net timeout clk request ->
        forall errno msg, ~ failedStep net timeout clk request errno msg).
Proof.
  intros He Hx net timeout clk request events line E. split.
  - unfold doRequest in E. unfold requestSucceeds, failedStep.
    destruct (setDefault_result_fields request) as (_ & Hno & Herr).
    destruct (getConn net _ _) as [conn|err] eqn:Dial.
    + unfold exchange in E. rewrite !setDefault_Req in E.
      destruct (SetDeadline conn _) as [e|] eqn:Dl.
      { inversion E; subst. cbn [Errno Err_ withError]. right. split; [|simpl; auto 10].
        right. exists conn. split; [first [assumption|reflexivity]|]. left. exists e. auto. }
      destruct (Fprint conn (Req request)) as [e|] eqn:Wr.
      { inversion E; subst. cbn [Errno Err_ withError]. right. split; [|simpl; auto 10].
        right. exists conn. split; [first [assumption|reflexivity]|]. right. split; [first [assumption|reflexivity]|].
        left. exists e. auto. }
      cbn [Req withReqat] in E. rewrite !setDefault_Req in E.
      destruct (doRequest_extract (Req request) (incoming conn (Req request)))
        as [resp o] eqn:Ex.
      destruct o as [[]|e|msg|]; try discriminate E.
      * left. split.
        { exists conn. rewrite Ex. repeat split; first [assumption|reflexivity]. }
        destruct (negb (IsZero _)); inversion E; subst; cbn; split; assumption.
      * right.
        assert (Errno line = 99 /\ Err_ line = Error e) as [H1 H2].
        { destruct (negb (IsZero _)); inversion E; subst; cbn; split; reflexivity. }
        split; [|rewrite H1; simpl; auto 10].
        right. exists conn. split; [first [assumption|reflexivity]|]. right. split; [first [assumption|reflexivity]|].
        right. split; [first [assumption|reflexivity]|]. exists e. rewrite Ex. auto.
    + inversion E; subst. right. cbn [Errno Err_ withError].
      split; [|apply toErrno_codes]. left. exists err. auto.
  - intros (conn & S1 & S2 & S3 & S4) errno msg F. unfold failedStep in F.
    destruct F as [(err & F1 & _)|(conn' & F1 & F)]; [congruence|].
    assert (conn' = conn) by congruence. subst conn'.
    destruct F as [(err & F2 & _)|(_ & F)]; [congruence|].
    destruct F as [(err & F3 & _)|(_ & err & F4 & _)]; congruence.
Qed.

Lemma doRequest_error_codes_witness :
  ((requestSucceeds (H:=example_netError) (H0:=example_ioError)
      example_network 5000000000 example_clock example_request
    /\ Errno example_result = Errno example_request
    /\ Err_ example_result = Err_ example_request)
   \/ (failedStep (H:=example_netError) (H0:=example_ioError)
         example_network 5000000000 example_clock example_request
         (Errno example_result) (Err_ example_result)
       /\ In (Errno example_result) [10; 11; 20; 30; 31; 99]))
  /\ (requestSucceeds (H:=example_netError) (H0:=example_ioError)
        example_network 5000000000 example_clock example_request ->
      forall errno msg,
        ~ failedStep (H:=example_netError) (H0:=example_ioError)
            example_network 5000000000 example_clock example_request errno msg).
Proof.
  apply (doRequest_error_codes example_netError example_ioError example_network
           5000000000 example_clock example_request example_events example_result).
  vm_compute. reflexivity.
Defined.

(** X16.  The response of a result.  When [doRequest] returns a line,
    its response is either that of the input line, unchanged (the request
    was not sent), or a prefix of the bytes that the connection delivered
    in answer to the request: whatever the outcome of the extraction, the
    line never holds bytes that were not received. *)
Theorem doRequest_response_was_received :
  forall (He : hasError goerr) (Hx : hasError error) net timeout clk request events line,
    doRequest net timeout clk request = (events, Ok line) ->
    Resp line = Resp request
    \/ exists conn,
         getConn net (setDefaultTLSAndPortIfNecessary request)
           (Time_Add (startedAt clk) timeout) = inl conn
         /\ prefix_of (Resp line) (stream (incoming conn (Req request))).
Proof.
  intros He Hx net timeout clk request events line E. unfold doRequest in E.
  destruct (setDefault_result_fields request) as (Hresp & _ & _).
  destruct (getConn net _ _) as [conn|err].
  - pose proof (exchange_cases He Hx clk (Time_Add (startedAt clk) timeout) conn
                  (setDefaultTLSAndPortIfNecessary request)) as (_ & K).
    destruct (exchange clk _ conn _) as [evs result]. cbn [fst snd] in K.
    inversion E; subst. destruct K as [_ [K|K]].
    + left. congruence.
    + right. exists conn. split; [reflexivity|].
      rewrite setDefault_Req in K. exact K.
  - inversion E; subst. left. exact Hresp.
Qed.

Lemma doRequest_response_was_received_witness :
  Resp example_result = Resp example_request
  \/ exists conn,
       getConn example_network (setDefaultTLSAndPortIfNecessary example_request)
         (Time_Add (startedAt example_clock) 5000000000) = inl conn
       /\ prefix_of (Resp example_result) (stream (incoming conn (Req example_request))).
Proof.
  apply (doRequest_response_was_received example_netError example_ioError
           example_network 5000000000 example_clock example_request example_events
           example_result).
  vm_compute. reflexivity.
Defined.

(** ** Successful runs depend on the bytes they take alone *)

Lemma bind_Ok_inv :
  forall A C (m : M A) (k : A -> M C) r w r' c,
    bind m k r = (w, r', Ok c) ->
    exists w1 ra a w2,
      m r = (w1, ra, Ok a) /\ k a ra = (w2, r', Ok c) /\ w = w1 ++ w2.
Proof.
  intros A C m k r0 w r' c H. unfold bind in H.
  destruct (m r0) as [[w1 ra] [a|e|msg|]]; try discriminate H.
  destruct (k a ra) as [[w2 rb] o] eqn:E. inversion H; subst.
  exists w1, ra, a, w2. auto.
Qed.

Lemma orWrap_Ok_inv :
  forall A (m : M A) f r w r' a,
    orWrap m f r = (w, r', Ok a) -> m r = (w, r', Ok a).
Proof.
  intros A m f r0 w r' a H. unfold orWrap in H.
  destruct (m r0) as [[w1 ra] [a1|e|msg|]]; try discriminate H; exact H.
Qed.

Lemma framed_ret : forall A (a : A), framed (ret a).
Proof.
  intros A a r1 w r1' a' H r2 rest Hc. unfold ret in *. inversion H; subst.
  exists r2. auto.
Qed.

Lemma framed_lift : forall A (o : res A), framed (lift o).
Proof.
  intros A o r1 w r1' a' H r2 rest Hc. unfold lift in *. inversion H; subst.
  exists r2. auto.
Qed.

Lemma framed_bind :
  forall A C (m : M A) (k : A -> M C),
    framed m -> (forall a, framed (k a)) -> framed (bind m k).
Proof.
  intros A C m k Hm Hk r1 w r1' c H r2 rest Hc.
  destruct (bind_Ok_inv _ _ _ _ _ _ _ _ H) as (w1 & ra & a & w2 & E1 & E2 & ->).
  rewrite <- app_assoc in Hc.
  destruct (Hm _ _ _ _ E1 r2 _ Hc) as (r2a & M1 & M2 & M3).
  destruct (Hk a _ _ _ _ E2 r2a rest M2) as (r2' & K1 & K2 & K3).
  exists r2'. split; [|split; [exact K2|congruence]].
  erewrite bind_Ok by exact M1. rewrite K1. reflexivity.
Qed.

Lemma framed_orWrap :
  forall A (m : M A) f, framed m -> framed (orWrap m f).
Proof.
  intros A m f Hm r1 w r1' a H r2 rest Hc.
  apply orWrap_Ok_inv in H.
  destruct (Hm _ _ _ _ H r2 rest Hc) as (r2' & M1 & M2 & M3).
  exists r2'. split; [apply orWrap_Ok; exact M1|auto].
Qed.

(** A line that was read ends in the first line feed of the reader. *)
Lemma readAndCopyLine_Ok_inv :
  forall r w r' t,
    readAndCopyLine r = (w, r', Ok t) ->
    exists l,
      w = l ++ [LF] /\ ~ In LF l /\ t = strings.TrimRight (l ++ [LF]) CRLF.
Proof.
  intros r0 w r' t H.
  destruct (in_bytes_dec LF (bufio.content r0)) as [Hin|Hno].
  - destruct (in_split_first LF _ Hin) as (l & rest & E & Hl).
    destruct (readAndCopyLine_line r0 l rest Hl E) as (r1 & R1 & _).
    rewrite R1 in H. inversion H; subst. exists l. auto.
  - rewrite (readAndCopyLine_eof r0 Hno) in H. discriminate H.
Qed.

Lemma framed_readAndCopyLine : framed readAndCopyLine.
Proof.
  intros r1 w r1' t H r2 rest Hc.
  destruct (readAndCopyLine_Ok_inv _ _ _ _ H) as (l & -> & Hl & ->).
  rewrite <- app_assoc in Hc. cbn [app] in Hc.
  destruct (readAndCopyLine_line r2 l rest Hl Hc) as (r2' & R1 & R2 & R3).
  exists r2'. auto.
Qed.

(** [io.ReadFull] without error fills the slice. *)
Lemma readFullLoop_Ok_length :
  forall ss need acc b e d r',
    io.readFullLoop need acc b ss e = (d, None, r') ->
    length d = (length acc + need)%nat.
Proof.
  induction ss as [|s ss IH]; intros need acc b e d r' H; cbn [io.readFullLoop] in H.
  - destruct (Nat.leb need (length b)) eqn:E; [|discriminate H].
    apply Nat.leb_le in E. inversion H; subst.
    rewrite length_app, length_firstn. lia.
  - destruct (Nat.leb need (length b)) eqn:E.
    + apply Nat.leb_le in E. inversion H; subst.
      rewrite length_app, length_firstn. lia.
    + apply Nat.leb_gt in E. apply IH in H. rewrite length_app in H. lia.
Qed.

Lemma copyNLoop_Ok_count :
  forall fuel n r w r' n',
    copyNLoop fuel n r = (w, r', Ok n') -> n' = n - Z.of_nat (length w).
Proof.
  induction fuel as [|fuel IH]; intros n r0 w r' n' H; [discriminate H|].
  cbn [copyNLoop] in H. destruct (n >? maxBufSize).
  - destruct (bind_Ok_inv _ _ _ _ _ _ _ _ H) as (w1 & ra & [d e] & w2 & E1 & E2 & ->).
    unfold readWith in E1. destruct (bufio.Read _ r0) as [[d0 e0] rb].
    inversion E1; subst. destruct e as [e|]; [discriminate E2|].
    destruct (bind_Ok_inv _ _ _ _ _ _ _ _ E2) as (w3 & rc & [] & w4 & F1 & F2 & ->).
    unfold write in F1. inversion F1; subst.
    apply IH in F2. cbn [app]. rewrite length_app. lia.
  - unfold ret in H. inversion H; subst. simpl. lia.
Qed.

(** [copyN] without error has written as many bytes as it was asked
    for. *)
Lemma copyN_Ok_length :
  forall n r w r',
    copyN n r = (w, r', Ok tt) -> Z.of_nat (length w) = n.
Proof.
  intros n r0 w r' H. unfold copyN in H. destruct (n =? 0) eqn:E0.
  - apply Z.eqb_eq in E0. unfold ret in H. inversion H; subst. reflexivity.
  - destruct (bind_Ok_inv _ _ _ _ _ _ _ _ H) as (w1 & ra & n' & w2 & E1 & E2 & ->).
    unfold bounded in E1. apply copyNLoop_Ok_count in E1.
    destruct (n' <? 0) eqn:En; [discriminate E2|]. apply Z.ltb_ge in En.
    destruct (bind_Ok_inv _ _ _ _ _ _ _ _ E2) as (w3 & rc & [b e] & w4 & F1 & F2 & ->).
    unfold readWith in F1. destruct (io.ReadFull _ ra) as [[b0 e0] rd0] eqn:RF.
    inversion F1; subst. destruct e as [e|]; [discriminate F2|].
    unfold write in F2. inversion F2; subst.
    unfold io.ReadFull in RF. apply readFullLoop_Ok_length in RF.
    cbn [app length] in *. rewrite length_app. lia.
Qed.

Lemma framed_copyN : forall n, framed (copyN n).
Proof.
  intros n r1 w r1' [] H r2 rest Hc.
  destruct (copyN_ok n r2 w rest Hc (copyN_Ok_length _ _ _ _ H)) as (r2' & Q1 & Q2 & Q3).
  exists r2'. auto.
Qed.

Lemma line_written_length :
  forall r w r' t, readAndCopyLine r = (w, r', Ok t) -> (0 < length w)%nat.
Proof.
  intros r0 w r' t H. destruct (readAndCopyLine_Ok_inv _ _ _ _ H) as (l & -> & _).
  rewrite length_app. simpl. lia.
Qed.

(** The loops: a successful run goes the same way for every iteration
    bound that is large enough for the bytes it takes. *)
Lemma readHeadLoop_framed :
  forall fuel1 contentLength chunked r1 w r1' a,
    readHeadLoop fuel1 contentLength chunked r1 = (w, r1', Ok a) ->
    forall fuel2 r2 rest,
      bufio.content r2 = w ++ rest -> (length w < fuel2)%nat ->
      exists r2',
        readHeadLoop fuel2 contentLength chunked r2 = (w, r2', Ok a)
        /\ bufio.content r2' = rest /\ bufio.fin r2' = bufio.fin r2.
Proof.
  induction fuel1 as [|fuel1 IH]; intros cl ch r1 w r1' a H fuel2 r2 rest Hc Hf;
    [discriminate H|].
  destruct fuel2 as [|fuel2]; [lia|].
  cbn [readHeadLoop] in H |- *.
  destruct (bind_Ok_inv _ _ _ _ _ _ _ _ H) as (w1 & ra & t & w2 & E1 & E2 & ->).
  apply orWrap_Ok_inv in E1. pose proof (line_written_length _ _ _ _ E1) as Hw1.
  rewrite <- app_assoc in Hc.
  destruct (framed_readAndCopyLine _ _ _ _ E1 r2 _ Hc) as (r2a & M1 & M2 & M3).
  erewrite bind_Ok by (apply orWrap_Ok; exact M1).
  destruct (bytes_eqb t []).
  - unfold ret in E2. inversion E2; subst. rewrite app_nil_r in *.
    exists r2a. unfold ret. cbn [fst snd]. rewrite app_nil_r. auto.
  - rewrite lift_bind in E2 |- *.
    destruct (contentLengthHeader cl t) as [cl1| | |]; try discriminate E2.
    rewrite lift_bind in E2 |- *.
    destruct (transferEncodingHeader ch t) as [ch1| | |]; try discriminate E2.
    destruct (IH _ _ _ _ _ _ E2 fuel2 r2a rest M2) as (r2' & K1 & K2 & K3).
    { rewrite length_app in Hf. lia. }
    exists r2'. rewrite K1. cbn [fst snd]. split; [reflexivity|]. split; congruence.
Qed.

Lemma readChunks_framed :
  forall fuel1 r1 w r1' a,
    readChunks fuel1 r1 = (w, r1', Ok a) ->
    forall fuel2 r2 rest,
      bufio.content r2 = w ++ rest -> (length w < fuel2)%nat ->
      exists r2',
        readChunks fuel2 r2 = (w, r2', Ok a)
        /\ bufio.content r2' = rest /\ bufio.fin r2' = bufio.fin r2.
Proof.
  induction fuel1 as [|fuel1 IH]; intros r1 w r1' a H fuel2 r2 rest Hc Hf;
    [discriminate H|].
  destruct fuel2 as [|fuel2]; [lia|].
  cbn [readChunks] in H |- *.
  destruct (bind_Ok_inv _ _ _ _ _ _ _ _ H) as (w1 & ra & t & w2 & E1 & E2 & ->).
  pose proof (line_written_length _ _ _ _ E1) as Hw1.
  rewrite <- app_assoc in Hc.
  destruct (framed_readAndCopyLine _ _ _ _ E1 r2 _ Hc) as (r2a & M1 & M2 & M3).
  erewrite bind_Ok by exact M1.
  destruct (strconv.ParseInt _ 16) as [sz|e]; [|discriminate E2].
  destruct (sz =? 0).
  - unfold ret in E2. inversion E2; subst. rewrite app_nil_r in *.
    exists r2a. unfold ret. cbn [fst snd]. rewrite app_nil_r. auto.
  - destruct (bind_Ok_inv _ _ _ _ _ _ _ _ E2) as (w3 & rb & [] & w4 & F1 & F2 & ->).
    rewrite <- app_assoc in M2.
    destruct (framed_orWrap _ _ _ (framed_copyN _) _ _ _ _ F1 r2a _ M2)
      as (r2b & N1 & N2 & N3).
    destruct (IH _ _ _ _ F2 fuel2 r2b rest N2) as (r2' & K1 & K2 & K3).
    { rewrite !length_app in Hf. lia. }
    exists r2'. erewrite bind_Ok by exact N1. rewrite K1. cbn [fst snd].
    split; [reflexivity|]. split; congruence.
Qed.

Lemma readTrailers_framed :
  forall fuel1 r1 w r1' a,
    readTrailers fuel1 r1 = (w, r1', Ok a) ->
    forall fuel2 r2 rest,
      bufio.content r2 = w ++ rest -> (length w < fuel2)%nat ->
      exists r2',
        readTrailers fuel2 r2 = (w, r2', Ok a)
        /\ bufio.content r2' = rest /\ bufio.fin r2' = bufio.fin r2.
Proof.
  induction fuel1 as [|fuel1 IH]; intros r1 w r1' a H fuel2 r2 rest Hc Hf;
    [discriminate H|].
  destruct fuel2 as [|fuel2]; [lia|].
  cbn [readTrailers] in H |- *.
  destruct (bind_Ok_inv _ _ _ _ _ _ _ _ H) as (w1 & ra & t & w2 & E1 & E2 & ->).
  pose proof (line_written_length _ _ _ _ E1) as Hw1.
  rewrite <- app_assoc in Hc.
  destruct (framed_readAndCopyLine _ _ _ _ E1 r2 _ Hc) as (r2a & M1 & M2 & M3).
  erewrite bind_Ok by exact M1.
  destruct (bytes_eqb t []).
  - unfold ret in E2. inversion E2; subst. rewrite app_nil_r in *.
    exists r2a. unfold ret. cbn [fst snd]. rewrite app_nil_r. auto.
  - destruct (IH _ _ _ _ E2 fuel2 r2a rest M2) as (r2' & K1 & K2 & K3).
    { rewrite length_app in Hf. lia. }
    exists r2'. rewrite K1. cbn [fst snd]. split; [reflexivity|]. split; congruence.
Qed.

Lemma framed_bounded :
  forall A (loop : nat -> M A),
    (forall fuel1 r1 w r1' a,
        loop fuel1 r1 = (w, r1', Ok a) ->
        forall fuel2 r2 rest,
          bufio.content r2 = w ++ rest -> (length w < fuel2)%nat ->
          exists r2',
            loop fuel2 r2 = (w, r2', Ok a)
            /\ bufio.content r2' = rest /\ bufio.fin r2' = bufio.fin r2) ->
    framed (bounded loop).
Proof.
  intros A loop Hl r1 w r1' a H r2 rest Hc. unfold bounded in *.
  apply (Hl _ _ _ _ _ H); [exact Hc|]. rewrite Hc, length_app. lia.
Qed.

Lemma framed_readHead : framed readHead.
Proof.
  unfold readHead. apply framed_bind.
  - apply framed_orWrap, framed_readAndCopyLine.
  - intros t. apply framed_bind.
    + apply framed_bounded. intros fuel1. apply readHeadLoop_framed.
    + intros p. apply framed_ret.
Qed.

Lemma framed_readChunkedBody : framed readChunkedBody.
Proof.
  unfold readChunkedBody. apply framed_bind.
  - apply framed_bounded. exact readChunks_framed.
  - intros _. apply framed_bounded. exact readTrailers_framed.
Qed.

(** A successful extraction goes the same way on a second reader that
    holds the bytes it returned, followed either by nothing before the
    end of the stream, or by what the first reader was left with, before
    the same final error. *)
Lemma extract_framed :
  forall headRequest r1 out r1',
    extract headRequest r1 = (out, r1', Ok tt) ->
    forall r2 rest,
      bufio.content r2 = out ++ rest ->
      (rest = [] /\ bufio.fin r2 = EOF)
      \/ (rest = bufio.content r1' /\ bufio.fin r2 = bufio.fin r1) ->
      exists r2', extract headRequest r2 = (out, r2', Ok tt).
Proof.
  intros hr r1 out r1' H r2 rest Hc Hrest. unfold extract in H |- *.
  destruct (bind_Ok_inv _ _ _ _ _ _ _ _ H) as (w1 & ra & [[cl ch] nb] & w2 & E1 & E2 & ->).
  rewrite <- app_assoc in Hc.
  destruct (framed_readHead _ _ _ _ E1 r2 _ Hc) as (r2a & M1 & M2 & M3).
  assert (Hfin : bufio.fin ra = bufio.fin r1).
  { destruct (copies_readHead r1) as (t & C1 & _ & C3). rewrite E1 in C1, C3.
    cbn [fst snd] in *. rewrite <- (C3 _ eq_refl) in C1.
    destruct (framed_readHead _ _ _ _ E1 r1 _ C1) as (rx & X1 & _ & X3).
    rewrite E1 in X1. inversion X1; subst. exact X3. }
  erewrite bind_Ok by exact M1. cbv beta iota zeta in E2 |- *.
  destruct (hr || nb).
  { unfold ret in E2 |- *. inversion E2; subst. eexists. reflexivity. }
  destruct ch.
  { destruct (framed_readChunkedBody _ _ _ _ E2 r2a rest M2) as (r2' & K1 & _).
    exists r2'. rewrite K1. reflexivity. }
  destruct cl as [n|].
  { destruct (framed_copyN n _ _ _ _ E2 r2a rest M2) as (r2' & K1 & _).
    exists r2'. rewrite K1. reflexivity. }
  unfold ioCopy, bufio.WriteTo in E2 |- *.
  destruct (is_EOF (bufio.fin ra)) eqn:Ef; [|discriminate E2].
  inversion E2; subst. rewrite M2, M3.
  assert (Hr : rest = [] /\ is_EOF (bufio.fin r2) = true).
  { destruct Hrest as [[-> ->]|[-> ->]]; [auto|].
    split; [reflexivity|]. rewrite <- Hfin. exact Ef. }
  destruct Hr as [-> ->]. rewrite app_nil_r. eexists. reflexivity.
Qed.

Lemma stream_NewStringReader : forall s, stream (NewStringReader s) = s.
Proof. intros [|b s]; [reflexivity|]. cbn. rewrite app_nil_r. reflexivity. Qed.

(** X18.  The result of a successful extraction does not depend on how
    the connection cuts its bytes into reads: when [ExtractResponse]
    returns a nil error on one connection, it returns the same string
    and a nil error on every connection that delivers the same bytes and
    ends with the same error. *)
Theorem success_is_independent_of_the_reads :
  forall c1 c2 headRequest out,
    ExtractResponse c1 headRequest = (out, Ok tt) ->
    stream c2 = stream c1 -> conn_err c2 = conn_err c1 ->
    ExtractResponse c2 headRequest = (out, Ok tt).
Proof.
  intros c1 c2 hr out H Hs He. unfold ExtractResponse in H.
  destruct (extract hr (bufio.NewReader c1)) as [[o1 r1'] res1] eqn:E.
  inversion H; subst.
  destruct (copies_extract hr (bufio.NewReader c1)) as (t & C1 & _ & C3).
  rewrite E in C1, C3. cbn [fst snd] in *. rewrite <- (C3 _ eq_refl) in C1.
  destruct (extract_framed _ _ _ _ E (bufio.NewReader c2) (bufio.content r1'))
    as (r2' & K).
  - rewrite content_NewReader, Hs, <- content_NewReader. exact C1.
  - right. split; [reflexivity|]. exact He.
  - eapply ExtractResponse_extract. exact K.
Qed.

Lemma success_is_independent_of_the_reads_witness :
  ExtractResponse
    (mkConn [("H"%byte, B "TTP/1.1 200 OK" ++ [CR]);
             (LF, B "Content-Length: 10" ++ CRLF ++ CRLF ++ B "All ");
             ("g"%byte, B "ood." ++ [LF])] EOF) false
  = (response_200_length_10, Ok tt).
Proof.
  apply (success_is_independent_of_the_reads
           (NewStringReader response_200_length_10)
           (mkConn [("H"%byte, B "TTP/1.1 200 OK" ++ [CR]);
                    (LF, B "Content-Length: 10" ++ CRLF ++ CRLF ++ B "All ");
                    ("g"%byte, B "ood." ++ [LF])] EOF) false).
  - vm_compute. reflexivity.
  - vm_compute. reflexivity.
  - reflexivity.
Defined.

(** X19.  What a successful extraction returns is a response that
    extracts to itself: when [ExtractResponse] returns a string with a nil
    error, then [ExtractResponse] on that string alone, with the same
    flag, returns it again with a nil error.  The output of a successful
    extraction is a complete response. *)
Theorem extracted_response_extracts_to_itself :
  forall c headRequest out,
    ExtractResponse c headRequest = (out, Ok tt) ->
    ExtractResponse (NewStringReader out) headRequest = (out, Ok tt).
Proof.
  intros c hr out H. unfold ExtractResponse in H.
  destruct (extract hr (bufio.NewReader c)) as [[o1 r1'] res1] eqn:E.
  inversion H; subst.
  destruct (extract_framed _ _ _ _ E (bufio.NewReader (NewStringReader out)) [])
    as (r2' & K).
  - rewrite content_NewReader, stream_NewStringReader, app_nil_r. reflexivity.
  - left. split; reflexivity.
  - eapply ExtractResponse_extract. exact K.
Qed.

Lemma extracted_response_extracts_to_itself_witness :
  ExtractResponse (NewStringReader (head_chunked_length_1 ++ body_chunked)) false
  = (head_chunked_length_1 ++ body_chunked, Ok tt).
Proof.
  apply (extracted_response_extracts_to_itself
           (NewStringReader (head_chunked_length_1 ++ body_chunked ++ B "foo")) false).
  vm_compute. reflexivity.
Defined.

(** ** A body that is shorter than announced *)

Lemma Read_length :
  forall k r d e r', bufio.Read k r = (d, e, r') -> (length d <= k)%nat.
Proof.
  intros k r0 d e r' H. unfold bufio.Read in H.
  destruct k as [|k]; [inversion H; simpl; lia|].
  destruct (bufio.buf r0) as [|b0 b].
  - destruct (bufio.rd r0) as [|s ss].
    + inversion H; subst. simpl. lia.
    + assert (d = firstn (S k) (seg_bytes s)) by congruence. subst d.
      apply firstn_le_length.
  - assert (d = firstn (S k) (b0 :: b)) by congruence. subst d.
    apply firstn_le_length.
Qed.

(** The loop of [copyN] started with a positive count does not panic,
    and the count it leaves is positive. *)
Lemma copyNLoop_positive :
  forall fuel n r,
    0 < n ->
    match snd (copyNLoop fuel n r) with
    | Ok n' => 0 < n'
    | Panic _ => False
    | _ => True
    end.
Proof.
  induction fuel as [|fuel IH]; intros n r0 Hn; [exact I|].
  cbn [copyNLoop]. destruct (n >? maxBufSize) eqn:E; [|exact Hn].
  apply Z.gtb_lt in E. unfold bind at 1. unfold readWith.
  destruct (bufio.Read (Z.to_nat maxBufSize) r0) as [[d e] r1] eqn:R.
  apply Read_length in R. destruct e as [e|]; [exact I|].
  unfold bind, write.
  specialize (IH (n - Z.of_nat (length d)) r1).
  destruct (copyNLoop fuel (n - Z.of_nat (length d)) r1) as [[w2 r2] o2].
  cbn [snd] in *. apply IH. unfold maxBufSize in *. lia.
Qed.

Lemma copyN_positive_no_panic :
  forall n r msg, 0 < n -> snd (copyN n r) <> Panic msg.
Proof.
  intros n r0 msg Hn. unfold copyN.
  replace (n =? 0) with false by (symmetry; apply Z.eqb_neq; lia).
  unfold bind at 1. unfold bounded.
  pose proof (copyNLoop_positive (S (length (bufio.content r0))) n r0 Hn) as P.
  destruct (copyNLoop _ n r0) as [[w1 r1] [n'| | |]]; cbn [snd] in *;
    try discriminate; try contradiction.
  replace (n' <? 0) with false by (symmetry; apply Z.ltb_ge; lia).
  unfold bind, readWith. destruct (io.ReadFull _ r1) as [[b [e|]] r2];
    cbn; discriminate.
Qed.

Lemma copyN_short_is_error :
  forall n r,
    Z.of_nat (length (bufio.content r)) < n ->
    exists e, snd (copyN n r) = Err e.
Proof.
  intros n r0 H.
  pose proof (within_copyN n r0) as [Hfuel _].
  pose proof (copies_copyN n r0) as (t & C1 & _ & C3).
  assert (Hp : forall msg, snd (copyN n r0) <> Panic msg).
  { intros msg. apply copyN_positive_no_panic. lia. }
  destruct (copyN n r0) as [[w r'] [[]|e|msg|]] eqn:E; cbn [fst snd] in *.
  - pose proof (copyN_Ok_length _ _ _ _ E) as Hl.
    rewrite <- (C3 _ eq_refl) in C1. rewrite C1, length_app in H. lia.
  - exists e. reflexivity.
  - exfalso. apply (Hp msg). reflexivity.
  - congruence.
Qed.

(** X20.  A body that is shorter than its Content-Length is never
    accepted, whatever the length: when the stream ends before [L] body
    bytes have come, [ExtractResponse] returns an error, also when the
    connection was closed in an orderly way. *)
Theorem body_shorter_than_announced_is_an_error :
  forall c status hdrs blank body L,
    head_ok status hdrs blank ->
    ~ noBodyStatus (fst status) ->
    scanHeaders None false (map fst hdrs) = Ok (Some L, false) ->
    Z.of_nat (length body) < L ->
    stream c = head_wire status hdrs blank ++ body ->
    exists e, snd (ExtractResponse c false) = Err e.
Proof.
  intros c status hdrs blank body L (Hs & Hh & Hb) Hnb Hscan Hlen Hc.
  unfold head_wire in *. rewrite <- !app_assoc in Hc.
  rewrite <- content_NewReader in Hc.
  destruct (readHead_ok _ status hdrs blank body (Some L) false Hs Hh Hb Hc Hscan)
    as (r1 & R1 & R2 & R3).
  destruct (copyN_short_is_error L r1) as (e & He); [rewrite R2; exact Hlen|].
  exists e. unfold ExtractResponse, extract. erewrite bind_Ok by exact R1.
  cbv beta iota zeta. rewrite (has_body_status _ Hnb). cbn [orb].
  destruct (copyN L r1) as [[w r'] o]. cbn [fst snd] in *. exact He.
Qed.

Lemma body_shorter_than_announced_is_an_error_witness :
  exists e,
    snd (ExtractResponse
           (NewStringReader
              (B "HTTP/1.1 200 OK" ++ CRLF ++ B "Content-Length: 2000" ++ CRLF ++ CRLF
               ++ B "All good.")) false) = Err e.
Proof.
  apply (body_shorter_than_announced_is_an_error
           (NewStringReader
              (B "HTTP/1.1 200 OK" ++ CRLF ++ B "Content-Length: 2000" ++ CRLF ++ CRLF
               ++ B "All good."))
           (crlf (B "HTTP/1.1 200 OK")) [crlf (B "Content-Length: 2000")] CRLF
           (B "All good.") 2000).
  - solve_head.
  - intros (f0 & f1 & fs & code & E1 & E2 & E3).
    vm_compute in E1. inversion E1; subst. vm_compute in E2. inversion E2; subst. lia.
  - reflexivity.
  - simpl. lia.
  - reflexivity.
Defined.

(** ** Panics *)

Lemma panics_within_bind :
  forall A C P (m : M A) (k : A -> M C) r0,
    panics_within P (m r0) ->
    (forall w r1 a, m r0 = (w, r1, Ok a) -> panics_within P (k a r1)) ->
    panics_within P (bind m k r0).
Proof.
  intros A C P m k r0 Hm Hk msg. unfold bind.
  destruct (m r0) as [[w1 r1] [a|e|msg1|]] eqn:E; cbn [snd]; try discriminate.
  - specialize (Hk w1 r1 a eq_refl msg).
    destruct (k a r1) as [[w2 r2] o2]. exact Hk.
  - intros H. apply Hm. cbn [snd]. congruence.
Qed.

Lemma panics_within_orWrap :
  forall A P (m : M A) f r0,
    panics_within P (m r0) -> panics_within P (orWrap m f r0).
Proof.
  intros A P m f r0 H msg. unfold orWrap.
  destruct (m r0) as [[w r1] [a|e|msg1|]]; cbn [snd] in *; try discriminate.
  apply H.
Qed.

Lemma no_panic_readAndCopyLine :
  forall P r0, panics_within P (readAndCopyLine r0).
Proof.
  intros P r0 msg.
  destruct (readAndCopyLine_cases r0) as [(w & r1 & t & E & _)|(r1 & e & E & _)];
    rewrite E; discriminate.
Qed.

Lemma no_panic_copyNLoop :
  forall P fuel n r0, panics_within P (copyNLoop fuel n r0).
Proof.
  intros P. induction fuel as [|fuel IH]; intros n r0; [intros msg; discriminate|].
  cbn [copyNLoop]. destruct (n >? maxBufSize); [|intros msg; discriminate].
  apply panics_within_bind.
  - intros msg. unfold readWith. destruct (bufio.Read _ r0) as [[d e] r1]. discriminate.
  - intros w r1 [d [e|]] _; [intros msg; discriminate|].
    apply panics_within_bind; [intros msg; discriminate|].
    intros. apply IH.
Qed.

Lemma panics_copyN :
  forall n r0,
    panics_within (fun msg => msg = "makeslice: len out of range"%string) (copyN n r0).
Proof.
  intros n r0. unfold copyN. destruct (n =? 0); [intros msg; discriminate|].
  apply panics_within_bind.
  - unfold bounded. apply no_panic_copyNLoop.
  - intros w r1 n' _. destruct (n' <? 0).
    + intros msg H. unfold panic in H. cbn [snd] in H. congruence.
    + apply panics_within_bind.
      * intros msg. unfold readWith. destruct (io.ReadFull _ r1) as [[d e] r2].
        discriminate.
      * intros w2 r2 [b [e|]] _ msg; discriminate.
Qed.

(** The index expression [strings.SplitN(line, ":", 2)[1]] is evaluated
    only for lines that hold a colon: the header branches do not
    panic. *)
Lemma contentLengthHeader_no_panic :
  forall contentLength t msg, contentLengthHeader contentLength t <> Panic msg.
Proof.
  intros cl t msg. unfold contentLengthHeader.
  destruct (isContentLength t) eqn:E; [|discriminate].
  destruct cl; [discriminate|].
  rewrite (afterColon_ContentLength t E).
  destruct (strconv.ParseInt _ 10); discriminate.
Qed.

Lemma no_panic_readHeadLoop :
  forall P fuel contentLength chunked r0,
    panics_within P (readHeadLoop fuel contentLength chunked r0).
Proof.
  intros P. induction fuel as [|fuel IH]; intros cl ch r0; [intros msg; discriminate|].
  cbn [readHeadLoop]. apply panics_within_bind.
  - apply panics_within_orWrap, no_panic_readAndCopyLine.
  - intros w r1 t _. destruct (bytes_eqb t []); [intros msg; discriminate|].
    apply panics_within_bind.
    + intros msg H. unfold lift in H. cbn [snd] in H.
      exfalso. exact (contentLengthHeader_no_panic _ _ _ H).
    + intros w1 r2 cl1 _. apply panics_within_bind.
      * intros msg H. unfold lift in H. cbn [snd] in H.
        rewrite transferEncodingHeader_value in H. discriminate H.
      * intros. apply IH.
Qed.

Lemma no_panic_readHead : forall P r0, panics_within P (readHead r0).
Proof.
  intros P r0. unfold readHead. apply panics_within_bind.
  - apply panics_within_orWrap, no_panic_readAndCopyLine.
  - intros w r1 t _. apply panics_within_bind.
    + unfold bounded. apply no_panic_readHeadLoop.
    + intros w2 r2 p _ msg. discriminate.
Qed.

Lemma panics_readChunks :
  forall fuel r0,
    panics_within (fun msg => msg = "makeslice: len out of range"%string)
      (readChunks fuel r0).
Proof.
  induction fuel as [|fuel IH]; intros r0; [intros msg; discriminate|].
  cbn [readChunks]. apply panics_within_bind; [apply no_panic_readAndCopyLine|].
  intros w r1 t _.
  destruct (strconv.ParseInt _ 16) as [sz|e]; [|intros msg; discriminate].
  destruct (sz =? 0); [intros msg; discriminate|].
  apply panics_within_bind; [apply panics_within_orWrap, panics_copyN|].
  intros. apply IH.
Qed.

Lemma no_panic_readTrailers :
  forall P fuel r0, panics_within P (readTrailers fuel r0).
Proof.
  intros P. induction fuel as [|fuel IH]; intros r0; [intros msg; discriminate|].
  cbn [readTrailers]. apply panics_within_bind; [apply no_panic_readAndCopyLine|].
  intros w r1 t _. destruct (bytes_eqb t []); [intros msg; discriminate|apply IH].
Qed.

(** [strings.Split] never returns an empty slice, so that the index
    expressions [fields[len(fields)-1]] of [readHead] and
    [strings.Split(chunk, ";")[0]] of [readChunkedBody] are in range. *)
Lemma Split_nonempty : forall s sep, strings.Split s sep <> [].
Proof.
  intros s sep. destruct s as [|c s]; cbn [strings.Split]; [discriminate|].
  destruct (Byte.eqb c sep); [discriminate|].
  destruct (strings.Split s sep); discriminate.
Qed.

Lemma panics_extract :
  forall headRequest r0,
    panics_within
      (fun msg => headRequest = false /\ msg = "makeslice: len out of range"%string)
      (extract headRequest r0).
Proof.
  intros hr r0. unfold extract. apply panics_within_bind; [apply no_panic_readHead|].
  intros w r1 [[cl ch] nb] _.
  destruct hr; cbn [orb]; [intros m; discriminate|].
  destruct nb; [intros m; discriminate|].
  destruct ch.
  - unfold readChunkedBody. apply panics_within_bind.
    + intros m Hm. split; [reflexivity|].
      exact (panics_readChunks _ _ m Hm).
    + intros. unfold bounded. apply no_panic_readTrailers.
  - destruct cl as [n|].
    + intros m Hm. split; [reflexivity|]. exact (panics_copyN _ _ m Hm).
    + intros m. unfold ioCopy, bufio.WriteTo.
      destruct (is_EOF _); discriminate.
Qed.

(** X21.  The only panic of [ExtractResponse] is that of
    [make([]byte, n)] with a negative [n] in [copyN], and it does not
    occur for a HEAD request.  In particular the index expression
    [strings.SplitN(line, ":", 2)[1]] of [readHead], which panics on a
    line without a colon, is only reached for lines that hold one. *)
Theorem the_only_panic_is_a_negative_length :
  forall c headRequest msg,
    snd (ExtractResponse c headRequest) = Panic msg ->
    headRequest = false /\ msg = "makeslice: len out of range"%string.
Proof.
  intros c hr msg H. apply (panics_extract hr (bufio.NewReader c)).
  unfold ExtractResponse in H.
  destruct (extract hr (bufio.NewReader c)) as [[out r1] o]. exact H.
Qed.

Lemma the_only_panic_is_a_negative_length_witness :
  false = false /\ "makeslice: len out of range"%string = "makeslice: len out of range"%string.
Proof.
  apply (the_only_panic_is_a_negative_length
           (NewStringReader (head_negative_length ++ B "hello")) false).
  vm_compute. reflexivity.
Defined.

(** ** Line ends *)

Lemma forallb_cut_CR_LF :
  forall k, forallb (strings.inCutset CRLF) (repeat CR k ++ [LF]) = true.
Proof. induction k as [|k IH]; [reflexivity|]. cbn [repeat app forallb]. rewrite IH. reflexivity. Qed.

Lemma not_In_repeat_CR : forall k, ~ In LF (repeat CR k).
Proof.
  intros k H. apply repeat_spec in H. discriminate H.
Qed.

(** X22.  A line ends at the first line feed, and every carriage return
    that stands right before it belongs to the line end: for a text that
    holds no line feed and does not end in a carriage return, followed by
    any number of carriage returns (none, one, or more) and a line feed,
    [readAndCopyLine] copies these bytes as they are and returns the text.
    A bare line feed is a line end, and a line of carriage returns alone
    is a blank line. *)
Theorem line_end_is_any_run_of_CR_and_LF :
  forall r t k rest,
    text_ok t ->
    bufio.content r = t ++ repeat CR k ++ LF :: rest ->
    exists r',
      readAndCopyLine r = (t ++ repeat CR k ++ [LF], r', Ok t)
      /\ bufio.content r' = rest.
Proof.
  intros r0 t k rest Ht Hc.
  assert (Hl : ~ In LF (t ++ repeat CR k)).
  { intros H. apply in_app_or in H. destruct H as [H|H].
    - destruct Ht as [Ht _]. contradiction.
    - exact (not_In_repeat_CR k H). }
  rewrite app_assoc in Hc.
  destruct (readAndCopyLine_line r0 _ rest Hl Hc) as (r' & R1 & R2 & _).
  exists r'. split; [|exact R2].
  rewrite R1, <- !app_assoc.
  rewrite (TrimRight_app_cut t _ CRLF (forallb_cut_CR_LF k)).
  rewrite (TrimRight_text t Ht). reflexivity.
Qed.

Lemma line_end_is_any_run_of_CR_and_LF_witness :
  exists r',
    readAndCopyLine (bufio.NewReader (NewStringReader (B "Host: x" ++ [CR; CR; LF] ++ B "rest")))
    = (B "Host: x" ++ [CR; CR; LF], r', Ok (B "Host: x"))
    /\ bufio.content r' = B "rest".
Proof.
  apply (line_end_is_any_run_of_CR_and_LF
           (bufio.NewReader (NewStringReader (B "Host: x" ++ [CR; CR; LF] ++ B "rest")))
           (B "Host: x") 2 (B "rest")).
  - solve_text.
  - reflexivity.
Defined.

(** ** The time stamp of the first byte *)

Lemma readAt_is_kept :
  forall (calls : list (nat * Time)) (t : timedReader (list (bytes * option error))),
    IsZero (readAt t) = false ->
    readAt (snd (timedReads t calls)) = readAt t.
Proof.
  induction calls as [|[p now] calls IH]; intros t H; [reflexivity|].
  cbn [timedReads]. rewrite timedReader_Read_result.
  match goal with |- context [timedReads ?t' calls] =>
    specialize (IH t'); destruct (timedReads t' calls) as [results t''] end.
  cbn [snd readAt] in *. rewrite H in IH. cbn [andb] in IH. rewrite IH; [reflexivity|exact H].
Qed.

Lemma no_byte_no_stamp :
  forall (calls : list (nat * Time)) script ra,
    Forall (fun x : bytes * option error => fst x = []) script ->
    readAt (snd (timedReads (mkTimedReader script ra) calls)) = ra.
Proof.
  induction calls as [|[p now] calls IH]; intros script ra H; [reflexivity|].
  cbn [timedReads]. rewrite timedReader_Read_result. cbn [r readAt].
  destruct script as [|[data err] script]; cbn [io_Read scriptedReader fst snd].
  - cbn [length Nat.ltb Nat.leb]. rewrite andb_false_r.
    specialize (IH [] ra H).
    destruct (timedReads (mkTimedReader [] ra) calls) as [results t'']. exact IH.
  - inversion H as [|x xs Hd Hs]; subst. cbn [fst] in Hd. subst data.
    rewrite firstn_nil. cbn [length Nat.ltb Nat.leb]. rewrite andb_false_r.
    specialize (IH script ra Hs).
    destruct (timedReads (mkTimedReader script ra) calls) as [results t'']. exact IH.
Qed.

(** X23.  The time stamp that [doRequest] finds in its [timedReader]:
    when the connection is read at least once, with a slice that is not
    empty, the stamp is the clock reading of the first [Read] if the
    connection delivers any byte at all, and the zero time if it delivers
    none, however many reads follow. *)
Theorem time_stamp_is_that_of_the_first_read :
  forall (c : conn) (clk : clock) (p : nat) (calls : list (nat * Time)),
    (0 < p)%nat ->
    IsZero (firstReadAt clk) = false ->
    readAt (snd (timedReads (mkTimedReader (script_of c) 0)
                   ((p, firstReadAt clk) :: calls)))
    = readAtAfter c clk.
Proof.
  intros c clk p calls Hp Hnow. unfold readAtAfter, script_of.
  destruct (segs c) as [|s ss].
  - apply no_byte_no_stamp. repeat constructor.
  - cbn [map app timedReads]. rewrite timedReader_Read_result.
    cbn [r readAt io_Read scriptedReader fst snd].
    replace (Nat.ltb 0 (length (firstn p (seg_bytes s)))) with true.
    2:{ symmetry. apply Nat.ltb_lt. destruct p as [|p]; [lia|].
        unfold seg_bytes. cbn [firstn length]. lia. }
    cbn [IsZero Z.eqb andb].
    match goal with |- context [timedReads ?t' calls] =>
      pose proof (readAt_is_kept calls t' Hnow) as K;
      destruct (timedReads t' calls) as [results t''] end.
    exact K.
Qed.

Lemma time_stamp_is_that_of_the_first_read_witness :
  readAt (snd (timedReads
                 (mkTimedReader (script_of (NewStringReader (head_200_length_10 ++ B "All"))) 0)
                 [(4096%nat, firstReadAt example_clock); (4096%nat, 4000000)]))
  = readAtAfter (NewStringReader (head_200_length_10 ++ B "All")) example_clock.
Proof.
  apply (time_stamp_is_that_of_the_first_read
           (NewStringReader (head_200_length_10 ++ B "All")) example_clock 4096
           [(4096%nat, 4000000)]).
  - lia.
  - reflexivity.
Defined.

(** ** doRequest returns *)

(** X24.  [doRequest] returns a line on every way through it, with one
    exception: the panic of [copyN] on a negative length, which only a
    response to a request that is not a HEAD request can cause.  When the
    connection cannot be opened, the deadline cannot be set or the
    request cannot be written, and for every HEAD request, a line is
    returned. *)
Theorem doRequest_returns_a_line :
  forall (He : hasError goerr) (Hx : hasError error) net timeout clk request,
    match snd (doRequest net timeout clk request) with
    | Ok _ => True
    | Panic msg =>
        isHEAD (Req request) = false
        /\ msg = "makeslice: len out of range"%string
    | _ => False
    end.
Proof.
  intros He Hx net timeout clk request. unfold doRequest.
  destruct (getConn net _ _) as [conn|err]; [|exact I].
  unfold exchange.
  destruct (SetDeadline conn _) as [e|]; [exact I|].
  destruct (Fprint conn _) as [e|]; [exact I|].
  cbn [Req withReqat]. rewrite setDefault_Req. unfold doRequest_extract.
  pose proof (panics_extract (isHEAD (Req request))
                (bufio.NewReader (incoming conn (Req request)))) as Hp.
  pose proof (extract_fuel_ok (incoming conn (Req request)) (isHEAD (Req request))) as Hf.
  unfold ExtractResponse in *.
  destruct (extract (isHEAD (Req request))
              (bufio.NewReader (incoming conn (Req request)))) as [[resp r1] o].
  cbn [fst snd] in *.
  destruct o as [[]|e|msg|]; cbn [snd]; try exact I.
  - apply Hp. reflexivity.
  - congruence.
Qed.

(** ** The ping *)

(** X25.  The ping of a result.  When the request has been written and
    the connection delivers at least one byte, the line that [doRequest]
    returns, whether the extraction succeeds or fails, carries the time
    of the request, and its ping is the time from then to the end of the
    first read, in whole milliseconds, rounded down (for a clock that does
    not go backwards and a wait that fits a [time.Duration]). *)
Theorem ping_is_the_time_to_the_first_read :
  forall (He : hasError goerr) (Hx : hasError error) net timeout clk request conn
         events line,
    getConn net (setDefaultTLSAndPortIfNecessary request)
      (Time_Add (startedAt clk) timeout) = inl conn ->
    SetDeadline conn (Time_Add (startedAt clk) timeout) = None ->
    Fprint conn (Req request) = None ->
    segs (incoming conn (Req request)) <> [] ->
    IsZero (firstReadAt clk) = false ->
    sentAt clk <= firstReadAt clk < sentAt clk + 2 ^ 63 ->
    doRequest net timeout clk request = (events, Ok line) ->
    Reqat line = Some (sentAt clk)
    /\ Ping line * 1000000 <= firstReadAt clk - sentAt clk < (Ping line + 1) * 1000000.
Proof.
  intros He Hx net timeout clk request conn events line Hconn Hdl Hw Hseg Hnz Hclk E.
  unfold doRequest in E. rewrite Hconn in E. unfold exchange in E.
  rewrite Hdl in E. rewrite setDefault_Req in E. rewrite Hw in E.
  cbn [Req withReqat] in E. rewrite setDefault_Req in E.
  destruct (doRequest_extract (Req request) (incoming conn (Req request))) as [resp o].
  unfold readAtAfter in E.
  destruct (segs (incoming conn (Req request))) as [|s ss]; [congruence|].
  rewrite Hnz in E. cbn [negb] in E.
  assert (Hsub : Time_Sub (firstReadAt clk) (sentAt clk) = firstReadAt clk - sentAt clk).
  { unfold Time_Sub.
    replace (firstReadAt clk - sentAt clk <? - 2 ^ 63) with false
      by (symmetry; apply Z.ltb_ge; lia).
    replace (firstReadAt clk - sentAt clk >? 2 ^ 63 - 1) with false
      by (symmetry; rewrite Z.gtb_ltb; apply Z.ltb_ge; lia).
    reflexivity. }
  assert (Hms : forall d, 0 <= d ->
                  Milliseconds d * 1000000 <= d < (Milliseconds d + 1) * 1000000).
  { intros d Hd. unfold Milliseconds. rewrite Z.quot_div_nonneg by lia.
    pose proof (Z.div_mod d 1000000 ltac:(lia)).
    pose proof (Z.mod_pos_bound d 1000000 ltac:(lia)). lia. }
  rewrite Hsub in E.
  destruct o as [[]|e|msg|]; inversion E; subst; cbn [Reqat Ping withError withPing withResp];
    (split; [reflexivity|apply Hms; lia]).
Qed.

Lemma ping_is_the_time_to_the_first_read_witness :
  Reqat example_result = Some (sentAt example_clock)
  /\ Ping example_result * 1000000
     <= firstReadAt example_clock - sentAt example_clock
     < (Ping example_result + 1) * 1000000.
Proof.
  apply (ping_is_the_time_to_the_first_read example_netError example_ioError
           example_network 5000000000 example_clock example_request example_conn
           example_events example_result).
  - reflexivity.
  - reflexivity.
  - reflexivity.
  - discriminate.
  - reflexivity.
  - vm_compute. split; [discriminate|reflexivity].
  - vm_compute. reflexivity.
Defined.
